(** * Mesh connectivity of Rodin: a shallow embedding and its properties

    The development follows [Rodin/Geometry/Connectivity.cpp] and
    [Rodin/Geometry/IndexGenerator.h].

    - [Index] and [size_t] are modelled by [nat]; counts never come close to
      the range of a machine word in the properties below.
    - A [std::vector] is a [list]; reading or writing outside of its bounds
      (undefined behaviour of [operator[]], an exception of [at]) makes the
      operation [Abort], and so does a failing [assert].
    - An [IndexSet] is a [boost::container::flat_set<Index>]: a strictly
      increasing vector, here a list kept sorted by [set_insert].
    - The polytope index of a dimension is a [boost::bimap]; it is modelled by
      the list of its (key, identifier) pairs in insertion order.
    - Every member function takes the engine and returns the engine it
      leaves behind, inside the [result] monad. *)

From stdpp Require Import base list.
From Stdlib Require Import Lia.

Set Default Proof Using "Type".

(** ** Outcomes *)

Inductive result (A : Type) : Type :=
| Ok (a : A)
| Abort
| OutOfFuel.
Arguments Ok {A} a.
Arguments Abort {A}.
Arguments OutOfFuel {A}.

Definition bind {A B : Type} (r : result A) (k : A → result B) : result B :=
  match r with
  | Ok a => k a
  | Abort => Abort
  | OutOfFuel => OutOfFuel
  end.

Notation "x <- r ;; k" := (bind r (λ x, k))
  (at level 100, r at next level, right associativity,
   format "'[v' x  <-  r  ;; '/' k ']'").

(** [assert(b)] *)
Definition assert (b : bool) : result unit := if b then Ok tt else Abort.

(** [v[i]] on a vector *)
Definition at_ {A : Type} (v : list A) (i : nat) : result A :=
  match v !! i with
  | Some a => Ok a
  | None => Abort
  end.

(** [v[i] = x] on a vector *)
Definition put {A : Type} (v : list A) (i : nat) (x : A) : result (list A) :=
  if i <? length v then Ok (<[i := x]> v) else Abort.

(** [m[d][dp]] and [m[d][dp] = x] on a vector of vectors *)
Definition at2 {A : Type} (m : list (list A)) (d dp : nat) : result A :=
  row <- at_ m d ;; at_ row dp.

Definition put2 {A : Type} (m : list (list A)) (d dp : nat) (x : A)
  : result (list (list A)) :=
  row <- at_ m d ;;
  row' <- put row dp x ;;
  put m d row'.

(** A loop whose body may abort: [for (x : xs) s = body(s, x)] *)
Fixpoint for_each {S A : Type} (body : S → A → result S) (xs : list A) (s : S)
  : result S :=
  match xs with
  | [] => Ok s
  | x :: xs' => s' <- body s x ;; for_each body xs' s'
  end.

(** ** Index arrays and index sets *)

Abbreviation Index := nat (only parsing).
Abbreviation IndexArray := (list nat) (only parsing).
Abbreviation IndexSet := (list nat) (only parsing).
Abbreviation Incidence := (list (list nat)) (only parsing).

(** [flat_set::insert(x)] *)
Fixpoint set_insert (x : nat) (s : IndexSet) : IndexSet :=
  match s with
  | [] => [x]
  | y :: s' =>
      if x <? y then x :: s
      else if x =? y then s
      else y :: set_insert x s'
  end.

(** [flat_set::insert_unique(first, last)] *)
Definition insert_unique (xs : list nat) (s : IndexSet) : IndexSet :=
  foldl (λ acc x, set_insert x acc) s xs.

(** [std::includes(a.begin(), a.end(), b.begin(), b.end())] *)
Fixpoint includes (a b : list nat) {struct a} : bool :=
  match b with
  | [] => true
  | y :: b' =>
      match a with
      | [] => false
      | x :: a' =>
          if y <? x then false
          else if x <? y then includes a' b
          else includes a' b'
      end
  end.

(** ** Geometries *)

Module Polytope.
Inductive Type_ : Set :=
| Point | Segment | Triangle | Quadrilateral | Tetrahedron | TriangularPrism.

(** Modelled from the spec: [Polytope::getGeometryDimension] is defined in
    Polytope.cpp, which is not among the sources. Each geometric type has a
    fixed dimension; the values are the bounds that [getSubPolytopes]
    asserts for each type. *)
Definition getGeometryDimension (t : Type_) : nat :=
  match t with
  | Point => 0
  | Segment => 1
  | Triangle | Quadrilateral => 2
  | Tetrahedron | TriangularPrism => 3
  end.
End Polytope.

(** [GeometryIndexed<size_t>]: one counter for each geometric type. The
    template is declared in a header that is not among the sources; it is a
    table indexed by [Polytope::Type]. *)
Module GeometryIndexed.
Record t : Set := mk {
  point : nat; segment : nat; triangle : nat;
  quadrilateral : nat; tetrahedron : nat; triangularPrism : nat
}.

Definition zero : t := mk 0 0 0 0 0 0.

(** [m[g]] *)
Definition get (g : Polytope.Type_) (m : t) : nat :=
  match g with
  | Polytope.Point => point m
  | Polytope.Segment => segment m
  | Polytope.Triangle => triangle m
  | Polytope.Quadrilateral => quadrilateral m
  | Polytope.Tetrahedron => tetrahedron m
  | Polytope.TriangularPrism => triangularPrism m
  end.

(** [m[g] = n] *)
Definition set (g : Polytope.Type_) (n : nat) (m : t) : t :=
  match g with
  | Polytope.Point =>
      mk n (segment m) (triangle m) (quadrilateral m) (tetrahedron m)
        (triangularPrism m)
  | Polytope.Segment =>
      mk (point m) n (triangle m) (quadrilateral m) (tetrahedron m)
        (triangularPrism m)
  | Polytope.Triangle =>
      mk (point m) (segment m) n (quadrilateral m) (tetrahedron m)
        (triangularPrism m)
  | Polytope.Quadrilateral =>
      mk (point m) (segment m) (triangle m) n (tetrahedron m)
        (triangularPrism m)
  | Polytope.Tetrahedron =>
      mk (point m) (segment m) (triangle m) (quadrilateral m) n
        (triangularPrism m)
  | Polytope.TriangularPrism =>
      mk (point m) (segment m) (triangle m) (quadrilateral m)
        (tetrahedron m) n
  end.
End GeometryIndexed.

(** ** The key comparison of the polytope index *)

(** The hash and equality functors of [PolytopeIndex] are declared in
    Connectivity.h, which is not among the sources. The comparison is a
    parameter of the model; it ranges over the two keyings the specification
    names: the full ordered tuple, or the vertex set. One comparison serves
    every dimension, since [m_index] is a vector of one index type. *)
Inductive KeyEquality : Set := OrderedTuple | VertexSet.

Fixpoint tuple_eqb (a b : IndexArray) : bool :=
  match a, b with
  | [], [] => true
  | x :: a', y :: b' => (x =? y) && tuple_eqb a' b'
  | _, _ => false
  end.

Definition mem (x : nat) (a : list nat) : bool := existsb (Nat.eqb x) a.

(** Modelled from the spec: two keys with identical vertex-set content (as a
    set, not as a sequence) are the same key. *)
Definition set_eqb (a b : IndexArray) : bool :=
  forallb (λ x, mem x b) a && forallb (λ y, mem y a) b.

Definition key_eqb (ke : KeyEquality) (a b : IndexArray) : bool :=
  match ke with
  | OrderedTuple => tuple_eqb a b
  | VertexSet => set_eqb a b
  end.

(** ** The polytope index: a bimap between keys and identifiers *)

Abbreviation PolytopeIndex := (list (list nat * nat)) (only parsing).

Section Index.
Variable ke : KeyEquality.

(** [index.left.find(key)] *)
Definition left_find (key : IndexArray) (ix : PolytopeIndex)
  : option (IndexArray * Index) :=
  find (λ e, key_eqb ke (fst e) key) ix.

(** [index.right.find(id)] *)
Definition right_find (id : Index) (ix : PolytopeIndex)
  : option (IndexArray * Index) :=
  find (λ e, snd e =? id) ix.

(** [index.left.insert({ key, id })]: the pair enters the bimap only when
    neither view holds its component already. The result is the index, the
    element the returned iterator points to, and the [inserted] flag. *)
Definition left_insert (key : IndexArray) (id : Index) (ix : PolytopeIndex)
  : PolytopeIndex * (IndexArray * Index) * bool :=
  match left_find key ix with
  | Some e => (ix, e, false)
  | None =>
      match right_find id ix with
      | Some e => (ix, e, false)
      | None => (ix ++ [(key, id)], (key, id), true)
      end
  end.

(** [index.right.at(id)] *)
Definition right_at (id : Index) (ix : PolytopeIndex) : result IndexArray :=
  match right_find id ix with
  | Some e => Ok (fst e)
  | None => Abort
  end.
End Index.

(** ** The engine *)

Record Connectivity : Type := mkConnectivity {
  m_maximalDimension : nat;
  m_count : list nat;
  m_gcount : GeometryIndexed.t;
  m_index : list (list (list nat * nat));
  m_geometry : list (list Polytope.Type_);
  m_connectivity : list (list (list (list nat)));
  m_dirty : list (list bool)
}.

Definition with_count (v : list nat) (c : Connectivity) : Connectivity :=
  mkConnectivity (m_maximalDimension c) v (m_gcount c) (m_index c)
    (m_geometry c) (m_connectivity c) (m_dirty c).
Definition with_gcount (g : GeometryIndexed.t) (c : Connectivity) : Connectivity :=
  mkConnectivity (m_maximalDimension c) (m_count c) g (m_index c)
    (m_geometry c) (m_connectivity c) (m_dirty c).
Definition with_index (v : list (list (list nat * nat))) (c : Connectivity)
  : Connectivity :=
  mkConnectivity (m_maximalDimension c) (m_count c) (m_gcount c) v
    (m_geometry c) (m_connectivity c) (m_dirty c).
Definition with_geometry (v : list (list Polytope.Type_)) (c : Connectivity)
  : Connectivity :=
  mkConnectivity (m_maximalDimension c) (m_count c) (m_gcount c) (m_index c)
    v (m_connectivity c) (m_dirty c).
Definition with_connectivity (v : list (list (list (list nat)))) (c : Connectivity)
  : Connectivity :=
  mkConnectivity (m_maximalDimension c) (m_count c) (m_gcount c) (m_index c)
    (m_geometry c) v (m_dirty c).
Definition with_dirty (v : list (list bool)) (c : Connectivity) : Connectivity :=
  mkConnectivity (m_maximalDimension c) (m_count c) (m_gcount c) (m_index c)
    (m_geometry c) (m_connectivity c) v.

(** [Connectivity()]: only [m_count] is sized *)
Definition construct : Connectivity :=
  mkConnectivity 0 (resize 1 0 []) GeometryIndexed.zero [] [] [] [].

(** ** Member functions *)

Section Engine.
Variable ke : KeyEquality.

Definition initialize (maximalDimension : nat) (c : Connectivity)
  : result Connectivity :=
  let n := maximalDimension + 1 in
  _ <- assert (length (m_connectivity c) =? 0) ;;
  _ <- assert (length (m_dirty c) =? 0) ;;
  _ <- assert (length (m_index c) =? 0) ;;
  _ <- assert (length (m_geometry c) =? 0) ;;
  Ok (mkConnectivity maximalDimension
        (resize n 0 (m_count c))
        (m_gcount c)
        (resize n [] (m_index c))
        (resize n [] (m_geometry c))
        (resize n [] <$> resize n [] (m_connectivity c))
        (resize n true <$> resize n [] (m_dirty c))).

(** One round of the loop of [nodes]. *)
Definition nodes_insert (c : Connectivity) (i : nat) : result Connectivity :=
  ix <- at_ (m_index c) 0 ;;
  let '(ix', _, inserted) := left_insert ke [i] i ix in
  index' <- put (m_index c) 0 ix' ;;
  _ <- assert inserted ;;
  Ok (with_index index' c).

Definition nodes (count : nat) (c : Connectivity) : result Connectivity :=
  count' <- put (m_count c) 0 count ;;
  let c := with_count count' c in
  let c := with_gcount (GeometryIndexed.set Polytope.Point count (m_gcount c)) c in
  for_each nodes_insert (seq 0 count) c.

Definition polytope (t : Polytope.Type_) (inp : IndexArray) (c : Connectivity)
  : result Connectivity :=
  _ <- assert (0 <? length inp) ;;
  let d := Polytope.getGeometryDimension t in
  _ <- assert (0 <? d) ;;
  _ <- assert (d <=? m_maximalDimension c) ;;
  ix <- at_ (m_index c) d ;;
  cnt <- at_ (m_count c) d ;;
  let '(ix', (key, _), inserted) := left_insert ke inp cnt ix in
  index' <- put (m_index c) d ix' ;;
  let c := with_index index' c in
  if inserted then
    inc <- at2 (m_connectivity c) d 0 ;;
    conn <- put2 (m_connectivity c) d 0 (inc ++ [insert_unique key []]) ;;
    geo <- at_ (m_geometry c) d ;;
    geometry' <- put (m_geometry c) d (geo ++ [t]) ;;
    count' <- put (m_count c) d (cnt + 1) ;;
    let gcount' :=
      GeometryIndexed.set t (GeometryIndexed.get t (m_gcount c) + 1) (m_gcount c) in
    dirty' <- put2 (m_dirty c) d 0 false ;;
    Ok (mkConnectivity (m_maximalDimension c) count' gcount' (m_index c)
          geometry' conn dirty')
  else Ok c.

Definition getIndex (dim : nat) (key : IndexArray) (c : Connectivity)
  : result (option Index) :=
  ix <- at_ (m_index c) dim ;;
  Ok (snd <$> left_find ke key ix).

Definition getIncidence (d dp : nat) (c : Connectivity) : result Incidence :=
  _ <- assert (d <? length (m_connectivity c)) ;;
  row <- at_ (m_connectivity c) d ;;
  _ <- assert (dp <? length row) ;;
  at_ row dp.

Definition getIncidenceOf (p : nat * nat) (idx : Index) (c : Connectivity)
  : result IndexSet :=
  inc <- getIncidence (fst p) (snd p) c ;;
  _ <- assert (idx <? length inc) ;;
  at_ inc idx.

Definition getCount (dim : nat) (c : Connectivity) : result nat :=
  at_ (m_count c) dim.

Definition getGeometryCount (g : Polytope.Type_) (c : Connectivity) : nat :=
  GeometryIndexed.get g (m_gcount c).

(** The loop of [getMeshDimension], from [i - 1] down to [0]. *)
Fixpoint highest_populated (i : nat) (count : list nat) : nat :=
  match i with
  | 0 => 0
  | S i' =>
      match count !! i' with
      | Some n => if 0 <? n then i' else highest_populated i' count
      | None => highest_populated i' count
      end
  end.

Definition getMeshDimension (c : Connectivity) : nat :=
  highest_populated (length (m_count c)) (m_count c).

Definition getGeometry (d : nat) (idx : Index) (c : Connectivity)
  : result Polytope.Type_ :=
  if d =? 0 then Ok Polytope.Point else at2 (m_geometry c) d idx.

Definition getPolytope (d : nat) (idx : Index) (c : Connectivity)
  : result IndexArray :=
  ix <- at_ (m_index c) d ;;
  right_at idx ix.

Definition setIncidence (p : nat * nat) (inc : Incidence) (c : Connectivity)
  : result Connectivity :=
  _ <- assert (fst p <? length (m_connectivity c)) ;;
  row <- at_ (m_connectivity c) (fst p) ;;
  _ <- assert (snd p <? length row) ;;
  conn <- put2 (m_connectivity c) (fst p) (snd p) inc ;;
  Ok (with_connectivity conn c).

(** [m_connectivity[d][dp][i].insert(j)] *)
Definition incidence_insert (d dp i j : nat) (c : Connectivity)
  : result Connectivity :=
  inc <- at2 (m_connectivity c) d dp ;;
  s <- at_ inc i ;;
  inc' <- put inc i (set_insert j s) ;;
  conn <- put2 (m_connectivity c) d dp inc' ;;
  Ok (with_connectivity conn c).

(** [m_connectivity[d][dp].resize(m_count[d])] *)
Definition incidence_resize (d dp : nat) (c : Connectivity)
  : result Connectivity :=
  inc <- at2 (m_connectivity c) d dp ;;
  n <- at_ (m_count c) d ;;
  conn <- put2 (m_connectivity c) d dp (resize n [] inc) ;;
  Ok (with_connectivity conn c).

(** [m_dirty[d][dp] = b] *)
Definition mark (d dp : nat) (b : bool) (c : Connectivity)
  : result Connectivity :=
  dirty <- put2 (m_dirty c) d dp b ;;
  Ok (with_dirty dirty c).

(** *** transpose *)

(** The body of the outer loop: entity [j] of dimension [dp]. *)
Definition transpose_row (d dp : nat) (c : Connectivity) (j : nat)
  : result Connectivity :=
  rel <- at2 (m_connectivity c) dp d ;;
  is_ <- at_ rel j ;;
  for_each (λ c i, incidence_insert d dp i j c) is_ c.

Definition transpose (d dp : nat) (c : Connectivity) : result Connectivity :=
  _ <- assert (d <? dp) ;;
  _ <- assert (d <? length (m_connectivity c)) ;;
  row <- at_ (m_connectivity c) d ;;
  _ <- assert (dp <? length row) ;;
  c <- incidence_resize d dp c ;;
  n <- at_ (m_count c) dp ;;
  c <- for_each (transpose_row d dp) (seq 0 n) c ;;
  mark d dp false c.

(** *** intersection *)

(** The innermost body: candidate [j] for entity [i]. *)
Definition intersection_visit (d dp i : nat) (c : Connectivity) (j : nat)
  : result Connectivity :=
  rd0 <- at2 (m_connectivity c) d 0 ;;
  _ <- assert (i <? length rd0) ;;
  rdp0 <- at2 (m_connectivity c) dp 0 ;;
  _ <- assert (j <? length rdp0) ;;
  d0i <- at_ rd0 i ;;
  d0j <- at_ rdp0 j ;;
  if ((d =? dp) && negb (i =? j)) || ((dp <? d) && includes d0i d0j)
  then incidence_insert d dp i j c
  else Ok c.

(** The middle loop body: pivot entity [k]. *)
Definition intersection_through (d dp dpp i : nat) (c : Connectivity) (k : nat)
  : result Connectivity :=
  rel <- at2 (m_connectivity c) dpp dp ;;
  _ <- assert (k <? length rel) ;;
  js <- at_ rel k ;;
  for_each (intersection_visit d dp i) js c.

(** The outer loop body: entity [i] of dimension [d]. *)
Definition intersection_row (d dp dpp : nat) (c : Connectivity) (i : nat)
  : result Connectivity :=
  rel <- at2 (m_connectivity c) d dpp ;;
  _ <- assert (i <? length rel) ;;
  ks <- at_ rel i ;;
  for_each (intersection_through d dp dpp i) ks c.

Definition intersection (d dp dpp : nat) (c : Connectivity)
  : result Connectivity :=
  _ <- assert (dp <=? d) ;;
  c <- incidence_resize d dp c ;;
  n <- at_ (m_count c) d ;;
  c <- for_each (intersection_row d dp dpp) (seq 0 n) c ;;
  mark d dp false c.

(** *** getSubPolytopes *)

(** [{ { p(k0), p(k1), ... } }] *)
Fixpoint pick (p : IndexArray) (ks : list nat) : result IndexArray :=
  match ks with
  | [] => Ok []
  | k :: ks' => v <- at_ p k ;; vs <- pick p ks' ;; Ok (v :: vs)
  end.

(** [out[n] = { geometry, { { p(k0), ... } } }] for each row of a table *)
Fixpoint subs (p : IndexArray) (table : list (Polytope.Type_ * list nat))
  : result (list (Polytope.Type_ * IndexArray)) :=
  match table with
  | [] => Ok []
  | (g, ks) :: table' =>
      vs <- pick p ks ;; out <- subs p table' ;; Ok ((g, vs) :: out)
  end.

Import Polytope.

Definition getSubPolytopes (i : Index) (dim : nat) (c : Connectivity)
  : result (list (Polytope.Type_ * IndexArray)) :=
  let D := getMeshDimension c in
  ix <- at_ (m_index c) D ;;
  p <- right_at i ix ;;
  g <- at2 (m_geometry c) D i ;;
  match g with
  | Point =>
      _ <- assert (dim =? 0) ;;
      _ <- assert (length p =? 0) ;;
      Ok [(Point, [i])]
  | Segment =>
      _ <- assert (dim <=? 1) ;;
      _ <- assert (length p =? 2) ;;
      match dim with
      | 0 => subs p [(Point, [0]); (Point, [1])]
      | 1 => Ok [(Segment, p)]
      | _ => Abort
      end
  | Triangle =>
      _ <- assert (dim <=? 2) ;;
      _ <- assert (length p =? 3) ;;
      match dim with
      | 0 => subs p [(Point, [0]); (Point, [1]); (Point, [2])]
      | 1 => subs p [(Segment, [0; 1]); (Segment, [1; 2]); (Segment, [2; 0])]
      | 2 => Ok [(Triangle, p)]
      | _ => Abort
      end
  | Quadrilateral =>
      _ <- assert (dim <=? 2) ;;
      _ <- assert (length p =? 4) ;;
      match dim with
      | 0 => subs p [(Point, [0]); (Point, [1]); (Point, [2]); (Point, [3])]
      | 1 => subs p [(Segment, [0; 1]); (Segment, [1; 3]);
                     (Segment, [3; 2]); (Segment, [2; 0])]
      | 2 => Ok [(Quadrilateral, p)]
      | _ => Abort
      end
  | Tetrahedron =>
      _ <- assert (dim <=? 3) ;;
      _ <- assert (length p =? 4) ;;
      match dim with
      | 0 => subs p [(Point, [0]); (Point, [1]); (Point, [2]); (Point, [3])]
      | 1 => subs p [(Segment, [0; 1]); (Segment, [0; 2]); (Segment, [1; 2]);
                     (Segment, [1; 3]); (Segment, [2; 3]); (Segment, [3; 0])]
      | 2 => subs p [(Triangle, [0; 1; 3]); (Triangle, [0; 1; 2]);
                     (Triangle, [0; 2; 3]); (Triangle, [1; 2; 3])]
      | 3 => Ok [(Tetrahedron, p)]
      | _ => Abort
      end
  | TriangularPrism =>
      _ <- assert (dim <=? 3) ;;
      _ <- assert (length p =? 6) ;;
      match dim with
      | 0 => subs p [(Point, [0]); (Point, [1]); (Point, [2]);
                     (Point, [3]); (Point, [4]); (Point, [5])]
      | 1 => subs p [(Segment, [0; 1]); (Segment, [0; 2]); (Segment, [0; 3]);
                     (Segment, [1; 2]); (Segment, [1; 4]); (Segment, [2; 5]);
                     (Segment, [3; 4]); (Segment, [3; 5]); (Segment, [4; 5])]
      | 2 => subs p [(Triangle, [0; 1; 2]); (Quadrilateral, [0; 1; 3; 4]);
                     (Quadrilateral, [1; 2; 4; 5]);
                     (Quadrilateral, [2; 0; 5; 3]); (Triangle, [3; 4; 5])]
      | 3 => Ok [(TriangularPrism, p)]
      | _ => Abort
      end
  end.

(** *** local and build *)

(** [x += b] for a [bool] [b] *)
Definition add_bool (x : nat) (b : bool) : nat := x + (if b then 1 else 0).

(** One round of the loop of [local]: a sub-polytope enters the index of
    dimension [d] and its identifier enters the set [s]. *)
Definition local_insert (d D : nat) (acc : Connectivity * IndexSet)
    (sp : Polytope.Type_ * IndexArray) : result (Connectivity * IndexSet) :=
  let '(c, s) := acc in
  let '(geometry, vertices) := sp in
  ix <- at_ (m_index c) d ;;
  cnt <- at_ (m_count c) d ;;
  let '(ix', (v, idx), inserted) := left_insert ke vertices cnt ix in
  index' <- put (m_index c) d ix' ;;
  let c := with_index index' c in
  c <- (if inserted then
          geo <- at_ (m_geometry c) d ;;
          geometry' <- put (m_geometry c) d (geo ++ [geometry]) ;;
          inc <- at2 (m_connectivity c) d 0 ;;
          conn <- put2 (m_connectivity c) d 0 (inc ++ [insert_unique v []]) ;;
          Ok (with_connectivity conn (with_geometry geometry' c))
        else Ok c) ;;
  let bump := inserted && negb ((d =? D) || (d =? 0)) in
  count' <- put (m_count c) d (add_bool cnt bump) ;;
  let gcount' :=
    GeometryIndexed.set geometry
      (add_bool (GeometryIndexed.get geometry (m_gcount c)) bump) (m_gcount c) in
  Ok (with_gcount gcount' (with_count count' c), set_insert idx s).

Definition local (i d : nat) (c : Connectivity) : result Connectivity :=
  let D := getMeshDimension c in
  _ <- assert (0 <? d) ;;
  _ <- assert (d <? D) ;;
  subpolytopes <- getSubPolytopes i d c ;;
  acc <- for_each (local_insert d D) subpolytopes (c, []) ;;
  let '(c, s) := acc in
  inc <- at2 (m_connectivity c) D d ;;
  conn <- put2 (m_connectivity c) D d (inc ++ [s]) ;;
  Ok (with_connectivity conn c).

(** [!m_dirty[d][dp]] inside an [assert] *)
Definition assert_clean (d dp : nat) (c : Connectivity) : result unit :=
  b <- at2 (m_dirty c) d dp ;; assert (negb b).

Definition build (d : nat) (c : Connectivity) : result Connectivity :=
  let D := getMeshDimension c in
  _ <- assert (0 <? d) ;;
  _ <- assert (d <? D) ;;
  _ <- assert_clean D 0 c ;;
  _ <- assert_clean D D c ;;
  n <- at_ (m_count c) D ;;
  c <- for_each (λ c i, local i d c) (seq 0 n) c ;;
  c <- mark D d false c ;;
  mark d 0 false c.

(** *** compute *)

(** [d != D && d != 0 && (m_dirty[D][d] || m_dirty[d][0])], evaluated from
    left to right and only as far as needed *)
Definition needs_build (D d : nat) (c : Connectivity) : result bool :=
  if negb (d =? D) && negb (d =? 0) then
    a <- at2 (m_dirty c) D d ;;
    if a then Ok true else at2 (m_dirty c) d 0
  else Ok false.

(** The pivot of the intersection in [compute]. *)
Definition pivot (D d dp : nat) : nat :=
  if (d =? 0) && (dp =? 0) then D else 0.

(** The statements of [compute] ahead of its test of [m_dirty[d][dp]]. *)
Definition prepare (D d dp : nat) (c : Connectivity) : result Connectivity :=
  a <- at2 (m_dirty c) D D ;;
  c <- (if a then c <- transpose 0 D c ;; intersection D D 0 c else Ok c) ;;
  _ <- assert_clean D D c ;;
  b <- needs_build D d c ;;
  c <- (if b then build d c else Ok c) ;;
  _ <- assert_clean D d c ;;
  a <- at2 (m_dirty c) d 0 ;;
  _ <- assert (negb a || (d =? D) || (d =? 0)) ;;
  b <- needs_build D dp c ;;
  c <- (if b then build dp c else Ok c) ;;
  _ <- assert_clean D dp c ;;
  a <- at2 (m_dirty c) dp 0 ;;
  _ <- assert (negb a || (dp =? D) || (dp =? 0)) ;;
  Ok c.

(** [compute] calls itself; [fuel] bounds the depth of the calls. *)
Fixpoint compute (fuel : nat) (d dp : nat) (c : Connectivity)
  : result Connectivity :=
  match fuel with
  | 0 => OutOfFuel
  | S fuel =>
      let D := getMeshDimension c in
      if (d =? D) && (dp =? 0) then Ok c
      else
        c <- prepare D d dp c ;;
        a <- at2 (m_dirty c) d dp ;;
        c <- (if a then
                if d <? dp then
                  c <- compute fuel dp d c ;;
                  transpose d dp c
                else
                  let dpp := pivot D d dp in
                  c <- compute fuel d dpp c ;;
                  c <- compute fuel dpp dp c ;;
                  intersection d dp dpp c
              else Ok c) ;;
        mark d dp false c
  end.

Definition clear (d dp : nat) (c : Connectivity) : result Connectivity :=
  _ <- assert (d <? length (m_connectivity c)) ;;
  row <- at_ (m_connectivity c) d ;;
  _ <- assert (dp <? length row) ;;
  c <- mark d dp true c ;;
  conn <- put2 (m_connectivity c) d dp [] ;;
  Ok (with_connectivity conn c).
End Engine.

(** ** Index generators *)

Module BoundedIndexGenerator.
Record t : Set := mk { m_start : nat; m_end : nat; m_curr : nat }.

(** [BoundedIndexGenerator(Index start, Index end)] *)
Definition make (start end_ : nat) : t := mk start end_ start.

(** [BoundedIndexGenerator(BoundedIndexGenerator&& other)] *)
Definition move_from (other : t) : t :=
  mk (m_start other) (m_end other) (m_curr other).

(** [BoundedIndexGenerator(const BoundedIndexGenerator& other)] *)
Definition copy_from (other : t) : t :=
  mk (m_start other) (m_end other) (m_end other).

Definition end_ (g : t) : bool := m_curr g =? m_end g.

(** [operator++] *)
Definition next (g : t) : t := mk (m_start g) (m_end g) (m_curr g + 1).

(** [operator*] *)
Definition deref (g : t) : result nat :=
  _ <- assert (negb (end_ g)) ;; Ok (m_curr g).

Definition copy (g : t) : t := copy_from g.
Definition move (g : t) : t := move_from g.

(** The indices a generator still yields, read off by a loop
    [for (; !g.end(); ++g) out.push_back( *g)] of at most [fuel] rounds. *)
Fixpoint remaining (fuel : nat) (g : t) : list nat :=
  match fuel with
  | 0 => []
  | S fuel => if end_ g then [] else m_curr g :: remaining fuel (next g)
  end.
End BoundedIndexGenerator.

(** ** Runs and meshes *)

(** A sequence of calls on a freshly constructed engine. *)
Definition run (calls : list (Connectivity → result Connectivity))
  : result Connectivity :=
  for_each (λ c call, call c) calls construct.


(** Two triangles T0 = (0, 1, 2) and T1 = (1, 2, 3) over four vertices. *)
Definition two_triangles (ke : KeyEquality) : result Connectivity :=
  run [initialize 2; nodes ke 4;
       polytope ke Polytope.Triangle [0; 1; 2];
       polytope ke Polytope.Triangle [1; 2; 3]].

(** The engine of a successful run. *)
Definition state_of (r : result Connectivity) : Connectivity :=
  match r with
  | Ok c => c
  | _ => construct
  end.

(** The two triangles, keys compared as vertex sets, before any query. *)
Definition two_triangles_state : Connectivity :=
  Eval vm_compute in state_of (two_triangles VertexSet).



(** The two triangles after the query (2, 1), and after the query (1, 2). *)
Definition two_triangles_edges : Connectivity :=
  Eval vm_compute in state_of (compute VertexSet 3 2 1 two_triangles_state).

Definition two_triangles_by_edge : Connectivity :=
  Eval vm_compute in state_of (compute VertexSet 3 1 2 two_triangles_state).

(** A cell declared after a query: T0, the query (0, 2), then T1. *)
Definition late_cell : result Connectivity :=
  run [initialize 2; nodes VertexSet 4;
       polytope VertexSet Polytope.Triangle [0; 1; 2];
       compute VertexSet 3 0 2;
       polytope VertexSet Polytope.Triangle [1; 2; 3]].

Definition late_cell_state : Connectivity :=
  Eval vm_compute in state_of late_cell.

(** The cells cleared after a query: T0, the query (2, 1), [clear(2, 0)],
    then T1 = (2, 3, 4). *)
Definition cleared_cells : result Connectivity :=
  run [initialize 2; nodes VertexSet 5;
       polytope VertexSet Polytope.Triangle [0; 1; 2];
       compute VertexSet 3 2 1;
       clear 2 0;
       polytope VertexSet Polytope.Triangle [2; 3; 4]].

Definition cleared_cells_state : Connectivity :=
  Eval vm_compute in state_of cleared_cells.

(** ** Vocabulary of the properties *)

(** Entity [j] is in the incidence set of entity [i]. *)
Definition incident (rel : list (list nat)) (i j : nat) : Prop :=
  ∃ s, rel !! i = Some s ∧ In j s.

(** In the engine [c], entity [j] of dimension [dp] is in the stored
    incidence set of entity [i] of dimension [d]. *)
Definition related (c : Connectivity) (d dp i j : nat) : Prop :=
  ∃ r, at2 (m_connectivity c) d dp = Ok r ∧ incident r i j.

(** The vertices of [a] are vertices of [b]. *)
Definition subset (a b : list nat) : Prop := ∀ x, In x a → In x b.

(** The stored relation and the dirty flag of the pair (x, y) are in [c']
    what they are in [c]. *)
Definition untouched (c c' : Connectivity) (x y : nat) : Prop :=
  at2 (m_connectivity c') x y = at2 (m_connectivity c) x y
  ∧ at2 (m_dirty c') x y = at2 (m_dirty c) x y.

(** [c'] differs from [c] at most in the relation and the flag of (d, dp). *)
Definition only_pair (d dp : nat) (c c' : Connectivity) : Prop :=
  m_maximalDimension c' = m_maximalDimension c
  ∧ m_count c' = m_count c
  ∧ m_gcount c' = m_gcount c
  ∧ m_index c' = m_index c
  ∧ m_geometry c' = m_geometry c
  ∧ ∀ x y, (x, y) ≠ (d, dp) → untouched c c' x y.

(** The (d, 0) entry of entity [i] in the engine [c] is the vertex set [v]. *)
Definition vertices (c : Connectivity) (d i : nat) (v : list nat) : Prop :=
  ∃ r, at2 (m_connectivity c) d 0 = Ok r ∧ r !! i = Some v.

(** Two vectors of one length that agree everywhere but at position [d]. *)
Definition agree_except {A : Type} (d : nat) (l l' : list A) : Prop :=
  length l' = length l ∧ ∀ x, x ≠ d → l' !! x = l !! x.

(** [c'] differs from [c] at most as building dimension [d] under the mesh
    dimension [D] can make it differ: in the tables of dimension [d] and in
    the pairs (d, 0) and (D, d). *)
Definition grown (d D : nat) (c c' : Connectivity) : Prop :=
  m_maximalDimension c' = m_maximalDimension c
  ∧ agree_except d (m_count c) (m_count c')
  ∧ agree_except d (m_index c) (m_index c')
  ∧ agree_except d (m_geometry c) (m_geometry c')
  ∧ ∀ x y, (x, y) ≠ (d, 0) → (x, y) ≠ (D, d) → untouched c c' x y.

(** The pairs that the statements of [compute(d, dp)] ahead of its own
    derivation may write, under the mesh dimension [D]. *)
Definition prepared (D d dp x y : nat) : Prop :=
  (x, y) = (0, D) ∨ (x, y) = (D, D)
  ∨ (0 < d < D ∧ ((x, y) = (d, 0) ∨ (x, y) = (D, d)))
  ∨ (0 < dp < D ∧ ((x, y) = (dp, 0) ∨ (x, y) = (D, dp))).

(** In the engine [c] the stored relation (d, dp) is the inverse of the
    stored relation (dp, d) on the entities that [c] counts in dimension
    [dp]. *)
Definition transposed (c : Connectivity) (d dp : nat) : Prop :=
  ∃ n, getCount dp c = Ok n
    ∧ ∀ i j, related c d dp i j ↔ j < n ∧ related c dp d j i.

(** In the engine [c] every entity in a stored incidence set of the pair
    (d, dp) has its (dp, 0) entry inside the (d, 0) entry of the owner. *)
Definition closed (c : Connectivity) (d dp : nat) : Prop :=
  ∀ i j, related c d dp i j →
         ∃ vi vj, vertices c d i vi ∧ vertices c dp j vj ∧ subset vj vi.

(** In the engine [c] every cell of dimension [D] has a (D, 0) entry that
    holds the vertices of its key, as [polytope] stores it. *)
Definition cells_listed (c : Connectivity) (D : nat) : Prop :=
  ∀ i p, getPolytope D i c = Ok p → ∃ v, vertices c D i v ∧ subset p v.

(** In the engine [c] the tables of dimension [d] are aligned, as
    [polytope] and [local] leave them: the identifiers of the index are below
    the count, the relation (d, 0) has one entry for each counted entity, and
    the entry of an identifier holds the vertices of its key. *)
Definition aligned (c : Connectivity) (d : nat) : Prop :=
  ∃ ix n r,
    m_index c !! d = Some ix
    ∧ m_count c !! d = Some n
    ∧ at2 (m_connectivity c) d 0 = Ok r
    ∧ length r = n
    ∧ ∀ k id, In (k, id) ix →
              id < n ∧ ∃ v, r !! id = Some v ∧ ∀ x, In x v ↔ In x k.

(** The pair (x, y) is marked clean in the engine [c]. *)
Definition clean (c : Connectivity) (x y : nat) : Prop :=
  at2 (m_dirty c) x y = Ok false.

(** What the calls of the interface keep true of the engine, as long as no
    (d, 0) entry is cleared: the index has an entry for each counted
    dimension; the tables of every dimension above 0 are aligned; a dirty
    pair stores nothing; a populated dimension has its pair (z, 0) clean; a
    clean pair (x, y) has the pair (y, 0) clean; and every stored relation
    below the diagonal is closed. *)
Definition sound (c : Connectivity) : Prop :=
  length (m_index c) = length (m_count c)
  ∧ (∀ d, 0 < d < length (m_index c) → aligned c d)
  ∧ (∀ x y, at2 (m_dirty c) x y = Ok true → at2 (m_connectivity c) x y = Ok [])
  ∧ (∀ z n, 0 < z → m_count c !! z = Some n → 0 < n → clean c z 0)
  ∧ (∀ x y, 0 < y → clean c x y → clean c y 0)
  ∧ (∀ x y, 0 < y < x → closed c x y).

(** ** Calls of the interface *)

Inductive call : Set :=
| Initialize (maximalDimension : nat)
| Nodes (count : nat)
| Cell (t : Polytope.Type_) (vertices : list nat)
| Compute (fuel d dp : nat)
| Clear (d dp : nat).

Definition perform (ke : KeyEquality) (c : Connectivity) (x : call)
  : result Connectivity :=
  match x with
  | Initialize maximalDimension => initialize maximalDimension c
  | Nodes count => nodes ke count c
  | Cell t vertices => polytope ke t vertices c
  | Compute fuel d dp => compute ke fuel d dp c
  | Clear d dp => clear d dp c
  end.

(** The calls one after the other, on a freshly constructed engine. *)
Definition execute (ke : KeyEquality) (calls : list call)
  : result Connectivity :=
  for_each (perform ke) calls construct.

(** A call that is neither [initialize] nor the clearing of a (d, 0) entry. *)
Definition keeps_vertex_sets (x : call) : Prop :=
  match x with
  | Initialize _ => False
  | Clear _ 0 => False
  | _ => True
  end.



(** No relation has been queried in the engine [c]: the clean pairs are
    pairs (x, 0) of declared dimensions. *)
Definition unqueried (c : Connectivity) : Prop :=
  ∀ x y, clean c x y → y = 0 ∧ 0 < x.

(** A call that declares vertices or a polytope. *)
Definition declares (x : call) : Prop :=
  match x with
  | Nodes _ | Cell _ _ => True
  | _ => False
  end.


(** The call comes back, with a result or by a failed assertion: the depth
    of the calls was enough. *)
Definition returns {A : Type} (r : result A) : Prop := r ≠ OutOfFuel.

(** A cell declared after a query, and the relation (2, 1) cleared and
    queried once more: T0, the query (2, 1), T1, [clear(2, 1)], the query
    (2, 1). *)
Definition late_cell_rebuilt : list call :=
  [Initialize 2; Nodes 4;
   Cell Polytope.Triangle [0; 1; 2];
   Compute 3 2 1;
   Cell Polytope.Triangle [1; 2; 3];
   Clear 2 1;
   Compute 3 2 1].

Definition late_cell_rebuilt_state : Connectivity :=
  Eval vm_compute in state_of (execute VertexSet late_cell_rebuilt).




(** ** Further generators, meshes and vocabulary *)

Module IteratorIndexGenerator.
Record t : Set := mk { m_it : nat; m_end : nat }.

(** [IteratorIndexGenerator(Iterator it, Iterator end)] *)
Definition make (it end_ : nat) : t := mk it end_.

(** [IteratorIndexGenerator(IteratorIndexGenerator&& other)] *)
Definition move_from (other : t) : t := mk (m_it other) (m_end other).

(** [IteratorIndexGenerator(const IteratorIndexGenerator& other)] *)
Definition copy_from (other : t) : t := mk (m_it other) (m_end other).

Definition end_ (g : t) : bool := m_it g =? m_end g.

(** [operator++] *)
Definition next (g : t) : t := mk (m_it g + 1) (m_end g).

(** [operator*] on iterators into the sequence [xs] *)
Definition deref (xs : list nat) (g : t) : result nat :=
  _ <- assert (negb (end_ g)) ;; at_ xs (m_it g).

Definition copy (g : t) : t := copy_from g.
Definition move (g : t) : t := move_from g.

(** [for (; !g.end(); ++g) out.push_back( *g)], at most [fuel] rounds. *)
Fixpoint remaining (xs : list nat) (fuel : nat) (g : t) : result (list nat) :=
  match fuel with
  | 0 => Ok []
  | S fuel =>
      if end_ g then Ok []
      else
        x <- deref xs g ;;
        rest <- remaining xs fuel (next g) ;;
        Ok (x :: rest)
  end.
End IteratorIndexGenerator.

Definition one_tetrahedron_state : Connectivity :=
  Eval vm_compute in
    state_of (run [initialize 3; nodes VertexSet 4;
                   polytope VertexSet Polytope.Tetrahedron [0; 1; 2; 3]]).

(** The two triangles after the query (2, 2). *)
Definition two_triangles_neighbours : Connectivity :=
  Eval vm_compute in state_of (compute VertexSet 4 2 2 two_triangles_state).

(** In the engine [c] the list of geometries of dimension [d] has one entry
    for each counted entity. *)
Definition typed (c : Connectivity) (d : nat) : Prop :=
  ∃ geo n,
    m_geometry c !! d = Some geo ∧ m_count c !! d = Some n ∧ length geo = n.

(** The lists of geometries of all dimensions above 0 are in step with the
    counts. *)
Definition all_typed (c : Connectivity) : Prop :=
  ∀ d, 0 < d < length (m_geometry c) → typed c d.

(** [c'] has the vertices and the cells of [c]: the mesh dimension [D], the
    maximal dimension, the counts, indices and geometries of the dimensions
    0 and [D], and the relation and the flag of the pair (D, 0). *)
Definition same_declarations (c c' : Connectivity) : Prop :=
  getMeshDimension c' = getMeshDimension c
  ∧ m_maximalDimension c' = m_maximalDimension c
  ∧ (∀ d, d = 0 ∨ d = getMeshDimension c →
       m_count c' !! d = m_count c !! d
       ∧ m_index c' !! d = m_index c !! d
       ∧ m_geometry c' !! d = m_geometry c !! d)
  ∧ untouched c c' (getMeshDimension c) 0.

(** Every flag that [c] has, [c'] has, and the flags that are clean in [c]
    are clean in [c']. *)
Definition flags_kept (c c' : Connectivity) : Prop :=
  ∀ x y b, at2 (m_dirty c) x y = Ok b →
    ∃ b', at2 (m_dirty c') x y = Ok b' ∧ (b = false → b' = false).

(** What the statements of [compute(a, b)] ahead of its derivation leave
    behind: the flags that the assertions have read. *)
Definition settled (D a b : nat) (c : Connectivity) : Prop :=
  clean c D D
  ∧ clean c D a
  ∧ clean c D b
  ∧ (∃ f, at2 (m_dirty c) a 0 = Ok f ∧ (f = false ∨ a = D ∨ a = 0))
  ∧ (∃ f, at2 (m_dirty c) b 0 = Ok f ∧ (f = false ∨ b = D ∨ b = 0)).

(** The test of [intersection(d, dp, .)] on the entities [i] and [j]: for
    [d = dp] the two differ, for [d > dp] the (d, 0) entry of [i] includes
    the (dp, 0) entry of [j]. *)
Definition passes (c : Connectivity) (d dp i j : nat) : Prop :=
  (d = dp ∧ i ≠ j)
  ∨ (dp < d
     ∧ ∃ vi vj, vertices c d i vi ∧ vertices c dp j vj
                ∧ includes vi vj = true).

(** The two triangles after [transpose(0, 2)]. *)
Definition two_triangles_transposed : Connectivity :=
  Eval vm_compute in state_of (transpose 0 2 two_triangles_state).

(** * Properties *)

(** ** Outcomes and vectors *)

Lemma bind_Ok {A B : Type} (r : result A) (k : A → result B) (b : B) :
  bind r k = Ok b → ∃ a, r = Ok a ∧ k a = Ok b.
Proof. destruct r; simpl; intros H; try discriminate. eauto. Qed.

Lemma assert_Ok (b : bool) (u : unit) : assert b = Ok u → b = true.
Proof. destruct b; simpl; [reflexivity | discriminate]. Qed.

Lemma assert_true (b : bool) : b = true → assert b = Ok tt.
Proof. intros ->. reflexivity. Qed.

(** [inv_bind H] splits a successful sequence into its successful steps. *)
Ltac inv_bind H :=
  let a := fresh "a" in
  let E := fresh "E" in
  apply bind_Ok in H as (a & E & H).

Ltac inv_assert H :=
  let u := fresh "u" in
  let E := fresh "E" in
  apply bind_Ok in H as (u & E & H); apply assert_Ok in E.

Tactic Notation "step" hyp(H) "as" ident(a) ident(E) :=
  apply bind_Ok in H as (a & E & H).

Tactic Notation "check" hyp(H) "as" ident(E) :=
  let u := fresh "u" in
  apply bind_Ok in H as (u & E & H); apply assert_Ok in E.

(** [ne_pair] proves that two pairs of dimensions differ. *)
Ltac ne_pair :=
  let E := fresh "E" in
  intros E; inversion E; subst; lia.

Lemma at_Ok {A : Type} (v : list A) (i : nat) (a : A) :
  at_ v i = Ok a ↔ v !! i = Some a.
Proof.
  unfold at_. destruct (v !! i); split; intros H; congruence.
Qed.

Lemma put_Ok {A : Type} (v v' : list A) (i : nat) (x : A) :
  put v i x = Ok v' ↔ i < length v ∧ v' = <[i := x]> v.
Proof.
  unfold put. destruct (Nat.ltb_spec i (length v)); split.
  - intros [= <-]. auto.
  - intros [_ ->]. reflexivity.
  - discriminate.
  - intros [? _]. lia.
Qed.

Lemma at2_Ok {A : Type} (m : list (list A)) (d dp : nat) (a : A) :
  at2 m d dp = Ok a ↔ ∃ row, m !! d = Some row ∧ row !! dp = Some a.
Proof.
  unfold at2. split.
  - intros H. inv_bind H. apply at_Ok in E, H. eauto.
  - intros (row & H1 & H2). apply at_Ok in H1, H2. rewrite H1. exact H2.
Qed.

Lemma put2_Ok {A : Type} (m m' : list (list A)) (d dp : nat) (x : A) :
  put2 m d dp x = Ok m' ↔
  ∃ row, m !! d = Some row ∧ dp < length row ∧ m' = <[d := <[dp := x]> row]> m.
Proof.
  unfold put2. split.
  - intros H. inv_bind H. inv_bind H. apply at_Ok in E.
    apply put_Ok in E0 as [? ->]. apply put_Ok in H as [? ->]. eauto.
  - intros (row & H1 & H2 & ->).
    assert (at_ m d = Ok row) as -> by (by apply at_Ok). simpl.
    assert (put row dp x = Ok (<[dp := x]> row)) as -> by (by apply put_Ok).
    simpl. apply put_Ok. split; [by eapply lookup_lt_Some | reflexivity].
Qed.

Lemma at2_put2_eq {A : Type} (m m' : list (list A)) (d dp : nat) (x : A) :
  put2 m d dp x = Ok m' → at2 m' d dp = Ok x.
Proof.
  intros (row & H1 & H2 & ->)%put2_Ok. apply at2_Ok.
  exists (<[dp := x]> row). split.
  - apply list_lookup_insert_eq. by eapply lookup_lt_Some.
  - by apply list_lookup_insert_eq.
Qed.

Lemma at2_put2_ne {A : Type} (m m' : list (list A)) (d dp d' dp' : nat) (x : A) :
  put2 m d dp x = Ok m' → (d', dp') ≠ (d, dp) → at2 m' d' dp' = at2 m d' dp'.
Proof.
  intros (row & H1 & H2 & ->)%put2_Ok Hne. unfold at2, at_.
  destruct (decide (d = d')) as [<- | Hd].
  - rewrite list_lookup_insert_eq by (by eapply lookup_lt_Some).
    rewrite H1. simpl.
    rewrite list_lookup_insert_ne by congruence. reflexivity.
  - rewrite list_lookup_insert_ne by done. reflexivity.
Qed.

Lemma put2_total {A : Type} (m : list (list A)) (d dp : nat) (a x : A) :
  at2 m d dp = Ok a → ∃ m', put2 m d dp x = Ok m'.
Proof.
  intros (row & H1 & H2)%at2_Ok. eexists. apply put2_Ok.
  exists row. split_and!; [done | by eapply lookup_lt_Some | reflexivity].
Qed.

(** ** Index generators *)

(** C10. A copy of a bounded generator should yield what the original still
    yields. The copy constructor sets the cursor to [m_end]: the copy of a
    fresh generator over [0, 3) is exhausted at once, it yields nothing and
    its dereference fails, while the original yields 0, 1, 2 and the moved
    generator keeps the cursor. *)
Theorem copy_of_fresh_generator_is_exhausted :
  let g := BoundedIndexGenerator.make 0 3 in
  BoundedIndexGenerator.end_ g = false
  ∧ BoundedIndexGenerator.remaining 4 g = [0; 1; 2]
  ∧ BoundedIndexGenerator.end_ (BoundedIndexGenerator.copy g) = true
  ∧ BoundedIndexGenerator.remaining 4 (BoundedIndexGenerator.copy g) = []
  ∧ BoundedIndexGenerator.deref (BoundedIndexGenerator.copy g) = Abort
  ∧ BoundedIndexGenerator.deref g = Ok 0
  ∧ BoundedIndexGenerator.remaining 4 (BoundedIndexGenerator.move g) = [0; 1; 2].
Proof. repeat split. Qed.

(** Whatever the original, its copy is at its end. *)
Lemma copy_is_at_end (g : BoundedIndexGenerator.t) (fuel : nat) :
  BoundedIndexGenerator.end_ (BoundedIndexGenerator.copy g) = true
  ∧ BoundedIndexGenerator.remaining fuel (BoundedIndexGenerator.copy g) = [].
Proof.
  unfold BoundedIndexGenerator.end_, BoundedIndexGenerator.copy. simpl.
  rewrite Nat.eqb_refl. destruct fuel; simpl; [done |].
  unfold BoundedIndexGenerator.end_. simpl. by rewrite Nat.eqb_refl.
Qed.

(** ** clear *)

(** C9. [clear(d, dp)] on a pair inside the tables succeeds; it sets the
    dirty flag of (d, dp), empties the stored relation (d, dp), and leaves
    every other flag and relation, the counts per dimension and per geometric
    type, the index maps and the geometry lists as they were. *)
Theorem clear_touches_one_pair (d dp : nat) (c : Connectivity)
    (r : list (list nat)) (b : bool) :
  at2 (m_connectivity c) d dp = Ok r →
  at2 (m_dirty c) d dp = Ok b →
  ∃ c', clear d dp c = Ok c'
    ∧ at2 (m_dirty c') d dp = Ok true
    ∧ at2 (m_connectivity c') d dp = Ok []
    ∧ (∀ x y, (x, y) ≠ (d, dp) →
         at2 (m_dirty c') x y = at2 (m_dirty c) x y
         ∧ at2 (m_connectivity c') x y = at2 (m_connectivity c) x y)
    ∧ m_count c' = m_count c
    ∧ m_gcount c' = m_gcount c
    ∧ m_index c' = m_index c
    ∧ m_geometry c' = m_geometry c
    ∧ m_maximalDimension c' = m_maximalDimension c.
Proof.
  intros Hr Hb.
  destruct (put2_total _ _ _ _ true Hb) as [dirty' Hd].
  destruct (put2_total _ _ _ _ [] Hr) as [conn' Hc].
  exists (with_connectivity conn' (with_dirty dirty' c)).
  split_and!; try reflexivity.
  - unfold clear, mark. apply at2_Ok in Hr as (row & Hrow & Hcell).
    rewrite (assert_true (d <? _)); simpl.
    2:{ apply Nat.ltb_lt. by eapply lookup_lt_Some. }
    assert (at_ (m_connectivity c) d = Ok row) as -> by (by apply at_Ok).
    simpl. rewrite (assert_true (dp <? _)); simpl.
    2:{ apply Nat.ltb_lt. by eapply lookup_lt_Some. }
    rewrite Hd. simpl. rewrite Hc. reflexivity.
  - simpl. by eapply at2_put2_eq.
  - simpl. by eapply at2_put2_eq.
  - intros x y Hne. simpl. split; by eapply at2_put2_ne.
Qed.

Lemma clear_touches_one_pair_witness :
  let c := two_triangles_state in
  ∃ c', clear 2 0 c = Ok c'
    ∧ at2 (m_dirty c') 2 0 = Ok true
    ∧ at2 (m_connectivity c') 2 0 = Ok []
    ∧ (∀ x y, (x, y) ≠ (2, 0) →
         at2 (m_dirty c') x y = at2 (m_dirty c) x y
         ∧ at2 (m_connectivity c') x y = at2 (m_connectivity c) x y)
    ∧ m_count c' = m_count c
    ∧ m_gcount c' = m_gcount c
    ∧ m_index c' = m_index c
    ∧ m_geometry c' = m_geometry c
    ∧ m_maximalDimension c' = m_maximalDimension c.
Proof.
  apply (clear_touches_one_pair 2 0 two_triangles_state
           [[0; 1; 2]; [1; 2; 3]] false); vm_compute; reflexivity.
Defined.

(** ** Keys *)

Lemma tuple_eqb_eq (a b : list nat) : tuple_eqb a b = true ↔ a = b.
Proof.
  revert b. induction a as [| x a IH]; intros [| y b]; simpl; try done.
  rewrite andb_true_iff, Nat.eqb_eq, IH. split.
  - intros [-> ->]. reflexivity.
  - intros [= -> ->]. auto.
Qed.

Lemma mem_In (x : nat) (a : list nat) : mem x a = true ↔ In x a.
Proof.
  unfold mem. rewrite existsb_exists. split.
  - intros (y & Hy & ->%Nat.eqb_eq). exact Hy.
  - intros H. exists x. split; [exact H | apply Nat.eqb_refl].
Qed.

Lemma set_eqb_equiv (a b : list nat) :
  set_eqb a b = true ↔ ∀ x, In x a ↔ In x b.
Proof.
  unfold set_eqb. rewrite andb_true_iff, !forallb_forall.
  setoid_rewrite mem_In. firstorder.
Qed.

Lemma key_eqb_refl (ke : KeyEquality) (a : list nat) : key_eqb ke a a = true.
Proof.
  destruct ke; simpl; [by apply tuple_eqb_eq | by apply set_eqb_equiv].
Qed.




(** Keys that are equal have the same vertices. *)
Lemma key_eqb_In (ke : KeyEquality) (a b : list nat) :
  key_eqb ke a b = true → ∀ x, In x a ↔ In x b.
Proof.
  destruct ke; simpl.
  - intros ->%tuple_eqb_eq. reflexivity.
  - apply set_eqb_equiv.
Qed.

(** ** The polytope index *)

Lemma find_app_None {A : Type} (f : A → bool) (l l' : list A) :
  find f l = None → find f (l ++ l') = find f l'.
Proof.
  induction l as [| x l IH]; simpl; [done |].
  destruct (f x); [discriminate | exact IH].
Qed.

Lemma find_app_Some {A : Type} (f : A → bool) (l l' : list A) (x : A) :
  find f l = Some x → find f (l ++ l') = Some x.
Proof.
  induction l as [| y l IH]; simpl; [discriminate |].
  destruct (f y); [done | exact IH].
Qed.


Lemma left_insert_found (ke : KeyEquality) (key : list nat) (id : nat)
    (ix : list (list nat * nat)) (e : list nat * nat) :
  left_find ke key ix = Some e → left_insert ke key id ix = (ix, e, false).
Proof. unfold left_insert. by intros ->. Qed.

Lemma left_find_inserted (ke : KeyEquality) (key : list nat) (id : nat)
    (ix : list (list nat * nat)) :
  left_find ke key ix = None →
  left_find ke key (ix ++ [(key, id)]) = Some (key, id).
Proof.
  intros H. unfold left_find in *. rewrite find_app_None by exact H.
  simpl. by rewrite key_eqb_refl.
Qed.

(** ** polytope *)

Lemma with_index_id (c : Connectivity) : with_index (m_index c) c = c.
Proof. by destruct c. Qed.

Lemma with_count_id (c : Connectivity) : with_count (m_count c) c = c.
Proof. by destruct c. Qed.

Lemma with_gcount_id (c : Connectivity) : with_gcount (m_gcount c) c = c.
Proof. by destruct c. Qed.

Lemma put_same {A : Type} (v : list A) (i : nat) (x : A) :
  v !! i = Some x → put v i x = Ok v.
Proof.
  intros H. apply put_Ok. split; [by eapply lookup_lt_Some |].
  symmetry. by apply list_insert_id.
Qed.

(** A declaration that does not enter the index leaves the engine alone. *)
Lemma polytope_not_inserted (ke : KeyEquality) (t : Polytope.Type_)
    (inp : list nat) (c : Connectivity) (ix : list (list nat * nat))
    (cnt : nat) (e : list nat * nat) :
  0 < length inp →
  0 < Polytope.getGeometryDimension t →
  Polytope.getGeometryDimension t ≤ m_maximalDimension c →
  m_index c !! Polytope.getGeometryDimension t = Some ix →
  m_count c !! Polytope.getGeometryDimension t = Some cnt →
  left_insert ke inp cnt ix = (ix, e, false) →
  polytope ke t inp c = Ok c.
Proof.
  intros H1 H2 H3 Hix Hcnt Hins. unfold polytope.
  rewrite (assert_true (0 <? length inp)) by (by apply Nat.ltb_lt). simpl.
  rewrite (assert_true (0 <? _)) by (by apply Nat.ltb_lt). simpl.
  rewrite (assert_true (_ <=? _)) by (by apply Nat.leb_le). simpl.
  apply at_Ok in Hix as Hix', Hcnt as Hcnt'. rewrite Hix', Hcnt'. simpl.
  rewrite Hins. destruct e as [key id'].
  rewrite (put_same _ _ _ Hix). simpl. by rewrite with_index_id.
Qed.

(** C8. Declaring a cell whose vertex tuple the index already holds is a
    no-op: the engine that [polytope] leaves behind is the engine it was
    given, with all counts, index maps, geometry lists, relations and dirty
    flags. In particular declaring the same tuple twice in a row changes
    nothing the second time. *)
Theorem polytope_redeclared_is_noop (ke : KeyEquality) (t : Polytope.Type_)
    (inp : list nat) (c : Connectivity) :
  (∀ id cnt,
     0 < length inp →
     0 < Polytope.getGeometryDimension t ≤ m_maximalDimension c →
     getIndex ke (Polytope.getGeometryDimension t) inp c = Ok (Some id) →
     getCount (Polytope.getGeometryDimension t) c = Ok cnt →
     polytope ke t inp c = Ok c)
  ∧ (∀ c1, polytope ke t inp c = Ok c1 → polytope ke t inp c1 = Ok c1).
Proof.
  split.
  - intros id cnt Hlen [Hd HM] Hget Hcnt. unfold getIndex in Hget.
    inv_bind Hget. apply at_Ok in E. apply at_Ok in Hcnt.
    destruct (left_find ke inp a) as [e |] eqn:Hfind; [| discriminate].
    eapply polytope_not_inserted; eauto using left_insert_found.
  - intros c1 H. pose proof H as H0. unfold polytope in H.
    inv_assert H. inv_assert H. inv_assert H. inv_bind H. inv_bind H.
    apply Nat.ltb_lt in E, E0. apply Nat.leb_le in E1.
    apply at_Ok in E2, E3.
    destruct (left_insert ke inp a0 a) as [[ix' [key id']] inserted] eqn:Hins.
    inv_bind H. apply put_Ok in E4 as [Hlt ->].
    destruct inserted.
    + (* the first declaration entered the index *)
      unfold left_insert in Hins.
      destruct (left_find ke inp a) eqn:Hfind; [by inversion Hins |].
      destruct (right_find a0 a) eqn:Hright; inversion Hins; subst; clear Hins.
      simpl in H. inv_bind H. inv_bind H. inv_bind H. inv_bind H. inv_bind H.
      inv_bind H. injection H as <-.
      match goal with
      | Hc : put (m_count _) _ _ = Ok _ |- _ => apply put_Ok in Hc as [Hlt' ->]
      end.
      eapply polytope_not_inserted; simpl; eauto.
      * by apply list_lookup_insert_eq.
      * by apply list_lookup_insert_eq.
      * apply left_insert_found. by apply left_find_inserted.
    + (* it did not: nothing changed, and nothing changes again *)
      assert (ix' = a) as ->.
      { unfold left_insert in Hins.
        destruct (left_find ke inp a); [by inversion Hins |].
        destruct (right_find a0 a); by inversion Hins. }
      injection H as <-. rewrite list_insert_id by done.
      rewrite with_index_id. rewrite list_insert_id, with_index_id in H0 by done.
      exact H0.
Qed.

Lemma polytope_redeclared_is_noop_witness :
  let c := two_triangles_state in
  polytope VertexSet Polytope.Triangle [1; 2; 3] c = Ok c
  ∧ ∀ c1, polytope VertexSet Polytope.Triangle [0; 2; 3] c = Ok c1 →
          polytope VertexSet Polytope.Triangle [0; 2; 3] c1 = Ok c1.
Proof.
  split.
  - apply (proj1 (polytope_redeclared_is_noop VertexSet Polytope.Triangle
                    [1; 2; 3] two_triangles_state) 1 2);
      [simpl; lia | simpl; lia | vm_compute; reflexivity
      | vm_compute; reflexivity].
  - apply (proj2 (polytope_redeclared_is_noop VertexSet Polytope.Triangle
                    [0; 2; 3] two_triangles_state)).
Defined.

(** ** initialize and nodes *)







(** What [initialize] leaves behind. *)
Lemma initialize_Ok (maximalDimension : nat) (c0 c1 : Connectivity) :
  initialize maximalDimension c0 = Ok c1 →
  let n := maximalDimension + 1 in
  c1 = mkConnectivity maximalDimension (resize n 0 (m_count c0)) (m_gcount c0)
         (replicate n []) (replicate n [])
         (replicate n (replicate n [])) (replicate n (replicate n true)).
Proof.
  unfold initialize. intros H.
  inv_assert H. inv_assert H. inv_assert H. inv_assert H.
  apply Nat.eqb_eq, nil_length_inv in E, E0, E1, E2.
  rewrite E, E0, E1, E2 in H. injection H as <-.
  simpl. by rewrite !resize_nil, !fmap_replicate, !resize_nil.
Qed.




(** ** The two triangles *)

(** C2. For the mesh of four vertices and the triangles T0 = (0, 1, 2) and
    T1 = (1, 2, 3), whichever way the index compares keys and for every
    fuel of at least two calls: the three queries succeed; T0 and T1 have
    identifiers 0 and 1; there are 2 cells, 5 edges and 4 vertices; T0 has
    exactly three edges, the edge (1, 2) among them; the edge (1, 2) lies
    on T0 and T1; and the cells next to T0 are T1 alone. *)
Theorem two_triangles_scenario (ke : KeyEquality) (k : nat) :
  ∃ c0 c,
    two_triangles ke = Ok c0
    ∧ (c <- compute ke (S (S k)) 2 1 c0 ;;
       c <- compute ke (S (S k)) 1 2 c ;;
       compute ke (S (S k)) 2 2 c) = Ok c
    ∧ getIndex ke 2 [0; 1; 2] c = Ok (Some 0)
    ∧ getIndex ke 2 [1; 2; 3] c = Ok (Some 1)
    ∧ getCount 2 c = Ok 2
    ∧ getCount 1 c = Ok 5
    ∧ getCount 0 c = Ok 4
    ∧ ∃ e12 s,
        getIndex ke 1 [1; 2] c = Ok (Some e12)
        ∧ getIncidenceOf (2, 1) 0 c = Ok s
        ∧ length s = 3
        ∧ In e12 s
        ∧ getIncidenceOf (1, 2) e12 c = Ok [0; 1]
        ∧ getIncidenceOf (2, 2) 0 c = Ok [1].
Proof.
  destruct ke.
  - do 2 eexists. split; [vm_compute; reflexivity |].
    split; [vm_compute; reflexivity |].
    split_and!; try (vm_compute; reflexivity).
    exists 1, [0; 1; 2]. split_and!; try (vm_compute; reflexivity).
    simpl. auto.
  - do 2 eexists. split; [vm_compute; reflexivity |].
    split; [vm_compute; reflexivity |].
    split_and!; try (vm_compute; reflexivity).
    exists 1, [0; 1; 2]. split_and!; try (vm_compute; reflexivity).
    simpl. auto.
Qed.

(** ** The pivot of compute *)

(** C1, as the code has it. When [compute(d, dp)] derives a dirty relation
    with [d >= dp] by intersection, the pivot is the mesh dimension [D] for
    the pair (0, 0) and dimension 0 for every other pair. *)
Theorem compute_pivot (ke : KeyEquality) (fuel d dp : nat) (c : Connectivity) :
  let D := getMeshDimension c in
  dp ≤ d →
  (d, dp) ≠ (D, 0) →
  (d = 0 →
   compute ke (S fuel) d dp c =
     (c <- prepare ke D 0 0 c ;;
      a <- at2 (m_dirty c) 0 0 ;;
      c <- (if a then
              c <- compute ke fuel 0 D c ;;
              c <- compute ke fuel D 0 c ;;
              intersection 0 0 D c
            else Ok c) ;;
      mark 0 0 false c))
  ∧ (d ≠ 0 →
     compute ke (S fuel) d dp c =
       (c <- prepare ke D d dp c ;;
        a <- at2 (m_dirty c) d dp ;;
        c <- (if a then
                c <- compute ke fuel d 0 c ;;
                c <- compute ke fuel 0 dp c ;;
                intersection d dp 0 c
              else Ok c) ;;
        mark d dp false c)).
Proof.
  intros D Hle Hne.
  assert ((d =? D) && (dp =? 0) = false) as Htop.
  { apply andb_false_iff.
    destruct (Nat.eqb_spec d D), (Nat.eqb_spec dp 0); auto. congruence. }
  assert ((d <? dp) = false) as Hlt by (apply Nat.ltb_ge; lia).
  split; intros Hd.
  - assert (dp = 0) as -> by lia. subst d. simpl. fold D.
    simpl in Htop. rewrite Htop. reflexivity.
  - simpl. fold D. rewrite Htop, Hlt. unfold pivot.
    destruct d; [done |]. reflexivity.
Qed.

Lemma compute_pivot_witness :
  let c := two_triangles_state in
  let D := getMeshDimension c in
  D = 2
  ∧ compute VertexSet 3 1 1 c =
      (c <- prepare VertexSet D 1 1 c ;;
       a <- at2 (m_dirty c) 1 1 ;;
       c <- (if a then
               c <- compute VertexSet 2 1 0 c ;;
               c <- compute VertexSet 2 0 1 c ;;
               intersection 1 1 0 c
             else Ok c) ;;
       mark 1 1 false c).
Proof.
  split; [vm_compute; reflexivity |].
  apply (compute_pivot VertexSet 2 1 1 two_triangles_state);
    [lia | vm_compute; discriminate | discriminate].
Defined.

(** C1, as the specification has it, fails: on the two triangles, whose
    mesh dimension is 2, the relation (1, 1) is derived through dimension 0. *)
Lemma pivot_is_not_always_top :
  two_triangles VertexSet = Ok two_triangles_state
  ∧ getMeshDimension two_triangles_state = 2
  ∧ ¬ (∀ d dp, dp ≤ d →
               pivot (getMeshDimension two_triangles_state) d dp
               = getMeshDimension two_triangles_state).
Proof.
  split; [vm_compute; reflexivity |]. split; [vm_compute; reflexivity |].
  intros H. specialize (H 1 1 (le_n 1)). vm_compute in H. discriminate H.
Qed.

(** ** A mesh without cells *)






(** ** One key comparison for every dimension *)

Lemma geometry_set_get (g : Polytope.Type_) (m : GeometryIndexed.t) :
  GeometryIndexed.set g (GeometryIndexed.get g m) m = m.
Proof. by destruct g, m. Qed.

Lemma add_bool_false (x : nat) : add_bool x false = x.
Proof. unfold add_bool. lia. Qed.

(** A sub-polytope whose key the index of dimension [d] holds enters
    nothing: [local] gets the stored identifier and the engine is as before. *)
Lemma local_insert_found (ke : KeyEquality) (d D : nat) (c : Connectivity)
    (s : list nat) (g : Polytope.Type_) (v : list nat)
    (ix : list (list nat * nat)) (cnt : nat) (e : list nat * nat) :
  m_index c !! d = Some ix →
  m_count c !! d = Some cnt →
  left_find ke v ix = Some e →
  local_insert ke d D (c, s) (g, v) = Ok (c, set_insert (snd e) s).
Proof.
  intros Hix Hcnt Hfind. unfold local_insert.
  apply at_Ok in Hix as Hix', Hcnt as Hcnt'. rewrite Hix', Hcnt'. cbn [bind].
  rewrite (left_insert_found _ _ _ _ _ Hfind). destruct e as [key id].
  rewrite (put_same _ _ _ Hix). cbn [bind].
  rewrite with_index_id. cbn [bind andb]. rewrite !add_bool_false.
  rewrite (put_same _ _ _ Hcnt). cbn [bind].
  by rewrite with_count_id, geometry_set_get, with_gcount_id.
Qed.




(** ** Loops *)

Lemma for_each_ind {S A : Type} (P : S → Prop) (body : S → A → result S)
    (xs : list A) (s s' : S) :
  (∀ s x s', In x xs → P s → body s x = Ok s' → P s') →
  P s → for_each body xs s = Ok s' → P s'.
Proof.
  revert s. induction xs as [| x xs IH]; intros s Hstep Hs H; simpl in H.
  - by injection H as <-.
  - inv_bind H. eapply IH; [| | exact H].
    + intros s0 y s1 Hy. apply Hstep. by right.
    + eapply Hstep; [by left | exact Hs | exact E].
Qed.

Lemma for_each_prefix {S A : Type} (I : list A → S → Prop)
    (body : S → A → result S) (xs : list A) (s s' : S) :
  (∀ pre x s s', I pre s → body s x = Ok s' → I (pre ++ [x]) s') →
  I [] s → for_each body xs s = Ok s' → I xs s'.
Proof.
  intros Hstep.
  assert (∀ pre s, I pre s → for_each body xs s = Ok s' → I (pre ++ xs) s')
    as Hgen.
  { induction xs as [| x xs IH]; intros pre s0 Hs H; simpl in H.
    - injection H as <-. by rewrite app_nil_r.
    - inv_bind H. rewrite cons_middle, app_assoc.
      eapply IH; [| exact H]. by eapply Hstep. }
  intros Hs H. by apply (Hgen [] s).
Qed.

Lemma for_each_seq {St : Type} (I : nat → St → Prop)
    (body : St → nat → result St) (start n : nat) (s s' : St) :
  (∀ k s s', start ≤ k < start + n → I k s → body s k = Ok s' → I (S k) s') →
  I start s → for_each body (seq start n) s = Ok s' → I (start + n) s'.
Proof.
  revert start s. induction n as [| n IH]; intros start s Hstep Hs H;
    simpl in H.
  - injection H as <-. by rewrite Nat.add_0_r.
  - inv_bind H. replace (start + S n) with (S start + n) by lia.
    eapply IH; [| | exact H].
    + intros k s0 s1 Hk. apply Hstep. lia.
    + eapply Hstep; [| exact Hs | exact E]. lia.
Qed.

(** ** Sets *)

Lemma In_set_insert (x j : nat) (s : list nat) :
  In x (set_insert j s) ↔ x = j ∨ In x s.
Proof.
  induction s as [| y s IH]; simpl.
  - intuition.
  - destruct (j <? y); [simpl; intuition |].
    destruct (Nat.eqb_spec j y) as [-> | Hne]; simpl.
    + intuition.
    + rewrite IH. intuition.
Qed.

Lemma In_insert_unique (x : nat) (xs s : list nat) :
  In x (insert_unique xs s) ↔ In x xs ∨ In x s.
Proof.
  unfold insert_unique. revert s.
  induction xs as [| y xs IH]; intros s; simpl.
  - intuition.
  - rewrite IH, In_set_insert. intuition.
Qed.

Lemma includes_subset (a b : list nat) : includes a b = true → subset b a.
Proof.
  revert b. induction a as [| x a IH]; intros b H.
  { destruct b; [intros z [] | discriminate]. }
  destruct b as [| y b]; [intros z [] |]. simpl in H.
  destruct (Nat.ltb_spec y x); [discriminate |].
  destruct (Nat.ltb_spec x y).
  - intros z Hz. right. by apply (IH _ H).
  - assert (x = y) as -> by lia. intros z [<- | Hz]; [by left |].
    right. by apply (IH _ H).
Qed.

Lemma incident_insert (r : list (list nat)) (i j : nat) (s : list nat)
    (i' j' : nat) :
  r !! i = Some s →
  incident (<[i := set_insert j s]> r) i' j'
  ↔ incident r i' j' ∨ (i' = i ∧ j' = j).
Proof.
  intros Hs. unfold incident.
  assert (i < length r) as Hlt by (by eapply lookup_lt_Some).
  destruct (decide (i' = i)) as [-> | Hne].
  - rewrite list_lookup_insert_eq by done. split.
    + intros (s' & [= <-] & [-> | Hin]%In_set_insert); eauto.
    + intros [(s' & Hs' & Hin) | [_ ->]].
      * rewrite Hs in Hs'. injection Hs' as <-.
        eexists. split; [done |]. apply In_set_insert. auto.
      * eexists. split; [done |]. apply In_set_insert. auto.
  - rewrite list_lookup_insert_ne by done. intuition.
Qed.

(** ** Frames *)

Lemma untouched_refl (c : Connectivity) (x y : nat) : untouched c c x y.
Proof. by split. Qed.

Lemma untouched_trans (c1 c2 c3 : Connectivity) (x y : nat) :
  untouched c1 c2 x y → untouched c2 c3 x y → untouched c1 c3 x y.
Proof. intros [H1 H2] [H3 H4]. split; congruence. Qed.

Lemma only_pair_refl (d dp : nat) (c : Connectivity) : only_pair d dp c c.
Proof. repeat split. Qed.

Lemma only_pair_trans (d dp : nat) (c1 c2 c3 : Connectivity) :
  only_pair d dp c1 c2 → only_pair d dp c2 c3 → only_pair d dp c1 c3.
Proof.
  intros (?&?&?&?&?&Hu1) (?&?&?&?&?&Hu2). split_and!; try congruence.
  intros x y Hne. eapply untouched_trans; eauto.
Qed.

Lemma only_pair_connectivity (d dp : nat) (c : Connectivity)
    (conn : list (list (list (list nat)))) (x : list (list nat)) :
  put2 (m_connectivity c) d dp x = Ok conn →
  only_pair d dp c (with_connectivity conn c).
Proof.
  intros H. split_and!; try reflexivity.
  intros x' y' Hne. split; simpl; [by eapply at2_put2_ne | reflexivity].
Qed.

Lemma only_pair_mark (d dp : nat) (b : bool) (c c' : Connectivity) :
  mark d dp b c = Ok c' →
  only_pair d dp c c' ∧ m_connectivity c' = m_connectivity c
  ∧ at2 (m_dirty c') d dp = Ok b.
Proof.
  unfold mark. intros H. inv_bind H. injection H as <-. split_and!.
  - split_and!; try reflexivity.
    intros x y Hne. split; simpl; [reflexivity | by eapply at2_put2_ne].
  - reflexivity.
  - simpl. by eapply at2_put2_eq.
Qed.

(** [m_connectivity[d][dp][i].insert(j)] on the stored relation. *)
Lemma incidence_insert_Ok (d dp i j : nat) (c c' : Connectivity) :
  incidence_insert d dp i j c = Ok c' →
  only_pair d dp c c'
  ∧ m_dirty c' = m_dirty c
  ∧ ∃ r s, at2 (m_connectivity c) d dp = Ok r
      ∧ r !! i = Some s
      ∧ at2 (m_connectivity c') d dp = Ok (<[i := set_insert j s]> r).
Proof.
  unfold incidence_insert. intros H.
  inv_bind H. inv_bind H. inv_bind H. inv_bind H. injection H as <-.
  apply at_Ok in E0. apply put_Ok in E1 as [_ ->]. split_and!.
  - by eapply only_pair_connectivity.
  - reflexivity.
  - eexists _, _. split_and!; [done | done |]. simpl. by eapply at2_put2_eq.
Qed.

Lemma incidence_resize_Ok (d dp : nat) (c c' : Connectivity) :
  incidence_resize d dp c = Ok c' →
  only_pair d dp c c'
  ∧ m_dirty c' = m_dirty c
  ∧ ∃ r n, at2 (m_connectivity c) d dp = Ok r
      ∧ m_count c !! d = Some n
      ∧ at2 (m_connectivity c') d dp = Ok (resize n [] r).
Proof.
  unfold incidence_resize. intros H.
  inv_bind H. inv_bind H. inv_bind H. injection H as <-.
  apply at_Ok in E0. split_and!.
  - by eapply only_pair_connectivity.
  - reflexivity.
  - eexists _, _. split_and!; [done | done |]. simpl. by eapply at2_put2_eq.
Qed.

Lemma related_at2 (c : Connectivity) (d dp i j : nat) (r : list (list nat)) :
  at2 (m_connectivity c) d dp = Ok r → related c d dp i j ↔ incident r i j.
Proof.
  intros Hr. unfold related. split.
  - intros (r' & Hr' & H). congruence.
  - eauto.
Qed.

Lemma related_untouched (c c' : Connectivity) (d dp i j : nat) :
  untouched c c' d dp → related c' d dp i j ↔ related c d dp i j.
Proof. intros [H _]. unfold related. by rewrite H. Qed.

Lemma incident_resize (r : list (list nat)) (n i j : nat) :
  incident (resize n [] r) i j → incident r i j.
Proof.
  intros (s & Hs & Hin). destruct (decide (i < n)) as [Hi | Hi].
  - destruct (decide (i < length r)) as [Hl | Hl].
    + rewrite lookup_resize in Hs by done. by exists s.
    + rewrite lookup_resize_new in Hs by lia. injection Hs as <-. destruct Hin.
  - rewrite lookup_resize_old in Hs by lia. discriminate.
Qed.

(** ** transpose *)

(** [transpose(d, dp)] touches nothing but the pair (d, dp); on an entry
    without incidences it stores the inverse of the relation (dp, d),
    restricted to the [m_count[dp]] entities of dimension [dp]. *)
Lemma transpose_Ok (d dp : nat) (c c' : Connectivity) :
  transpose d dp c = Ok c' →
  d < dp
  ∧ only_pair d dp c c'
  ∧ at2 (m_dirty c') d dp = Ok false
  ∧ ((∀ i j, ¬ related c d dp i j) →
     ∃ n, m_count c !! dp = Some n
       ∧ ∀ i j, related c' d dp i j ↔ j < n ∧ related c dp d j i).
Proof.
  unfold transpose. intros H.
  check H as Hlt. apply Nat.ltb_lt in Hlt. check H as Hb1.
  step H as row Hrow. check H as Hb2. step H as c1 Hresize.
  step H as n Hn. step H as c2 Hloop. apply at_Ok in Hn.
  apply incidence_resize_Ok in Hresize
    as (Hop1 & Hd1 & r & nd & Hr & Hnd & Hr1).
  assert (m_count c1 = m_count c) as Hcnt by apply Hop1.
  rewrite Hcnt in Hn.
  set (I := λ (k : nat) (c2 : Connectivity),
         only_pair d dp c1 c2
         ∧ ((∀ i j, ¬ related c d dp i j) →
            ∀ i j, related c2 d dp i j ↔ j < k ∧ related c1 dp d j i)).
  assert (I (0 + n) c2) as [Hop2 Hrel].
  { eapply (for_each_seq I); [| | exact Hloop].
    - clear Hrow. intros k c3 c4 Hk [Hop3 Hrel3] Hrow.
      unfold transpose_row in Hrow.
      step Hrow as rt Hrt3. step Hrow as is_ His.
      apply at_Ok in His.
      assert (at2 (m_connectivity c1) dp d = Ok rt) as Hrt.
      { rewrite <- Hrt3. symmetry. apply Hop3. intros [= ? ?]. lia. }
      set (J := λ (pre : list nat) (cx : Connectivity),
             only_pair d dp c1 cx
             ∧ ((∀ i j, ¬ related c d dp i j) →
                ∀ i j, related cx d dp i j
                       ↔ (j < k ∧ related c1 dp d j i) ∨ (j = k ∧ In i pre))).
      assert (J is_ c4) as [Hop4 Hrel4].
      { eapply (for_each_prefix J); [| | exact Hrow].
        - intros pre i c5 c6 [Hop5 Hrel5] Hins.
          apply incidence_insert_Ok in Hins
            as (Hop6 & _ & r5 & s & Hr5 & Hs & Hr6).
          split; [by eapply only_pair_trans |].
          intros Hempty i' j'. rewrite (related_at2 _ _ _ _ _ _ Hr6).
          rewrite (incident_insert _ _ _ _ _ _ Hs).
          rewrite <- (related_at2 _ _ _ _ _ _ Hr5), (Hrel5 Hempty), in_app_iff.
          simpl. intuition.
        - split; [exact Hop3 |]. intros Hempty i j.
          rewrite (Hrel3 Hempty). simpl. intuition. }
      split; [exact Hop4 |]. intros Hempty i j. rewrite (Hrel4 Hempty).
      rewrite (related_at2 _ _ _ _ _ _ Hrt). unfold incident.
      split.
      + intros [[Hj Hin] | [-> Hin]]; [split; [lia | done] |].
        split; [lia |]. eauto.
      + intros [Hj (s & Hs & Hin)].
        destruct (decide (j = k)) as [-> | Hne]; [| left; split; [lia | eauto]].
        right. split; [done |]. congruence.
    - split; [apply only_pair_refl |]. intros Hempty i j. split; [| lia].
      intros Hij%(related_at2 _ _ _ _ _ _ Hr1)%incident_resize.
      exfalso. eapply Hempty. by eapply related_at2. }
  apply only_pair_mark in H as (Hop3 & Hconn & Hflag).
  assert (only_pair d dp c c2) as Hop by (by eapply only_pair_trans).
  split_and!; [done | by eapply only_pair_trans | done |].
  intros Hempty. exists n. split; [done |]. intros i j.
  unfold related at 1. rewrite Hconn. fold (related c2 d dp i j).
  rewrite (Hrel Hempty). simpl.
  rewrite (related_untouched c c1 dp d); [done |].
  apply Hop1. intros [= ? ?]. lia.
Qed.

(** ** intersection *)

(** [intersection(d, dp, dpp)] touches nothing but the pair (d, dp); for
    [0 < dp < d] and an entry without incidences, whatever it stores has
    passed the test [std::includes] on the (.,0) entries. *)
Lemma intersection_Ok (d dp dpp : nat) (c c' : Connectivity) :
  intersection d dp dpp c = Ok c' →
  dp ≤ d
  ∧ only_pair d dp c c'
  ∧ at2 (m_dirty c') d dp = Ok false
  ∧ (0 < dp < d →
     (∀ i j, ¬ related c d dp i j) →
     ∀ i j, related c' d dp i j →
            ∃ vi vj, vertices c' d i vi ∧ vertices c' dp j vj ∧ subset vj vi).
Proof.
  unfold intersection. intros H.
  check H as Hle. apply Nat.leb_le in Hle. step H as c1 Hresize.
  step H as n Hn. step H as c2 Hloop.
  apply incidence_resize_Ok in Hresize
    as (Hop1 & Hd1 & r & nd & Hr & Hnd & Hr1).
  set (Q := λ (c0 : Connectivity) (i j : nat),
         ∃ vi vj, vertices c0 d i vi ∧ vertices c0 dp j vj ∧ subset vj vi).
  set (P := λ c2 : Connectivity,
         only_pair d dp c1 c2
         ∧ (0 < dp < d → (∀ i j, ¬ related c d dp i j) →
            ∀ i j, related c2 d dp i j → Q c1 i j)).
  assert (P c2) as [Hop2 Hrel].
  { eapply (for_each_ind P); [| | exact Hloop].
    - intros c3 i c4 _ HP3 Hrow. unfold intersection_row in Hrow.
      step Hrow as rel Hrel. check Hrow as Hb. step Hrow as ks Hks.
      eapply (for_each_ind P); [| exact HP3 | exact Hrow].
      intros c5 k c6 _ HP5 Hthrough. unfold intersection_through in Hthrough.
      step Hthrough as rel' Hrel'. check Hthrough as Hb'.
      step Hthrough as js Hjs.
      eapply (for_each_ind P); [| exact HP5 | exact Hthrough].
      intros c7 j c8 _ [Hop7 HP7] Hvisit. unfold intersection_visit in Hvisit.
      step Hvisit as rd0 Hrd0. check Hvisit as Hb1.
      step Hvisit as rdp0 Hrdp0. check Hvisit as Hb2.
      step Hvisit as d0i Hd0i. step Hvisit as d0j Hd0j.
      apply at_Ok in Hd0i, Hd0j.
      destruct ((d =? dp) && negb (i =? j) || (dp <? d) && includes d0i d0j)
        eqn:Htest.
      + apply incidence_insert_Ok in Hvisit
          as (Hop8 & _ & r7 & s & Hr7 & Hs & Hr8).
        split; [by eapply only_pair_trans |].
        intros Hd Hempty i' j'. rewrite (related_at2 _ _ _ _ _ _ Hr8).
        rewrite (incident_insert _ _ _ _ _ _ Hs).
        rewrite <- (related_at2 _ _ _ _ _ _ Hr7).
        intros [Hold | [-> ->]]; [by apply HP7 |].
        destruct (Nat.eqb_spec d dp) as [? | _]; [lia |].
        simpl in Htest. apply andb_true_iff in Htest as [_ Hinc].
        exists d0i, d0j. split_and!.
        * exists rd0. split; [| done]. rewrite <- Hrd0. symmetry.
          apply Hop7. intros [= ?]. lia.
        * exists rdp0. split; [| done]. rewrite <- Hrdp0. symmetry.
          apply Hop7. intros [= ? ?]. lia.
        * by apply includes_subset.
      + injection Hvisit as <-. by split.
    - split; [apply only_pair_refl |]. intros _ Hempty i j.
      intros Hij%(related_at2 _ _ _ _ _ _ Hr1)%incident_resize.
      exfalso. eapply Hempty. by eapply related_at2. }
  apply only_pair_mark in H as (Hop3 & Hconn & Hflag).
  assert (only_pair d dp c c') as Hop
    by (eapply only_pair_trans; [| exact Hop3]; by eapply only_pair_trans).
  split_and!; [done | done | done |].
  intros Hd Hempty i j Hij.
  assert (related c2 d dp i j) as Hij2.
  { unfold related in *. by rewrite <- Hconn. }
  destruct (Hrel Hd Hempty i j Hij2) as (vi & vj & Hvi & Hvj & Hsub).
  assert (only_pair d dp c1 c') as Hop13 by (by eapply only_pair_trans).
  exists vi, vj. split_and!; [| | done].
  - destruct Hvi as (r0 & Hr0 & Hi). exists r0. split; [| done].
    rewrite <- Hr0. apply Hop13. intros [= ?]. lia.
  - destruct Hvj as (r0 & Hr0 & Hj). exists r0. split; [| done].
    rewrite <- Hr0. apply Hop13. intros [= ? ?]. lia.
Qed.

(** ** The mesh dimension *)

Lemma agree_except_refl {A : Type} (d : nat) (l : list A) : agree_except d l l.
Proof. by split. Qed.

Lemma agree_except_trans {A : Type} (d : nat) (l1 l2 l3 : list A) :
  agree_except d l1 l2 → agree_except d l2 l3 → agree_except d l1 l3.
Proof.
  intros [H1 H2] [H3 H4]. split; [congruence |].
  intros x Hx. rewrite H4, H2; done.
Qed.

Lemma agree_except_insert {A : Type} (d : nat) (l : list A) (v : A) :
  agree_except d l (<[d := v]> l).
Proof.
  split; [apply length_insert |].
  intros x Hx. by apply list_lookup_insert_ne.
Qed.

Lemma highest_populated_le (n : nat) (l : list nat) :
  highest_populated n l ≤ pred n.
Proof.
  induction n as [| n IH]; simpl; [lia |].
  destruct (l !! n) as [m |]; [destruct (0 <? m) |]; lia.
Qed.

Lemma highest_populated_agree (d n : nat) (l l' : list nat) :
  (∀ x, x ≠ d → l' !! x = l !! x) →
  d < highest_populated n l →
  highest_populated n l' = highest_populated n l.
Proof.
  intros Hagree. induction n as [| n IH]; simpl; [lia |].
  intros Hd.
  assert (d ≠ n) as Hne.
  { intros ->. pose proof (highest_populated_le n l).
    destruct (l !! n) as [m |]; [destruct (0 <? m) |]; lia. }
  rewrite (Hagree n) by done.
  destruct (l !! n) as [m |]; [destruct (0 <? m) |]; auto.
Qed.

(** Writing counts below the mesh dimension leaves the mesh dimension. *)
Lemma getMeshDimension_agree (d : nat) (c c' : Connectivity) :
  agree_except d (m_count c) (m_count c') →
  d < getMeshDimension c →
  getMeshDimension c' = getMeshDimension c.
Proof.
  intros [Hlen Hagree] Hd. unfold getMeshDimension in *. rewrite Hlen.
  by eapply highest_populated_agree.
Qed.

Lemma getMeshDimension_count (c c' : Connectivity) :
  m_count c' = m_count c → getMeshDimension c' = getMeshDimension c.
Proof. unfold getMeshDimension. by intros ->. Qed.

(** ** local and build *)

Lemma grown_refl (d D : nat) (c : Connectivity) : grown d D c c.
Proof.
  split_and!; try apply agree_except_refl; done.
Qed.

Lemma grown_trans (d D : nat) (c1 c2 c3 : Connectivity) :
  grown d D c1 c2 → grown d D c2 c3 → grown d D c1 c3.
Proof.
  intros (?&?&?&?&Hu1) (?&?&?&?&Hu2).
  split_and!; try (eapply agree_except_trans; eassumption); [congruence |].
  intros x y Hx Hy. eapply untouched_trans; eauto.
Qed.

Lemma only_pair_grown_r (d D : nat) (c c' : Connectivity) :
  only_pair D d c c' → grown d D c c'.
Proof.
  intros (HM & Hc & _ & Hi & Hg & Hu).
  split_and!; [done | | | | by auto]; rewrite ?Hc, ?Hi, ?Hg;
    apply agree_except_refl.
Qed.

Lemma only_pair_grown_l (d D : nat) (c c' : Connectivity) :
  only_pair d 0 c c' → grown d D c c'.
Proof.
  intros (HM & Hc & _ & Hi & Hg & Hu).
  split_and!; [done | | | | by auto]; rewrite ?Hc, ?Hi, ?Hg;
    apply agree_except_refl.
Qed.

Lemma grown_getMeshDimension (d D : nat) (c c' : Connectivity) :
  grown d D c c' → d < getMeshDimension c →
  getMeshDimension c' = getMeshDimension c.
Proof. intros (_ & Hc & _). by apply getMeshDimension_agree. Qed.

(** One round of the loop of [local] writes the tables of dimension [d]
    and the relation (d, 0), and no dirty flag. *)
Lemma local_insert_grown (ke : KeyEquality) (d D D' : nat)
    (c c' : Connectivity) (s s' : list nat) (sp : Polytope.Type_ * list nat) :
  local_insert ke d D (c, s) sp = Ok (c', s') →
  grown d D' c c' ∧ m_dirty c' = m_dirty c.
Proof.
  unfold local_insert. destruct sp as [geometry v]. intros H.
  step H as ix Hix. step H as cnt Hcnt.
  destruct (left_insert ke v cnt ix) as [[ix' [key idx]] inserted].
  step H as index' Hindex. apply put_Ok in Hindex as [_ ->].
  step H as c1 Hc1. step H as count' Hcount.
  apply put_Ok in Hcount as [_ ->]. injection H as <- <-.
  assert (grown d D' c c1 ∧ m_dirty c1 = m_dirty c) as [Hg1 Hd1].
  { destruct inserted.
    - step Hc1 as geo Hgeo. step Hc1 as geometry' Hgeometry.
      apply put_Ok in Hgeometry as [_ ->].
      step Hc1 as inc Hinc. step Hc1 as conn Hconn. injection Hc1 as <-.
      split; [| reflexivity].
      split_and!; simpl; try apply agree_except_insert; try done.
      intros x y Hx _. split; simpl; [by eapply at2_put2_ne | done].
    - injection Hc1 as <-. split; [| reflexivity].
      split_and!; simpl; try apply agree_except_insert;
        try apply agree_except_refl; try done. }
  split; [| exact Hd1].
  eapply grown_trans; [exact Hg1 |].
  split_and!; simpl; try apply agree_except_insert;
    try apply agree_except_refl; try done.
Qed.

Lemma local_grown (ke : KeyEquality) (i d : nat) (c c' : Connectivity) :
  local ke i d c = Ok c' →
  0 < d < getMeshDimension c
  ∧ grown d (getMeshDimension c) c c'
  ∧ m_dirty c' = m_dirty c.
Proof.
  unfold local. intros H. set (D := getMeshDimension c) in *.
  check H as H0. check H as HD. apply Nat.ltb_lt in H0, HD.
  step H as subpolytopes Hsubs. step H as acc Hloop.
  destruct acc as [c1 s]. step H as inc Hinc. step H as conn Hconn.
  injection H as <-.
  assert (grown d D c c1 ∧ m_dirty c1 = m_dirty c) as [Hg1 Hd1].
  { set (P := λ acc : Connectivity * list nat,
           grown d D c (fst acc) ∧ m_dirty (fst acc) = m_dirty c).
    change (P (c1, s)).
    eapply (for_each_ind P); [| | exact Hloop].
    - intros [c2 s2] sp [c3 s3] _ [Hg2 Hd2] Hstep. unfold P. simpl in *.
      apply (local_insert_grown ke d D D) in Hstep as [Hg3 Hd3].
      split; [by eapply grown_trans | congruence].
    - split; [apply grown_refl | reflexivity]. }
  split_and!; [lia | lia | | exact Hd1].
  eapply grown_trans; [exact Hg1 |].
  apply only_pair_grown_r. by eapply only_pair_connectivity.
Qed.

(** [build(d)] writes the tables of dimension [d] and the pairs (d, 0) and
    (D, d), marks both pairs clean, and leaves the mesh dimension. *)
Lemma build_Ok (ke : KeyEquality) (d : nat) (c c' : Connectivity) :
  build ke d c = Ok c' →
  0 < d < getMeshDimension c
  ∧ grown d (getMeshDimension c) c c'
  ∧ getMeshDimension c' = getMeshDimension c
  ∧ at2 (m_dirty c') (getMeshDimension c) d = Ok false
  ∧ at2 (m_dirty c') d 0 = Ok false.
Proof.
  unfold build. intros H. set (D := getMeshDimension c) in *.
  check H as H0. check H as HD. apply Nat.ltb_lt in H0, HD.
  step H as u1 Hc1. step H as u2 Hc2. step H as n Hn.
  step H as c1 Hloop. step H as c2 Hmark.
  assert (grown d D c c1 ∧ getMeshDimension c1 = D) as [Hg1 HD1].
  { set (P := λ c1 : Connectivity, grown d D c c1 ∧ getMeshDimension c1 = D).
    eapply (for_each_ind P); [| | exact Hloop].
    - intros c3 i c4 _ [Hg3 HD3] Hstep.
      apply local_grown in Hstep as (Hd4 & Hg4 & _). rewrite HD3 in Hg4.
      split; [by eapply grown_trans |].
      rewrite <- HD3. eapply grown_getMeshDimension; [exact Hg4 | lia].
    - split; [apply grown_refl | reflexivity]. }
  apply only_pair_mark in Hmark as (Hop2 & Hconn2 & Hflag2).
  apply only_pair_mark in H as (Hop3 & Hconn3 & Hflag3).
  assert (grown d D c c') as Hg.
  { eapply grown_trans; [exact Hg1 |].
    eapply grown_trans; [by apply only_pair_grown_r |].
    by apply only_pair_grown_l. }
  split_and!; [lia | lia | exact Hg | | | exact Hflag3].
  - eapply grown_getMeshDimension; [exact Hg | fold D; lia].
  - rewrite <- Hflag2. apply Hop3. intros [= ? ?]. lia.
Qed.

(** ** compute: what it leaves alone *)

Lemma only_pair_count (d dp : nat) (c c' : Connectivity) :
  only_pair d dp c c' → getMeshDimension c' = getMeshDimension c.
Proof. intros (_ & Hc & _). by apply getMeshDimension_count. Qed.

Lemma only_pair_untouched (d dp x y : nat) (c c' : Connectivity) :
  only_pair d dp c c' → (x, y) ≠ (d, dp) → untouched c c' x y.
Proof. intros (_ & _ & _ & _ & _ & Hu). apply Hu. Qed.

Lemma needs_build_true (D d : nat) (c : Connectivity) :
  needs_build D d c = Ok true → d ≠ D ∧ d ≠ 0.
Proof.
  unfold needs_build.
  destruct (Nat.eqb_spec d D), (Nat.eqb_spec d 0); simpl; try discriminate.
  auto.
Qed.

(** The first statement of [compute]: the relations (0, D) and (D, D). *)
Lemma prepare_top (D : nat) (a : bool) (c c1 : Connectivity) :
  (if a then c <- transpose 0 D c ;; intersection D D 0 c else Ok c) = Ok c1 →
  getMeshDimension c1 = getMeshDimension c
  ∧ ∀ x y, (x, y) ≠ (0, D) → (x, y) ≠ (D, D) → untouched c c1 x y.
Proof.
  destruct a; intros H.
  - step H as ct Ht. apply transpose_Ok in Ht as (_ & Hop1 & _).
    apply intersection_Ok in H as (_ & Hop2 & _). split.
    + rewrite (only_pair_count _ _ _ _ Hop2). by eapply only_pair_count.
    + intros x y H1 H2. eapply untouched_trans;
        by eapply only_pair_untouched.
  - injection H as <-. split; [done |]. intros. apply untouched_refl.
Qed.

(** A conditional [build(d)] under the mesh dimension [D]. *)
Lemma prepare_build (ke : KeyEquality) (b : bool) (d : nat)
    (c c1 : Connectivity) :
  (if b then build ke d c else Ok c) = Ok c1 →
  let D := getMeshDimension c in
  getMeshDimension c1 = D
  ∧ (∀ x y, ¬ (0 < d < D ∧ ((x, y) = (d, 0) ∨ (x, y) = (D, d))) →
            untouched c c1 x y)
  ∧ ∀ x, at2 (m_dirty c) x 0 = Ok false → at2 (m_dirty c1) x 0 = Ok false.
Proof.
  intros H D. destruct b.
  - apply build_Ok in H as (Hd & Hg & HD & Hf1 & Hf2). fold D in Hd, Hg, HD.
    split_and!; [done | |].
    + intros x y Hxy. apply Hg; intros E; apply Hxy; auto.
    + intros x Hx. destruct (decide (x = d)) as [-> | Hne]; [done |].
      rewrite <- Hx. apply Hg; ne_pair.
  - injection H as <-. split_and!; [done | |]; auto using untouched_refl.
Qed.

(** The statements of [compute(d, dp)] ahead of its derivation keep the mesh
    dimension, write prepared pairs only, and leave (d, 0) and (dp, 0)
    clean unless the dimension is 0 or [D]. *)
Lemma prepare_Ok (ke : KeyEquality) (d dp : nat) (c c1 : Connectivity) :
  prepare ke (getMeshDimension c) d dp c = Ok c1 →
  let D := getMeshDimension c in
  getMeshDimension c1 = D
  ∧ (∀ x y, ¬ prepared D d dp x y → untouched c c1 x y)
  ∧ (d ≠ D → d ≠ 0 → at2 (m_dirty c1) d 0 = Ok false)
  ∧ (dp ≠ D → dp ≠ 0 → at2 (m_dirty c1) dp 0 = Ok false).
Proof.
  intros H D. unfold prepare in H. fold D in H.
  step H as a Ha. step H as ca Htop. step H as u1 Hu1.
  step H as b Hb. step H as cb Hbuild. step H as u2 Hu2.
  step H as a1 Ha1. check H as Hclean1.
  step H as b' Hb'. step H as cc Hbuild'. step H as u3 Hu3.
  step H as a2 Ha2. check H as Hclean2. injection H as <-.
  apply prepare_top in Htop as [HDa Hua]. fold D in HDa.
  apply prepare_build in Hbuild as (HDb & Hub & _). rewrite HDa in HDb, Hub.
  apply prepare_build in Hbuild' as (HDc & Huc & Hzero).
  rewrite HDb in HDc, Huc.
  split_and!.
  - exact HDc.
  - intros x y Hxy. unfold prepared in Hxy.
    eapply untouched_trans; [eapply untouched_trans |].
    + apply Hua; intros E; apply Hxy; auto.
    + apply Hub. intros ?. apply Hxy. auto.
    + apply Huc. intros ?. apply Hxy. auto.
  - intros H1 H2. apply Hzero.
    destruct a1; [| done]. simpl in Hclean1.
    destruct (Nat.eqb_spec d D), (Nat.eqb_spec d 0); done.
  - intros H1 H2. destruct a2; [| done]. simpl in Hclean2.
    destruct (Nat.eqb_spec dp D), (Nat.eqb_spec dp 0); done.
Qed.

(** [compute(a, b)] keeps the mesh dimension. Above the diagonal and off
    the row of the vertices it writes the pair (a, b) at most; below the
    diagonal, off the column of the vertices and the row of the cells, it
    writes the pairs (a, b) and (b, a) at most. *)
Lemma compute_frame (ke : KeyEquality) (fuel a b : nat) (c c' : Connectivity) :
  compute ke fuel a b c = Ok c' →
  getMeshDimension c' = getMeshDimension c
  ∧ (∀ x y, 0 < x < y → (x, y) ≠ (a, b) → untouched c c' x y)
  ∧ (∀ x y, 0 < y < x → x ≠ getMeshDimension c →
            (x, y) ≠ (a, b) → (x, y) ≠ (b, a) → untouched c c' x y).
Proof.
  revert a b c c'. induction fuel as [| fuel IH]; intros a b c c' H;
    [discriminate |].
  simpl in H. set (D := getMeshDimension c) in *.
  destruct ((a =? D) && (b =? 0)).
  { injection H as <-. split_and!; auto using untouched_refl. }
  step H as c1 Hprep. step H as flag Hflag. step H as c2 Hderive.
  apply prepare_Ok in Hprep as (HD1 & Hu1 & _). fold D in HD1, Hu1.
  apply only_pair_mark in H as (Hop3 & _).
  assert (getMeshDimension c2 = D
          ∧ (∀ x y, 0 < x < y → (x, y) ≠ (a, b) → untouched c1 c2 x y)
          ∧ (∀ x y, 0 < y < x → x ≠ D → (x, y) ≠ (a, b) → (x, y) ≠ (b, a) →
                    untouched c1 c2 x y)) as (HD2 & Hup2 & Hlow2).
  { destruct flag; [| injection Hderive as <-;
                      split_and!; auto using untouched_refl].
    destruct (Nat.ltb_spec a b) as [Hab | Hab].
    - step Hderive as ct Hrec. apply IH in Hrec as (HDt & Hupt & Hlowt).
      apply transpose_Ok in Hderive as (_ & Hop & _).
      rewrite HD1 in HDt, Hlowt. split_and!.
      + rewrite (only_pair_count _ _ _ _ Hop). exact HDt.
      + intros x y Hxy Hne. eapply untouched_trans.
        * apply Hupt; [done |]. intros [= -> ->]. lia.
        * by eapply only_pair_untouched.
      + intros x y Hxy HxD Hne1 Hne2. eapply untouched_trans.
        * by apply Hlowt.
        * by eapply only_pair_untouched.
    - step Hderive as ct Hrec1. step Hderive as cu Hrec2.
      apply IH in Hrec1 as (HDt & Hupt & Hlowt).
      apply IH in Hrec2 as (HDu & Hupu & Hlowu).
      apply intersection_Ok in Hderive as (_ & Hop & _).
      rewrite HD1 in HDt, Hlowt. rewrite HDt in HDu, Hlowu.
      assert (pivot D a b = 0 ∨ (pivot D a b = D ∧ a = 0 ∧ b = 0)) as Hp.
      { unfold pivot. destruct (Nat.eqb_spec a 0), (Nat.eqb_spec b 0);
          simpl; auto. }
      split_and!.
      + rewrite (only_pair_count _ _ _ _ Hop). exact HDu.
      + intros x y Hxy Hne.
        eapply untouched_trans; [eapply untouched_trans |].
        * apply Hupt; [done |]. intros [= -> Hy].
          destruct Hp as [Hp | (Hp & -> & ->)]; lia.
        * apply Hupu; [done |]. intros [= Hx ->].
          destruct Hp as [Hp | (Hp & -> & ->)]; lia.
        * by eapply only_pair_untouched.
      + intros x y Hxy HxD Hne1 Hne2.
        eapply untouched_trans; [eapply untouched_trans |].
        * apply Hlowt; [done | done | |].
          -- intros [= -> Hy]. destruct Hp as [Hp | (Hp & -> & ->)]; lia.
          -- intros [= Hx ->]. destruct Hp as [Hp | (Hp & -> & ->)]; lia.
        * apply Hlowu; [done | done | |].
          -- intros [= Hx ->]. destruct Hp as [Hp | (Hp & -> & ->)]; lia.
          -- intros [= -> Hy]. destruct Hp as [Hp | (Hp & -> & ->)]; lia.
        * by eapply only_pair_untouched. }
  assert (∀ x y, (0 < x < y ∨ (0 < y < x ∧ x ≠ D)) →
                 ¬ prepared D a b x y) as Hnp.
  { intros x y Hxy [[= -> ->] | [[= -> ->] | [[Ha [[= -> ->] | [= -> ->]]]
                                              | [Hb [[= -> ->] | [= -> ->]]]]]];
      lia. }
  split_and!.
  - rewrite (only_pair_count _ _ _ _ Hop3). exact HD2.
  - intros x y Hxy Hne.
    eapply untouched_trans; [eapply untouched_trans |].
    + apply Hu1, Hnp. auto.
    + by apply Hup2.
    + by eapply only_pair_untouched.
  - intros x y Hxy HxD Hne1 Hne2.
    eapply untouched_trans; [eapply untouched_trans |].
    + apply Hu1, Hnp. auto.
    + by apply Hlow2.
    + by eapply only_pair_untouched.
Qed.

(** [compute(a, 0)] does not write the pair (0, a). *)
Lemma compute_frame_vertices (ke : KeyEquality) (fuel a : nat)
    (c c' : Connectivity) :
  compute ke fuel a 0 c = Ok c' → 0 < a → untouched c c' 0 a.
Proof.
  destruct fuel as [| fuel]; [discriminate |]. intros H Ha.
  simpl in H. set (D := getMeshDimension c) in *.
  destruct (Nat.eqb_spec a D) as [HaD | HaD]; simpl in H.
  { injection H as <-. apply untouched_refl. }
  step H as c1 Hprep. step H as flag Hflag. step H as c2 Hderive.
  apply prepare_Ok in Hprep as (HD1 & Hu1 & Hclean & _).
  fold D in HD1, Hu1, Hclean.
  rewrite Hclean in Hflag by lia. injection Hflag as <-.
  injection Hderive as <-.
  apply only_pair_mark in H as (Hop & _).
  eapply untouched_trans.
  - apply Hu1. unfold prepared.
    intros [E | [E | [[? [E | E]] | [? [E | E]]]]]; inversion E; subst; lia.
  - eapply only_pair_untouched; [exact Hop |]. ne_pair.
Qed.

(** ** Transposition in compute *)

Lemma transposed_connectivity (c c' : Connectivity) (d dp : nat) :
  m_count c' = m_count c →
  at2 (m_connectivity c') d dp = at2 (m_connectivity c) d dp →
  at2 (m_connectivity c') dp d = at2 (m_connectivity c) dp d →
  transposed c d dp → transposed c' d dp.
Proof.
  intros Hc H1 H2 (n & Hn & Hrel). exists n. split.
  - unfold getCount in *. by rewrite Hc.
  - intros i j. unfold related in *. rewrite H1, H2. apply Hrel.
Qed.

Lemma transposed_only_pair (x y d dp : nat) (c c' : Connectivity) :
  only_pair x y c c' → (d, dp) ≠ (x, y) → (dp, d) ≠ (x, y) →
  transposed c d dp → transposed c' d dp.
Proof.
  intros Hop H1 H2. apply transposed_connectivity.
  - apply Hop.
  - by eapply only_pair_untouched.
  - by eapply only_pair_untouched.
Qed.

Lemma transposed_mark (x y d dp : nat) (b : bool) (c c' : Connectivity) :
  mark x y b c = Ok c' → transposed c d dp → transposed c' d dp.
Proof.
  intros (Hop & Hconn & _)%only_pair_mark. apply transposed_connectivity.
  - apply Hop.
  - by rewrite Hconn.
  - by rewrite Hconn.
Qed.

Lemma transpose_transposed (d dp : nat) (c c' : Connectivity) :
  transpose d dp c = Ok c' →
  (∀ i j, ¬ related c d dp i j) →
  transposed c' d dp ∧ at2 (m_dirty c') d dp = Ok false.
Proof.
  intros (Hlt & Hop & Hflag & Hspec)%transpose_Ok Hempty.
  destruct (Hspec Hempty) as (n & Hn & Hrel). split; [| exact Hflag].
  exists n. split.
  - unfold getCount. destruct Hop as (_ & -> & _). by apply at_Ok.
  - intros i j. rewrite Hrel.
    rewrite (related_untouched c c' dp d); [done |].
    eapply only_pair_untouched; [exact Hop |]. ne_pair.
Qed.

(** For [d < dp], when [compute(d, dp)] finds the pair (d, dp) dirty and
    without stored incidences and succeeds, the engine it leaves behind has
    the relation (d, dp) the inverse of the relation (dp, d): [j] is in the
    incidence set of [i] at (d, dp) if and only if [j] is one of the counted
    entities of dimension [dp] and [i] is in the incidence set of [j] at
    (dp, d). *)
Lemma compute_transposes (ke : KeyEquality) (fuel d dp : nat)
    (c c' : Connectivity) :
  d < dp →
  at2 (m_dirty c) d dp = Ok true →
  (∀ i j, ¬ related c d dp i j) →
  compute ke fuel d dp c = Ok c' →
  transposed c' d dp.
Proof.
  intros Hlt Hdirty Hempty H.
  destruct fuel as [| fuel]; [discriminate |].
  simpl in H. set (D := getMeshDimension c) in *.
  destruct (Nat.eqb_spec dp 0) as [? | _]; [lia |].
  rewrite andb_false_r in H.
  step H as c1 Hprep. step H as flag Hflag. step H as c2 Hderive.
  apply (transposed_mark _ _ _ _ _ _ _ H). clear H c'.
  destruct (decide ((d, dp) = (0, D))) as [[= -> HdpD] | Hne].
  - (* the pair (0, D): transposed by the first statement when (D, D) is
       dirty, by the derivation otherwise *)
    unfold prepare in Hprep. fold D in Hprep.
    step Hprep as a Ha. step Hprep as ca Htop. step Hprep as u1 Hu1.
    step Hprep as b Hb. step Hprep as cb Hbuild.
    step Hprep as u2 Hu2. step Hprep as a1 Ha1. check Hprep as Hclean1.
    step Hprep as b' Hb'. step Hprep as cc Hbuild'.
    step Hprep as u3 Hu3. step Hprep as a2 Ha2. check Hprep as Hclean2.
    injection Hprep as <-.
    assert (b = false) as ->.
    { unfold needs_build in Hb. simpl in Hb. rewrite andb_false_r in Hb.
      by injection Hb. }
    injection Hbuild as <-.
    assert (b' = false) as ->.
    { unfold needs_build in Hb'. rewrite HdpD, Nat.eqb_refl in Hb'.
      by injection Hb'. }
    injection Hbuild' as <-.
    destruct a.
    + step Htop as ct Ht.
      apply transpose_transposed in Ht as [Htr Hf]; [| by rewrite <- HdpD].
      apply intersection_Ok in Htop as (_ & Hop & _).
      assert (at2 (m_dirty ca) 0 D = Ok false) as Hf'.
      { rewrite <- Hf. eapply only_pair_untouched; [exact Hop |]. ne_pair. }
      rewrite HdpD in Hflag. rewrite Hf' in Hflag. injection Hflag as <-.
      injection Hderive as <-. rewrite HdpD.
      eapply transposed_only_pair; [exact Hop | ne_pair | ne_pair | exact Htr].
    + injection Htop as <-. rewrite Hdirty in Hflag. injection Hflag as <-.
      destruct (Nat.ltb_spec 0 dp); [| lia].
      step Hderive as ct Hrec.
      destruct fuel as [| fuel]; [discriminate |]. simpl in Hrec.
      fold D in Hrec. rewrite HdpD, Nat.eqb_refl in Hrec.
      injection Hrec as <-.
      by apply transpose_transposed in Hderive as [Htr _].
  - (* any other pair: the pair is not written before it is derived *)
    apply prepare_Ok in Hprep as (HD1 & Hu1 & _). fold D in HD1, Hu1.
    assert (untouched c c1 d dp) as [Hconn1 Hdirty1].
    { apply Hu1. unfold prepared.
      intros [E | [E | [[? [E | E]] | [? [E | E]]]]];
        inversion E; subst; try lia. done. }
    rewrite Hdirty1, Hdirty in Hflag. injection Hflag as <-.
    destruct (Nat.ltb_spec d dp); [| lia].
    step Hderive as ct Hrec.
    assert (untouched c1 ct d dp) as [Hconnt _].
    { destruct (decide (d = 0)) as [-> | Hd0].
      - by apply compute_frame_vertices in Hrec.
      - apply compute_frame in Hrec as (_ & Hup & _).
        apply Hup; [lia | ne_pair]. }
    apply transpose_transposed in Hderive as [Htr _]; [exact Htr |].
    intros i j. unfold related. rewrite Hconnt, Hconn1. apply Hempty.
Qed.

Lemma compute_transposes_example : transposed two_triangles_by_edge 1 2.
Proof.
  apply (compute_transposes VertexSet 3 1 2 two_triangles_state).
  - lia.
  - vm_compute. reflexivity.
  - intros i j (r & Hr & s & Hs & _). vm_compute in Hr.
    injection Hr as <-. discriminate Hs.
  - vm_compute. reflexivity.
Qed.


(** ** Sub-polytopes *)

Lemma pick_subset (p ks vs : list nat) : pick p ks = Ok vs → subset vs p.
Proof.
  revert vs. induction ks as [| k ks IH]; intros vs H; simpl in H.
  - injection H as <-. intros x [].
  - step H as v Hv. step H as vs' Hvs. injection H as <-.
    apply at_Ok in Hv. intros x [<- | Hx].
    + apply list_elem_of_In. by eapply list_elem_of_lookup_2.
    + by apply (IH _ Hvs).
Qed.

Lemma subs_subset (p : list nat) (table : list (Polytope.Type_ * list nat))
    (out : list (Polytope.Type_ * list nat)) :
  subs p table = Ok out → ∀ g v, In (g, v) out → subset v p.
Proof.
  revert out. induction table as [| [g ks] table IH]; intros out H; simpl in H.
  - injection H as <-. intros g v [].
  - step H as vs Hvs. step H as out' Hout. injection H as <-.
    intros g' v [[= <- <-] | Hin].
    + by eapply pick_subset.
    + by eapply IH.
Qed.

(** The sub-polytopes of cell [i] in a dimension above 0 are made of
    vertices of the key of the cell. *)
Lemma getSubPolytopes_subset (i dim : nat) (c : Connectivity)
    (out : list (Polytope.Type_ * list nat)) :
  getSubPolytopes i dim c = Ok out →
  0 < dim →
  ∃ p, getPolytope (getMeshDimension c) i c = Ok p
       ∧ ∀ g v, In (g, v) out → subset v p.
Proof.
  unfold getSubPolytopes, getPolytope. intros H Hdim.
  step H as ix Hix. step H as p Hp. step H as g Hg.
  rewrite Hix. simpl. exists p. split; [exact Hp |].
  assert (∀ g' v, In (g', v) [(g, p)] → subset v p) as Hid.
  { intros g' v [[= <- <-] | []]. by intros x. }
  destruct g; check H as Hb1; check H as Hb2.
  - apply Nat.eqb_eq in Hb1. lia.
  - destruct dim as [| [| ?]]; try discriminate; [lia |].
    by injection H as <-.
  - destruct dim as [| [| [| ?]]]; try discriminate; [lia | |].
    + by eapply subs_subset.
    + by injection H as <-.
  - destruct dim as [| [| [| ?]]]; try discriminate; [lia | |].
    + by eapply subs_subset.
    + by injection H as <-.
  - destruct dim as [| [| [| [| ?]]]]; try discriminate; [lia | | |].
    + by eapply subs_subset.
    + by eapply subs_subset.
    + by injection H as <-.
  - destruct dim as [| [| [| [| ?]]]]; try discriminate; [lia | | |].
    + by eapply subs_subset.
    + by eapply subs_subset.
    + by injection H as <-.
Qed.

(** ** The build step and the vertex sets *)

Lemma subset_trans (a b c : list nat) : subset a b → subset b c → subset a c.
Proof. unfold subset. auto. Qed.

Lemma vertices_untouched (c c' : Connectivity) (d i : nat) (v : list nat) :
  untouched c c' d 0 → vertices c d i v → vertices c' d i v.
Proof. intros [H _] (r & Hr & Hi). exists r. split; [congruence | done]. Qed.

(** On aligned tables the entry of a cell holds the vertices of its key. *)
Lemma aligned_cells_listed (c : Connectivity) (D : nat) :
  aligned c D → cells_listed c D.
Proof.
  intros (ix & n & r & Hix & Hn & Hr & Hlen & Hall) i p Hp.
  unfold getPolytope in Hp. apply at_Ok in Hix. rewrite Hix in Hp.
  cbn [bind] in Hp. unfold right_at in Hp.
  destruct (right_find i ix) as [e |] eqn:Hfind; [| discriminate].
  injection Hp as <-. unfold right_find in Hfind.
  apply find_some in Hfind as [Hin Hid]. apply Nat.eqb_eq in Hid.
  destruct e as [k id]. simpl in *. subst id.
  destruct (Hall k i Hin) as (_ & v & Hv & Hiff).
  exists v. split; [by exists r |]. intros x Hx. by apply Hiff.
Qed.

Lemma aligned_untouched (c c' : Connectivity) (d : nat) :
  m_index c' !! d = m_index c !! d →
  m_count c' !! d = m_count c !! d →
  untouched c c' d 0 →
  aligned c d → aligned c' d.
Proof.
  intros Hi Hc [Hu _] (ix & n & r & Hix & Hn & Hr & Hlen & Hall).
  exists ix, n, r. split_and!; [congruence | congruence | congruence | | ];
    done.
Qed.

(** One round of the loop of [local] keeps the tables of dimension [d]
    aligned and the entries of (d, 0) in place, and puts into the set an
    identifier whose entry is made of vertices of the sub-polytope. *)
Lemma local_insert_listed (ke : KeyEquality) (d D : nat) (c c' : Connectivity)
    (s s' : list nat) (g : Polytope.Type_) (v p : list nat) :
  local_insert ke d D (c, s) (g, v) = Ok (c', s') →
  d ≠ 0 → d ≠ D →
  aligned c d →
  subset v p →
  (∀ j, In j s → ∃ vj, vertices c d j vj ∧ subset vj p) →
  aligned c' d
  ∧ (∀ j vj, vertices c d j vj → vertices c' d j vj)
  ∧ (∀ j, In j s' → ∃ vj, vertices c' d j vj ∧ subset vj p).
Proof.
  intros H Hd0 HdD Hlisted Hvp Hs.
  pose proof Hlisted as (ix & n & r & Hix & Hn & Hr & Hlen & Hall).
  destruct (left_find ke v ix) as [e |] eqn:Hfind.
  - (* the key is in the index *)
    rewrite (local_insert_found _ _ _ _ _ _ _ _ _ _ Hix Hn Hfind) in H.
    injection H as <- <-. split_and!; [done | done |].
    intros j [-> | Hj]%In_set_insert; [| by apply Hs].
    unfold left_find in Hfind. apply find_some in Hfind as [Hin Hkey].
    destruct e as [k id]. simpl in *.
    destruct (Hall k id Hin) as (_ & v0 & Hv0 & Hiff).
    exists v0. split; [by exists r |].
    intros x Hx. apply Hvp. apply (key_eqb_In _ _ _ Hkey). by apply Hiff.
  - (* the key is new *)
    unfold local_insert in H.
    apply at_Ok in Hix as Hix', Hn as Hn'. rewrite Hix', Hn' in H.
    cbn [bind] in H. unfold left_insert in H. rewrite Hfind in H.
    destruct (right_find n ix) as [e |] eqn:Hright.
    { unfold right_find in Hright. apply find_some in Hright as [Hin Hid].
      apply Nat.eqb_eq in Hid. destruct e as [k id]. simpl in Hid. subst id.
      destruct (Hall k n Hin) as [Hlt _]. lia. }
    step H as index' Hindex. apply put_Ok in Hindex as [Hdlt ->].
    step H as c1 Hc1. step Hc1 as geo Hgeo.
    step Hc1 as geometry' Hgeometry. apply put_Ok in Hgeometry as [_ ->].
    step Hc1 as inc Hinc. simpl in Hinc. rewrite Hr in Hinc.
    injection Hinc as <-. step Hc1 as conn Hconn. simpl in Hconn.
    injection Hc1 as <-. step H as count' Hcount. simpl in Hcount.
    apply put_Ok in Hcount as [Hclt ->]. simpl in H. injection H as <- <-.
    assert (at2 conn d 0 = Ok (r ++ [insert_unique v []])) as Hr'
      by (by eapply at2_put2_eq).
    assert (∀ j vj, vertices c d j vj →
                    r !! j = Some vj ∧ (r ++ [insert_unique v []]) !! j = Some vj)
      as Hold.
    { intros j vj (r0 & Hr0 & Hj). rewrite Hr in Hr0. injection Hr0 as <-.
      split; [done |]. by apply lookup_app_l_Some. }
    split_and!.
    + exists (ix ++ [(v, n)]), (add_bool n true), (r ++ [insert_unique v []]).
      simpl. split_and!.
      * by apply list_lookup_insert_eq.
      * destruct (Nat.eqb_spec d D), (Nat.eqb_spec d 0); try done. simpl.
        by apply list_lookup_insert_eq.
      * exact Hr'.
      * rewrite length_app. unfold add_bool. simpl. lia.
      * intros k id [Hin | [[= <- <-] | []]]%in_app_iff.
        -- destruct (Hall k id Hin) as (Hlt & v0 & Hv0 & Hiff).
           unfold add_bool. split; [lia |]. exists v0.
           split; [by apply lookup_app_l_Some | done].
        -- unfold add_bool. split; [simpl; lia |].
           exists (insert_unique v []). split.
           ++ by apply list_lookup_middle.
           ++ intros x. rewrite In_insert_unique. simpl. intuition.
    + intros j vj Hj. exists (r ++ [insert_unique v []]). simpl.
      split; [exact Hr' | by apply Hold].
    + intros j [-> | Hj]%In_set_insert.
      * exists (insert_unique v []). split.
        -- exists (r ++ [insert_unique v []]). simpl.
           split; [exact Hr' | by apply list_lookup_middle].
        -- intros x [Hx | []]%In_insert_unique. by apply Hvp.
      * destruct (Hs j Hj) as (vj & Hvj & Hsub). exists vj.
        split; [| done]. exists (r ++ [insert_unique v []]). simpl.
        split; [exact Hr' | by apply Hold].
Qed.

(** [local(i, d)] appends to the relation (D, d) a set of identifiers whose
    (d, 0) entries are made of vertices of the key of cell [i]. *)
Lemma local_listed (ke : KeyEquality) (i d : nat) (c c' : Connectivity) :
  local ke i d c = Ok c' →
  aligned c d →
  ∃ p s r,
    getPolytope (getMeshDimension c) i c = Ok p
    ∧ at2 (m_connectivity c) (getMeshDimension c) d = Ok r
    ∧ at2 (m_connectivity c') (getMeshDimension c) d = Ok (r ++ [s])
    ∧ aligned c' d
    ∧ (∀ j vj, vertices c d j vj → vertices c' d j vj)
    ∧ (∀ j, In j s → ∃ vj, vertices c' d j vj ∧ subset vj p).
Proof.
  unfold local. intros H Hlisted. set (D := getMeshDimension c) in *.
  check H as H0. check H as HD. apply Nat.ltb_lt in H0, HD.
  step H as subpolytopes Hsubs. step H as acc Hloop.
  destruct acc as [c1 s]. step H as inc Hinc. step H as conn Hconn.
  injection H as <-.
  apply getSubPolytopes_subset in Hsubs as (p & Hp & Hsub); [| lia].
  fold D in Hp.
  set (L := λ acc : Connectivity * list nat,
         grown d d c (fst acc)
         ∧ aligned (fst acc) d
         ∧ (∀ j vj, vertices c d j vj → vertices (fst acc) d j vj)
         ∧ (∀ j, In j (snd acc) →
                 ∃ vj, vertices (fst acc) d j vj ∧ subset vj p)).
  assert (L (c1, s)) as (Hg1 & Hl1 & Hmono1 & Hs1).
  { eapply (for_each_ind L); [| | exact Hloop].
    - intros [c2 s2] [g v] [c3 s3] Hin (Hg2 & Hl2 & Hmono2 & Hs2) Hstep.
      unfold L. cbn [fst snd] in *.
      pose proof (local_insert_grown ke d D d _ _ _ _ _ Hstep) as [Hg3 _].
      eapply local_insert_listed in Hstep as (Hl3 & Hmono3 & Hs3);
        [| lia | lia | exact Hl2 | by eapply Hsub | exact Hs2].
      split_and!; [by eapply grown_trans | done | by auto | done].
    - unfold L. simpl. split_and!; [apply grown_refl | done | done |].
      intros j []. }
  cbn [fst snd] in *.
  assert (untouched c c1 D d) as [HuD _].
  { apply Hg1; ne_pair. }
  rewrite HuD in Hinc.
  assert (untouched c1 (with_connectivity conn c1) d 0) as Hu0.
  { eapply only_pair_untouched; [by eapply only_pair_connectivity |].
    ne_pair. }
  exists p, s, inc. split_and!.
  - exact Hp.
  - exact Hinc.
  - simpl. by eapply at2_put2_eq.
  - by apply (aligned_untouched c1).
  - intros j vj Hj. eapply vertices_untouched; [exact Hu0 |]. by apply Hmono1.
  - intros j Hj. destruct (Hs1 j Hj) as (vj & Hvj & Hsubj).
    exists vj. split; [| done]. by eapply vertices_untouched.
Qed.

Lemma getPolytope_agree (D i : nat) (c c' : Connectivity) :
  m_index c' !! D = m_index c !! D →
  getPolytope D i c' = getPolytope D i c.
Proof. unfold getPolytope, at_. by intros ->. Qed.

(** [build(d)] on aligned tables and an empty relation (D, d) stores for
    each cell a set of identifiers whose (d, 0) entries lie inside the
    (D, 0) entry of the cell. *)
Lemma build_closes (ke : KeyEquality) (d : nat) (c c' : Connectivity) :
  build ke d c = Ok c' →
  cells_listed c (getMeshDimension c) →
  aligned c d →
  at2 (m_connectivity c) (getMeshDimension c) d = Ok [] →
  closed c' (getMeshDimension c) d.
Proof.
  unfold build. intros H Hcells Hlisted Hempty.
  set (D := getMeshDimension c) in *.
  check H as H0. check H as HD. apply Nat.ltb_lt in H0, HD.
  step H as u1 Hc1. step H as u2 Hc2. step H as n Hn.
  step H as c1 Hloop. step H as c2 Hmark.
  set (B := λ (k : nat) (ck : Connectivity),
         grown d D c ck
         ∧ getMeshDimension ck = D
         ∧ aligned ck d
         ∧ ∃ r, at2 (m_connectivity ck) D d = Ok r
             ∧ length r = k
             ∧ ∀ i j, incident r i j →
                      ∃ vi vj, vertices c D i vi ∧ vertices ck d j vj
                               ∧ subset vj vi).
  assert (B (0 + n) c1) as (Hg1 & HD1 & Hl1 & r & Hr & Hlen & Hclosed).
  { eapply (for_each_seq B); [| | exact Hloop].
    - intros k c3 c4 Hk (Hg3 & HD3 & Hl3 & r3 & Hr3 & Hlen3 & Hcl3) Hstep.
      pose proof (local_grown _ _ _ _ _ Hstep) as (Hd4 & Hg4 & _).
      apply local_listed in Hstep
        as (p & s & r' & Hp & Hr' & Hr4 & Hl4 & Hmono & Hs); [| exact Hl3].
      rewrite HD3 in Hg4, Hp, Hr', Hr4.
      rewrite Hr3 in Hr'. injection Hr' as <-.
      split_and!.
      + by eapply grown_trans.
      + rewrite <- HD3. eapply grown_getMeshDimension; [exact Hg4 | lia].
      + exact Hl4.
      + exists (r3 ++ [s]). split_and!; [done | rewrite length_app; simpl; lia |].
        intros i j (s0 & Hs0 & Hj).
        apply lookup_app_Some in Hs0 as [Hold | [Hge Hnew]].
        * destruct (Hcl3 i j) as (vi & vj & Hvi & Hvj & Hsub);
            [by exists s0 |].
          exists vi, vj. split_and!; auto.
        * destruct (i - length r3) as [| ?] eqn:Hi; [| done].
          injection Hnew as <-. assert (i = k) as -> by lia.
          destruct (Hs j Hj) as (vj & Hvj & Hsubj).
          rewrite (getPolytope_agree D k c c3) in Hp.
          2:{ destruct Hg3 as (_ & _ & [_ Hix] & _). apply Hix. lia. }
          destruct (Hcells k p Hp) as (vi & Hvi & Hsubi).
          exists vi, vj. split_and!; [done | done |].
          by eapply subset_trans.
    - split_and!; [apply grown_refl | done | done |].
      exists []. split_and!; [done | done |].
      intros i j (s0 & Hs0 & _). discriminate. }
  apply only_pair_mark in Hmark as (Hop2 & Hconn2 & _).
  apply only_pair_mark in H as (Hop3 & Hconn3 & _).
  assert (m_connectivity c' = m_connectivity c1) as Hconn by congruence.
  intros i j (r0 & Hr0 & Hij). rewrite Hconn, Hr in Hr0.
  injection Hr0 as <-.
  destruct (Hclosed i j Hij) as (vi & vj & Hvi & Hvj & Hsub).
  exists vi, vj. split_and!; [| | done].
  - destruct Hvi as (rv & Hrv & Hi). exists rv. split; [| done].
    rewrite Hconn, <- Hrv. apply Hg1; ne_pair.
  - destruct Hvj as (rv & Hrv & Hj). exists rv. split; [| done].
    by rewrite Hconn.
Qed.

(** ** Subset closure in compute *)

Lemma closed_connectivity (c c' : Connectivity) (d dp : nat) :
  m_connectivity c' = m_connectivity c → closed c d dp → closed c' d dp.
Proof.
  intros Hconn Hcl i j Hij. unfold closed, related, vertices in *.
  rewrite Hconn. apply Hcl. by rewrite <- Hconn.
Qed.

Lemma prepare_top_tables (D : nat) (a : bool) (c c1 : Connectivity) :
  (if a then c <- transpose 0 D c ;; intersection D D 0 c else Ok c) = Ok c1 →
  m_count c1 = m_count c ∧ m_index c1 = m_index c.
Proof.
  destruct a; intros H.
  - step H as ct Ht. apply transpose_Ok in Ht as (_ & Hop1 & _).
    apply intersection_Ok in H as (_ & Hop2 & _).
    destruct Hop1 as (_ & ? & _ & ? & _), Hop2 as (_ & ? & _ & ? & _).
    split; congruence.
  - by injection H as <-.
Qed.

(** Below the row of the cells a dirty relation (d, dp) with [0 < dp < d] is
    derived by [intersection], whose test keeps what is closed. *)
Lemma compute_closes_by_intersection (ke : KeyEquality) (fuel d dp : nat)
    (c c' : Connectivity) :
  0 < dp < d →
  d ≠ getMeshDimension c →
  at2 (m_dirty c) d dp = Ok true →
  (∀ i j, ¬ related c d dp i j) →
  compute ke fuel d dp c = Ok c' →
  closed c' d dp.
Proof.
  intros Hd HdD Hdirty Hempty H.
  destruct fuel as [| fuel]; [discriminate |].
  simpl in H. set (D := getMeshDimension c) in *.
  destruct (Nat.eqb_spec dp 0) as [? | _]; [lia |].
  rewrite andb_false_r in H.
  step H as c1 Hprep. step H as flag Hflag. step H as c2 Hderive.
  apply only_pair_mark in H as (_ & Hconn & _).
  apply (closed_connectivity c2); [exact Hconn |]. clear Hconn c'.
  apply prepare_Ok in Hprep as (HD1 & Hu1 & _). fold D in HD1, Hu1.
  assert (untouched c c1 d dp) as [Hconn1 Hdirty1].
  { apply Hu1. unfold prepared.
    intros [E | [E | [[? [E | E]] | [? [E | E]]]]];
      inversion E; subst; try lia; done. }
  rewrite Hdirty1, Hdirty in Hflag. injection Hflag as <-.
  destruct (Nat.ltb_spec d dp); [lia |].
  unfold pivot in Hderive.
  destruct (Nat.eqb_spec d 0) as [? | _]; [lia |]. simpl in Hderive.
  step Hderive as ct Hrec1. step Hderive as cu Hrec2.
  apply compute_frame in Hrec1 as (HDt & _ & Hlowt).
  apply compute_frame in Hrec2 as (HDu & _ & Hlowu).
  rewrite HD1 in HDt, Hlowt. rewrite HDt in Hlowu.
  assert (untouched c1 ct d dp) as [Hconnt _]
    by (apply Hlowt; [done | done | ne_pair | ne_pair]).
  assert (untouched ct cu d dp) as [Hconnu _]
    by (apply Hlowu; [done | done | ne_pair | ne_pair]).
  apply intersection_Ok in Hderive as (_ & _ & _ & Hspec).
  unfold closed. apply Hspec; [done |].
  intros i j. unfold related. rewrite Hconnu, Hconnt, Hconn1. apply Hempty.
Qed.

(** On the row of the cells a dirty, empty relation (D, dp) with
    [0 < dp < D] is derived by [build]. *)
Lemma compute_closes_by_build (ke : KeyEquality) (fuel dp : nat)
    (c c' : Connectivity) :
  0 < dp < getMeshDimension c →
  at2 (m_dirty c) (getMeshDimension c) dp = Ok true →
  at2 (m_connectivity c) (getMeshDimension c) dp = Ok [] →
  aligned c (getMeshDimension c) →
  aligned c dp →
  compute ke fuel (getMeshDimension c) dp c = Ok c' →
  closed c' (getMeshDimension c) dp.
Proof.
  intros Hd Hdirty Hempty Hcells%aligned_cells_listed Hlisted H.
  destruct fuel as [| fuel]; [discriminate |].
  simpl in H. set (D := getMeshDimension c) in *.
  destruct (Nat.eqb_spec dp 0) as [? | _]; [lia |].
  rewrite andb_false_r in H.
  step H as c1 Hprep. step H as flag Hflag. step H as c2 Hderive.
  apply only_pair_mark in H as (_ & Hconn & _).
  apply (closed_connectivity c2); [exact Hconn |]. clear Hconn c'.
  unfold prepare in Hprep.
  step Hprep as a Ha. step Hprep as ca Htop. step Hprep as u1 Hu1.
  step Hprep as b Hb. step Hprep as cb Hbuild.
  step Hprep as u2 Hu2. step Hprep as a1 Ha1. check Hprep as Hclean1.
  step Hprep as b' Hb'. step Hprep as cc Hbuild'.
  step Hprep as u3 Hu3. step Hprep as a2 Ha2. check Hprep as Hclean2.
  injection Hprep as <-.
  pose proof (prepare_top_tables _ _ _ _ Htop) as [Hcount Hindex].
  apply prepare_top in Htop as [HDa Hua]. fold D in HDa.
  assert (b = false) as ->.
  { unfold needs_build in Hb. rewrite Nat.eqb_refl in Hb. by injection Hb. }
  injection Hbuild as <-.
  assert (untouched c ca D dp) as [HconnD HdirtyD] by (apply Hua; ne_pair).
  assert (untouched c ca D 0) as HuD0 by (apply Hua; ne_pair).
  assert (untouched c ca dp 0) as Hudp0 by (apply Hua; ne_pair).
  assert (b' = true) as ->.
  { unfold needs_build in Hb'.
    destruct (Nat.eqb_spec dp D), (Nat.eqb_spec dp 0); try lia.
    simpl in Hb'. rewrite HdirtyD, Hdirty in Hb'. by injection Hb'. }
  pose proof (build_Ok _ _ _ _ Hbuild') as (_ & _ & _ & Hflag' & _).
  rewrite HDa in Hflag'. rewrite Hflag' in Hflag. injection Hflag as <-.
  injection Hderive as <-.
  rewrite <- HDa. eapply build_closes; [exact Hbuild' | | |].
  - rewrite HDa. intros i p Hp.
    rewrite (getPolytope_agree D i c ca) in Hp by (by rewrite Hindex).
    destruct (Hcells i p Hp) as (v & Hv & Hsub).
    exists v. split; [by eapply vertices_untouched | done].
  - apply (aligned_untouched c); [by rewrite Hindex | | done | done].
    by rewrite Hcount.
  - rewrite HDa. by rewrite HconnD.
Qed.

(** For [0 < dp < d], when [compute(d, dp)] finds the pair (d, dp) dirty and
    empty and succeeds, with the tables of the cells and of dimension [dp]
    aligned when [d] is the mesh dimension, the relation it leaves behind is
    closed: every [j] in the incidence set of [i] has its (dp, 0) entry
    inside the (d, 0) entry of [i]. *)
Lemma compute_closes (ke : KeyEquality) (fuel d dp : nat)
    (c c' : Connectivity) :
  0 < dp < d →
  at2 (m_dirty c) d dp = Ok true →
  at2 (m_connectivity c) d dp = Ok [] →
  (d = getMeshDimension c → aligned c d ∧ aligned c dp) →
  compute ke fuel d dp c = Ok c' →
  closed c' d dp.
Proof.
  intros Hd Hdirty Hempty Haligned H.
  destruct (decide (d = getMeshDimension c)) as [-> | HdD].
  - destruct (Haligned eq_refl) as [Hcells Hlisted].
    by eapply compute_closes_by_build.
  - eapply compute_closes_by_intersection; try eassumption.
    intros i j (r & Hr & s & Hs & _). rewrite Hempty in Hr.
    injection Hr as <-. discriminate.
Qed.

Lemma compute_closes_example : closed two_triangles_edges 2 1.
Proof.
  apply (compute_closes VertexSet 3 2 1 two_triangles_state).
  - lia.
  - vm_compute. reflexivity.
  - vm_compute. reflexivity.
  - intros _. split.
    + exists [([0; 1; 2], 0); ([1; 2; 3], 1)], 2, [[0; 1; 2]; [1; 2; 3]].
      split_and!; try (vm_compute; reflexivity).
      intros k id [[= <- <-] | [[= <- <-] | []]]; (split; [lia |]);
        eexists; (split; [reflexivity | done]).
    + exists [], 0, []. split_and!; try (vm_compute; reflexivity).
      intros k id [].
  - vm_compute. reflexivity.
Qed.

(** C7, as the specification has it, fails: a relation stays as it was
    derived while the entries it was derived from change. After T0, the
    query (2, 1), [clear(2, 0)] and the declaration of T1 = (2, 3, 4), the
    pairs (2, 1), (1, 0) and (2, 0) are clean, the edge 0 is in the
    incidence set of the cell 0, the (1, 0) entry of the edge is {0, 1} and
    the (2, 0) entry of the cell is {2, 3, 4}. *)
Lemma cleared_cells_break_closure :
  cleared_cells = Ok cleared_cells_state
  ∧ at2 (m_dirty cleared_cells_state) 2 1 = Ok false
  ∧ at2 (m_dirty cleared_cells_state) 1 0 = Ok false
  ∧ at2 (m_dirty cleared_cells_state) 2 0 = Ok false
  ∧ related cleared_cells_state 2 1 0 0
  ∧ vertices cleared_cells_state 1 0 [0; 1]
  ∧ vertices cleared_cells_state 2 0 [2; 3; 4]
  ∧ ¬ closed cleared_cells_state 2 1.
Proof.
  assert (related cleared_cells_state 2 1 0 0) as Hrel.
  { eexists. split; [vm_compute; reflexivity |].
    eexists. split; [reflexivity | simpl; auto]. }
  split_and!; try (vm_compute; reflexivity); try exact Hrel.
  - eexists. split; vm_compute; reflexivity.
  - eexists. split; vm_compute; reflexivity.
  - intros Hcl. destruct (Hcl 0 0 Hrel) as (vi & vj & Hvi & Hvj & Hsub).
    destruct Hvi as (ri & Hri & Hi), Hvj as (rj & Hrj & Hj).
    vm_compute in Hri, Hrj. injection Hri as <-. injection Hrj as <-.
    injection Hi as <-. injection Hj as <-.
    destruct (Hsub 0) as [? | [? | [? | []]]]; [simpl; auto | | |];
      discriminate.
Qed.

(** ** Soundness of the engine *)

Lemma highest_populated_populated (n : nat) (l : list nat) :
  0 < highest_populated n l →
  ∃ m, l !! highest_populated n l = Some m ∧ 0 < m.
Proof.
  induction n as [| n IH]; simpl; [lia |].
  destruct (l !! n) as [m |] eqn:Hm; [| exact IH].
  destruct (Nat.ltb_spec 0 m); [| exact IH]. eauto.
Qed.

(** A mesh dimension above 0 is a populated dimension. *)
Lemma getMeshDimension_populated (c : Connectivity) :
  0 < getMeshDimension c →
  ∃ n, m_count c !! getMeshDimension c = Some n ∧ 0 < n.
Proof. apply highest_populated_populated. Qed.

Lemma clean_only_pair (a b x y : nat) (c c' : Connectivity) :
  only_pair a b c c' → clean c' a b → clean c x y → clean c' x y.
Proof.
  intros Hop Hab Hxy. destruct (decide ((x, y) = (a, b))) as [[= -> ->] | Hne].
  - exact Hab.
  - unfold clean in *. rewrite <- Hxy.
    by eapply only_pair_untouched.
Qed.

Lemma clean_grown (d D x y : nat) (c c' : Connectivity) :
  grown d D c c' → clean c' d 0 → clean c' D d →
  clean c x y → clean c' x y.
Proof.
  intros (_ & _ & _ & _ & Hu) H1 H2 Hxy.
  destruct (decide ((x, y) = (d, 0))) as [[= -> ->] | Hne1]; [done |].
  destruct (decide ((x, y) = (D, d))) as [[= -> ->] | Hne2]; [done |].
  unfold clean in *. rewrite <- Hxy. by apply Hu.
Qed.

(** No statement of [compute] sets a dirty flag. *)
Lemma compute_keeps_clean (ke : KeyEquality) (fuel a b x y : nat)
    (c c' : Connectivity) :
  compute ke fuel a b c = Ok c' → clean c x y → clean c' x y.
Proof.
  revert a b c c'. induction fuel as [| fuel IH]; intros a b c c' H Hxy;
    [discriminate |].
  simpl in H. destruct ((a =? getMeshDimension c) && (b =? 0)).
  { by injection H as <-. }
  step H as c1 Hprep. step H as flag Hflag. step H as c2 Hderive.
  assert (clean c1 x y) as Hxy1.
  { unfold prepare in Hprep.
    step Hprep as a0 Ha. step Hprep as ca Htop. step Hprep as u1 Hu1.
    step Hprep as b0 Hb. step Hprep as cb Hbuild.
    step Hprep as u2 Hu2. step Hprep as a1 Ha1. check Hprep as Hclean1.
    step Hprep as b' Hb'. step Hprep as cc Hbuild'.
    step Hprep as u3 Hu3. step Hprep as a2 Ha2. check Hprep as Hclean2.
    injection Hprep as <-.
    assert (clean ca x y) as Hxya.
    { destruct a0; [| by injection Htop as <-].
      step Htop as ct Ht. apply transpose_Ok in Ht as (_ & Hop1 & Hf1 & _).
      apply intersection_Ok in Htop as (_ & Hop2 & Hf2 & _).
      eapply clean_only_pair; [exact Hop2 | exact Hf2 |].
      by eapply clean_only_pair. }
    assert (clean cb x y) as Hxyb.
    { destruct b0; [| by injection Hbuild as <-].
      apply build_Ok in Hbuild as (_ & Hg & _ & Hf1 & Hf2).
      by eapply clean_grown. }
    destruct b'; [| by injection Hbuild' as <-].
    apply build_Ok in Hbuild' as (_ & Hg & _ & Hf1 & Hf2).
    by eapply clean_grown. }
  assert (clean c2 x y) as Hxy2.
  { destruct flag; [| by injection Hderive as <-].
    destruct (a <? b).
    - step Hderive as ct Hrec. apply (IH _ _ _ _ Hrec) in Hxy1.
      apply transpose_Ok in Hderive as (_ & Hop & Hf & _).
      by eapply clean_only_pair.
    - step Hderive as ct Hrec1. step Hderive as cu Hrec2.
      apply (IH _ _ _ _ Hrec1) in Hxy1. apply (IH _ _ _ _ Hrec2) in Hxy1.
      apply intersection_Ok in Hderive as (_ & Hop & Hf & _).
      by eapply clean_only_pair. }
  apply only_pair_mark in H as (Hop & _ & Hf).
  by eapply clean_only_pair.
Qed.

(** [build(d)] keeps the tables of dimension [d] aligned and the entries of
    (d, 0) in place. *)
Lemma build_aligned (ke : KeyEquality) (d : nat) (c c' : Connectivity) :
  build ke d c = Ok c' →
  aligned c d →
  aligned c' d ∧ ∀ j vj, vertices c d j vj → vertices c' d j vj.
Proof.
  unfold build. intros H Hlisted.
  check H as H0. check H as HD. apply Nat.ltb_lt in H0, HD.
  step H as u1 Hc1. step H as u2 Hc2. step H as n Hn.
  step H as c1 Hloop. step H as c2 Hmark.
  set (P := λ ck : Connectivity,
         aligned ck d ∧ ∀ j vj, vertices c d j vj → vertices ck d j vj).
  assert (P c1) as [Hl1 Hmono1].
  { eapply (for_each_ind P); [| | exact Hloop].
    - intros c3 i c4 _ [Hl3 Hmono3] Hstep.
      apply local_listed in Hstep
        as (p & s & r' & _ & _ & _ & Hl4 & Hmono4 & _); [| exact Hl3].
      split; [exact Hl4 | by auto].
    - by split. }
  apply only_pair_mark in Hmark as (Hop2 & Hconn2 & _).
  apply only_pair_mark in H as (Hop3 & Hconn3 & _).
  assert (m_connectivity c' = m_connectivity c1) as Hconn by congruence.
  split.
  - destruct Hl1 as (ix & m & r & Hix & Hm & Hr & Hrest).
    exists ix, m, r. split_and!; [| | by rewrite Hconn | apply Hrest ..].
    + destruct Hop2 as (_ & _ & _ & Hi2 & _), Hop3 as (_ & _ & _ & Hi3 & _).
      by rewrite Hi3, Hi2.
    + destruct Hop2 as (_ & Hk2 & _), Hop3 as (_ & Hk3 & _).
      by rewrite Hk3, Hk2.
  - intros j vj Hj. destruct (Hmono1 j vj Hj) as (r & Hr & Hrj).
    exists r. split; [by rewrite Hconn | done].
Qed.

Lemma closed_frame (c c' : Connectivity) (x y : nat) :
  at2 (m_connectivity c') x y = at2 (m_connectivity c) x y →
  (∀ i v, vertices c x i v → vertices c' x i v) →
  (∀ j v, vertices c y j v → vertices c' y j v) →
  closed c x y → closed c' x y.
Proof.
  intros Hconn Hx Hy Hcl i j (r & Hr & Hij).
  destruct (Hcl i j) as (vi & vj & Hvi & Hvj & Hsub).
  - exists r. split; [congruence | done].
  - exists vi, vj. auto.
Qed.

Lemma aligned_connectivity (c c' : Connectivity) (d : nat) :
  m_index c' = m_index c →
  m_count c' = m_count c →
  at2 (m_connectivity c') d 0 = at2 (m_connectivity c) d 0 →
  aligned c d → aligned c' d.
Proof.
  intros Hi Hc Hu (ix & n & r & Hix & Hn & Hr & Hlen & Hall).
  exists ix, n, r. split_and!; [congruence | congruence | congruence | | ];
    done.
Qed.

Lemma vertices_connectivity (c c' : Connectivity) (d i : nat) (v : list nat) :
  at2 (m_connectivity c') d 0 = at2 (m_connectivity c) d 0 →
  vertices c d i v → vertices c' d i v.
Proof. intros H (r & Hr & Hi). exists r. split; [congruence | done]. Qed.

(** A statement that writes one pair (a, b) at most, leaves the (z, 0)
    entries above the vertices, marks (a, b) clean and leaves it closed,
    keeps the engine sound. *)
Lemma sound_only_pair (a b : nat) (c c' : Connectivity) :
  sound c →
  only_pair a b c c' →
  clean c' a b →
  (∀ z, 0 < z → at2 (m_connectivity c') z 0 = at2 (m_connectivity c) z 0) →
  (0 < b → clean c b 0) →
  (0 < b < a → closed c' a b) →
  sound c'.
Proof.
  intros (Hsh & Hal & Hem & Hpop & Hcol & Hcl) Hop Hab Hz Hb Hclab.
  pose proof Hop as (_ & Hcount & _ & Hindex & _ & Hu).
  split_and!.
  - by rewrite Hindex, Hcount.
  - intros d Hd. rewrite Hindex in Hd.
    apply (aligned_connectivity c); [done | done | apply Hz; lia |].
    by apply Hal.
  - intros x y Hxy. destruct (decide ((x, y) = (a, b))) as [[= -> ->] | Hne].
    + unfold clean in Hab. congruence.
    + destruct (Hu x y Hne) as [Hc Hd]. rewrite Hc. apply Hem. by rewrite <- Hd.
  - intros z n Hz0 Hn Hpos. rewrite Hcount in Hn.
    eapply clean_only_pair; [exact Hop | exact Hab |]. by eapply Hpop.
  - intros x y Hy Hxy.
    eapply clean_only_pair; [exact Hop | exact Hab |].
    destruct (decide ((x, y) = (a, b))) as [[= -> ->] | Hne]; [by apply Hb |].
    apply (Hcol x y Hy). unfold clean in *. rewrite <- Hxy. symmetry.
    by apply Hu.
  - intros x y Hxy. destruct (decide ((x, y) = (a, b))) as [[= -> ->] | Hne].
    + by apply Hclab.
    + apply (closed_frame c); [by apply Hu | | | by apply Hcl].
      * intros i v. apply vertices_connectivity, Hz. lia.
      * intros j v. apply vertices_connectivity, Hz. lia.
Qed.

(** [build(d)], called on a dirty pair (D, d), keeps the engine sound. *)
Lemma build_sound (ke : KeyEquality) (d : nat) (c c' : Connectivity) :
  sound c →
  at2 (m_dirty c) (getMeshDimension c) d = Ok true →
  build ke d c = Ok c' →
  sound c'.
Proof.
  intros Hsound Hdirty H.
  pose proof Hsound as (Hsh & Hal & Hem & Hpop & Hcol & Hcl).
  pose proof (build_Ok _ _ _ _ H) as (Hd & Hg & HD & Hf1 & Hf2).
  set (D := getMeshDimension c) in *.
  destruct (getMeshDimension_populated c) as (nD & HnD & HposD); [fold D; lia |].
  fold D in HnD. apply lookup_lt_Some in HnD as HDlt.
  assert (aligned c d) as Hald by (apply Hal; lia).
  assert (aligned c D) as HalD by (apply Hal; lia).
  destruct (build_aligned _ _ _ _ H Hald) as [Hald' Hmono].
  pose proof Hg as (_ & [Hlenc Hcount] & [Hleni Hindex] & _ & Hu).
  assert (∀ z, z ≠ d → untouched c c' z 0) as Hz.
  { intros z Hz. apply Hu; ne_pair. }
  assert (∀ z i v, vertices c z i v → vertices c' z i v) as Hvert.
  { intros z i v. destruct (decide (z = d)) as [-> | Hne]; [apply Hmono |].
    apply vertices_untouched. by apply Hz. }
  split_and!.
  - congruence.
  - intros d' Hd'. destruct (decide (d' = d)) as [-> | Hne]; [done |].
    apply (aligned_untouched c); [by apply Hindex | by apply Hcount | |].
    + by apply Hz.
    + apply Hal. lia.
  - intros x y Hxy.
    destruct (decide ((x, y) = (d, 0))) as [[= -> ->] | Hne1];
      [unfold clean in Hf2; congruence |].
    destruct (decide ((x, y) = (D, d))) as [[= -> ->] | Hne2];
      [unfold clean in Hf1; congruence |].
    destruct (Hu x y Hne1 Hne2) as [Hc Hdd]. rewrite Hc. apply Hem.
    by rewrite <- Hdd.
  - intros z n Hz0 Hn Hpos.
    destruct (decide (z = d)) as [-> | Hne]; [done |].
    rewrite Hcount in Hn by done.
    eapply clean_grown; [exact Hg | done | done |]. by eapply Hpop.
  - intros x y Hy Hxy.
    destruct (decide (y = d)) as [-> | Hyd]; [done |].
    eapply clean_grown; [exact Hg | done | done |].
    apply (Hcol x y Hy). unfold clean in *. rewrite <- Hxy. symmetry.
    apply Hu; ne_pair.
  - intros x y Hxy.
    destruct (decide ((x, y) = (D, d))) as [[= -> ->] | Hne].
    + eapply build_closes; [exact H | | done |].
      * by apply aligned_cells_listed.
      * by apply Hem.
    + apply (closed_frame c); [| by auto | by auto | by apply Hcl].
      apply Hu; [ne_pair | done].
Qed.

Lemma only_pair_column (a b z : nat) (c c' : Connectivity) :
  only_pair a b c c' → (z, 0) ≠ (a, b) →
  at2 (m_connectivity c') z 0 = at2 (m_connectivity c) z 0.
Proof. intros Hop Hne. by apply (only_pair_untouched _ _ _ _ _ _ Hop). Qed.

Lemma sound_mark (a b : nat) (c c' : Connectivity) :
  sound c →
  mark a b false c = Ok c' →
  (0 < b → clean c b 0) →
  sound c'.
Proof.
  intros Hsound (Hop & Hconn & Hf)%only_pair_mark Hb.
  eapply sound_only_pair; [exact Hsound | exact Hop | exact Hf | | exact Hb |].
  - intros z _. by rewrite Hconn.
  - intros Hab. apply (closed_connectivity c); [done |].
    by apply Hsound.
Qed.

(** On a sound engine [build(d)] is called on a dirty pair (D, d) only. *)
Lemma needs_build_dirty (D d : nat) (c : Connectivity) :
  sound c → needs_build D d c = Ok true → at2 (m_dirty c) D d = Ok true.
Proof.
  intros (_ & _ & _ & _ & Hcol & _) H. unfold needs_build in H.
  destruct (Nat.eqb_spec d D), (Nat.eqb_spec d 0); simpl in H;
    try discriminate.
  step H as a Ha. destruct a; [done |].
  assert (clean c d 0) as Hd by (apply (Hcol D d); [lia | done]).
  unfold clean in Hd. congruence.
Qed.

(** The pair (D, 0) of a mesh dimension above 0 is clean. *)
Lemma sound_cells_clean (c : Connectivity) :
  sound c → 0 < getMeshDimension c → clean c (getMeshDimension c) 0.
Proof.
  intros (_ & _ & _ & Hpop & _) HD.
  destruct (getMeshDimension_populated c HD) as (n & Hn & Hpos).
  by apply (Hpop _ n).
Qed.

(** The first statement of [compute] keeps the engine sound. *)
Lemma prepare_top_sound (a0 : bool) (c ca : Connectivity) :
  sound c →
  (if a0
   then ct <- transpose 0 (getMeshDimension c) c ;;
        intersection (getMeshDimension c) (getMeshDimension c) 0 ct
   else Ok c) = Ok ca →
  sound ca.
Proof.
  intros Hsound Htop. set (D := getMeshDimension c) in *.
  destruct a0; [| by injection Htop as <-].
  step Htop as ct Ht.
  apply transpose_Ok in Ht as (Hlt & Hop1 & Hf1 & _).
  apply intersection_Ok in Htop as (_ & Hop2 & Hf2 & _).
  assert (clean c D 0) as HD0 by (by apply sound_cells_clean).
  assert (sound ct) as Hst.
  { eapply sound_only_pair; [exact Hsound | exact Hop1 | exact Hf1 | | |].
    - intros z Hz. eapply only_pair_column; [exact Hop1 |]. ne_pair.
    - done.
    - lia. }
  eapply sound_only_pair; [exact Hst | exact Hop2 | exact Hf2 | | |].
  - intros z Hz. eapply only_pair_column; [exact Hop2 |]. ne_pair.
  - intros _. by eapply clean_only_pair.
  - lia.
Qed.

(** The statements of [compute(a, b)] ahead of its derivation keep the
    engine sound and leave the pairs (D, a) and (D, b) clean. *)
Lemma prepare_sound (ke : KeyEquality) (a b : nat) (c c1 : Connectivity) :
  sound c →
  prepare ke (getMeshDimension c) a b c = Ok c1 →
  sound c1
  ∧ clean c1 (getMeshDimension c) a
  ∧ clean c1 (getMeshDimension c) b.
Proof.
  intros Hsound H. set (D := getMeshDimension c) in *. unfold prepare in H.
  step H as a0 Ha0. step H as ca Htop. step H as u1 Hu1.
  step H as b0 Hb0. step H as cb Hbuild. step H as u2 Hu2.
  step H as a1 Ha1. check H as Hclean1.
  step H as b' Hb'. step H as cc Hbuild'. step H as u3 Hu3.
  step H as a2 Ha2. check H as Hclean2. injection H as <-.
  pose proof (prepare_top _ _ _ _ Htop) as [HDa _]. fold D in HDa.
  assert (sound ca) as Hsa by (by eapply prepare_top_sound).
  assert (sound cb ∧ getMeshDimension cb = D) as [Hsb HDb].
  { destruct b0; [| by injection Hbuild as <-].
    pose proof (build_Ok _ _ _ _ Hbuild) as (_ & _ & HD' & _). split.
    - eapply build_sound; [exact Hsa | | exact Hbuild].
      rewrite HDa. by apply needs_build_dirty.
    - congruence. }
  assert (clean cb D a) as HDa'.
  { unfold assert_clean in Hu2. step Hu2 as f Hf. apply assert_Ok in Hu2.
    destruct f; [discriminate | exact Hf]. }
  assert (sound cc ∧ clean cc D a) as [Hsc HDc].
  { destruct b'; [| by injection Hbuild' as <-].
    pose proof (build_Ok _ _ _ _ Hbuild') as (_ & Hg & _ & Hf1 & Hf2). split.
    - eapply build_sound; [exact Hsb | | exact Hbuild'].
      rewrite HDb. by apply needs_build_dirty.
    - by eapply clean_grown. }
  split_and!; [done | done |].
  unfold assert_clean in Hu3. step Hu3 as f Hf. apply assert_Ok in Hu3.
  destruct f; [discriminate | exact Hf].
Qed.

(** [compute] keeps the engine sound. *)
Lemma compute_sound (ke : KeyEquality) (fuel a b : nat)
    (c c' : Connectivity) :
  sound c → compute ke fuel a b c = Ok c' → sound c'.
Proof.
  revert a b c c'. induction fuel as [| fuel IH]; intros a b c c' Hsound H;
    [discriminate |].
  simpl in H. set (D := getMeshDimension c) in *.
  destruct ((a =? D) && (b =? 0)) eqn:Hearly.
  { by injection H as <-. }
  step H as c1 Hprep. step H as flag Hflag. step H as c2 Hderive.
  pose proof (prepare_sound _ _ _ _ _ Hsound Hprep) as (Hs1 & HDa & HDb).
  fold D in HDa, HDb.
  apply prepare_Ok in Hprep as (HD1 & Hu1 & Ha0 & Hb0). fold D in HD1, Ha0, Hb0.
  assert (∀ z, 0 < z → (z = a ∨ z = b) → clean c1 z 0) as Hcol.
  { intros z Hz Hab. destruct (decide (z = D)) as [-> | HzD].
    - destruct (getMeshDimension_populated c1) as (n & Hn & Hpos);
        [rewrite HD1; lia |].
      rewrite HD1 in Hn.
      destruct Hs1 as (_ & _ & _ & Hpop & _). by apply (Hpop D n).
    - destruct Hab as [-> | ->]; [apply Ha0 | apply Hb0]; lia. }
  assert (sound c2 ∧ (0 < b → clean c2 b 0)) as [Hs2 Hb2].
  { destruct flag; [| injection Hderive as <-; split; [done |];
                      intros; apply Hcol; auto].
    destruct (Nat.ltb_spec a b) as [Hab | Hab].
    - step Hderive as ct Hrec.
      pose proof (IH _ _ _ _ Hs1 Hrec) as Hst.
      assert (clean ct b 0) as Hbt.
      { eapply compute_keeps_clean; [exact Hrec |]. apply Hcol; [lia | auto]. }
      apply transpose_Ok in Hderive as (_ & Hop & Hf & _). split.
      + eapply sound_only_pair; [exact Hst | exact Hop | exact Hf | | |].
        * intros z Hz. eapply only_pair_column; [exact Hop |]. ne_pair.
        * done.
        * lia.
      + intros _. by eapply clean_only_pair.
    - step Hderive as ct Hrec1. step Hderive as cu Hrec2.
      pose proof (IH _ _ _ _ Hs1 Hrec1) as Hst.
      pose proof (IH _ _ _ _ Hst Hrec2) as Hsu.
      assert (0 < b → clean cu b 0) as Hbu.
      { intros Hb. eapply compute_keeps_clean; [exact Hrec2 |].
        eapply compute_keeps_clean; [exact Hrec1 |]. apply Hcol; auto. }
      assert (b = 0 → a = 0) as Hvert.
      { intros ->. destruct (decide (a = 0)) as [| Hne]; [done |].
        destruct (Nat.eqb_spec a D) as [-> | HaD]; [discriminate |].
        assert (clean c1 a 0) as Hcl by (apply Ha0; done).
        unfold clean in Hcl. congruence. }
      pose proof (intersection_Ok _ _ _ _ _ Hderive) as (_ & Hop & Hf & Hspec).
      split.
      + eapply sound_only_pair; [exact Hsu | exact Hop | exact Hf | | done |].
        * intros z Hz. eapply only_pair_column; [exact Hop |].
          intros E. inversion E. subst. specialize (Hvert eq_refl). lia.
        * intros Hlt. assert (a ≠ D) as HaD.
          { intros ->. unfold clean in HDb. congruence. }
          unfold pivot in Hrec1, Hrec2, Hspec.
          destruct (Nat.eqb_spec a 0) as [? | _]; [lia |].
          simpl in Hrec1, Hrec2, Hspec.
          apply compute_frame in Hrec1 as (HDt & _ & Hlowt).
          apply compute_frame in Hrec2 as (HDu & _ & Hlowu).
          rewrite HD1 in HDt, Hlowt. rewrite HDt in Hlowu.
          assert (untouched c1 ct a b) as [Hconnt _]
            by (apply Hlowt; [done | done | ne_pair | ne_pair]).
          assert (untouched ct cu a b) as [Hconnu _]
            by (apply Hlowu; [done | done | ne_pair | ne_pair]).
          unfold closed. apply Hspec; [done |].
          intros i j (r & Hr & s & Hs & _). rewrite Hconnu, Hconnt in Hr.
          destruct Hs1 as (_ & _ & Hem & _). rewrite (Hem a b Hflag) in Hr.
          injection Hr as <-. discriminate.
      + intros Hb. eapply clean_only_pair; [exact Hop | exact Hf | auto]. }
  eapply sound_mark; [exact Hs2 | exact H | exact Hb2].
Qed.

(** *** The calls that declare the mesh *)

(** A fresh engine is sound once it is initialized. *)
Lemma initialize_sound (maximalDimension : nat) (c : Connectivity) :
  initialize maximalDimension construct = Ok c → sound c.
Proof.
  intros ->%initialize_Ok. cbn zeta. rewrite Nat.add_1_r.
  set (n := S maximalDimension).
  assert (resize n 0 (m_count construct) = replicate n 0) as ->
    by (unfold n; simpl; by rewrite resize_nil).
  assert (∀ x y b, at2 (replicate n (replicate n true)) x y = Ok b →
                   b = true ∧ x < n ∧ y < n) as Hdirty.
  { intros x y b (row & [-> Hx]%lookup_replicate & [-> Hy]%lookup_replicate)%at2_Ok.
    done. }
  assert (∀ x y, x < n → y < n →
                 at2 (replicate n (replicate n ([] : list (list nat)))) x y
                 = Ok []) as Hconn.
  { intros x y Hx Hy. apply at2_Ok. exists (replicate n []).
    split; by apply lookup_replicate_2. }
  unfold sound, aligned, clean, closed, related, incident;
    cbn [m_index m_count m_connectivity m_dirty]. split_and!.
  - by rewrite !length_replicate.
  - rewrite length_replicate. intros d Hd. exists [], 0, [].
    split_and!.
    + apply lookup_replicate_2. lia.
    + apply lookup_replicate_2. lia.
    + apply Hconn; lia.
    + done.
    + intros k id [].
  - intros x y (_ & Hx & Hy)%Hdirty. by apply Hconn.
  - intros z k Hz Hk Hpos.
    apply lookup_replicate in Hk as [-> _]. lia.
  - intros x y _ (? & _)%Hdirty. discriminate.
  - intros x y Hxy i j (r & Hr & s & Hs & _).
    apply at2_Ok in Hr as (row & [-> _]%lookup_replicate
                               & [-> _]%lookup_replicate).
    discriminate.
Qed.

(** [nodes] writes the count, the geometry count and the index of
    dimension 0 only. *)
Lemma nodes_frame (ke : KeyEquality) (count : nat) (c c' : Connectivity) :
  nodes ke count c = Ok c' →
  m_connectivity c' = m_connectivity c
  ∧ m_dirty c' = m_dirty c
  ∧ length (m_count c') = length (m_count c)
  ∧ length (m_index c') = length (m_index c)
  ∧ ∀ d, d ≠ 0 → m_count c' !! d = m_count c !! d
                 ∧ m_index c' !! d = m_index c !! d.
Proof.
  unfold nodes. intros H. step H as count' Hcount.
  apply put_Ok in Hcount as [Hlt ->].
  eapply (for_each_ind (λ s,
            m_connectivity s = m_connectivity c
            ∧ m_dirty s = m_dirty c
            ∧ length (m_count s) = length (m_count c)
            ∧ length (m_index s) = length (m_index c)
            ∧ ∀ d, d ≠ 0 → m_count s !! d = m_count c !! d
                           ∧ m_index s !! d = m_index c !! d));
    [| | exact H]; clear H.
  - intros s x s' _ (H1 & H2 & H3 & H4 & H5) H. unfold nodes_insert in H.
    step H as ix Hix.
    destruct (left_insert ke [x] x ix) as [[ix' e] inserted].
    step H as index' Hindex. apply put_Ok in Hindex as [_ ->].
    check H as Hins. injection H as <-. simpl. split_and!; try done.
    + by rewrite length_insert.
    + intros d Hd. destruct (H5 d Hd) as [H6 H7]. split; [done |].
      by rewrite list_lookup_insert_ne.
  - simpl. split_and!; try done.
    + by rewrite length_insert.
    + intros d Hd. split; [| done]. by rewrite list_lookup_insert_ne.
Qed.

Lemma nodes_sound (ke : KeyEquality) (count : nat) (c c' : Connectivity) :
  sound c → nodes ke count c = Ok c' → sound c'.
Proof.
  intros (Hsh & Hal & Hem & Hpop & Hcol & Hcl)
         (Hconn & Hdirty & Hlc & Hli & Hne)%nodes_frame.
  unfold sound, clean in *. rewrite Hconn, Hdirty, Hli, Hlc. split_and!.
  - done.
  - intros d Hd.
    destruct (Hal d Hd) as (ix & n & r & Hix & Hn & Hr & Hlen & Hall).
    destruct (Hne d) as [H1 H2]; [lia |].
    exists ix, n, r. rewrite Hconn.
    split_and!; [congruence | congruence | done | done | exact Hall].
  - done.
  - intros z n Hz Hn. destruct (Hne z) as [H1 _]; [lia |].
    apply Hpop; [done | congruence].
  - done.
  - intros x y Hxy. by apply (closed_connectivity c), Hcl.
Qed.

(** What a declaration leaves behind: the engine it was given, or one more
    entity of dimension [d] at the end of the tables of that dimension, with
    the pair (d, 0) marked clean. *)
Lemma polytope_Ok (ke : KeyEquality) (t : Polytope.Type_) (inp : list nat)
    (c c' : Connectivity) :
  polytope ke t inp c = Ok c' →
  let d := Polytope.getGeometryDimension t in
  c' = c
  ∨ ∃ ix cnt inc,
      0 < d
      ∧ m_index c !! d = Some ix
      ∧ m_count c !! d = Some cnt
      ∧ at2 (m_connectivity c) d 0 = Ok inc
      ∧ m_index c' = <[d := ix ++ [(inp, cnt)]]> (m_index c)
      ∧ m_count c' = <[d := cnt + 1]> (m_count c)
      ∧ at2 (m_connectivity c') d 0 = Ok (inc ++ [insert_unique inp []])
      ∧ clean c' d 0
      ∧ ∀ x y, (x, y) ≠ (d, 0) → untouched c c' x y.
Proof.
  intros H d. unfold polytope in H. fold d in H.
  check H as Hlen. check H as Hd. check H as Hmax.
  step H as ix Hix. step H as cnt Hcnt.
  destruct (left_insert ke inp cnt ix) as [[ix' [key id]] inserted] eqn:Hins.
  step H as index' Hindex. apply put_Ok in Hindex as [Hlt ->].
  apply at_Ok in Hix, Hcnt. apply Nat.ltb_lt in Hd.
  unfold left_insert in Hins.
  destruct inserted.
  - right.
    destruct (left_find ke inp ix); [by injection Hins |].
    destruct (right_find cnt ix); [by injection Hins |].
    injection Hins as <- <- <-.
    cbn [m_connectivity m_geometry m_count m_dirty m_index m_gcount
         m_maximalDimension with_index] in H.
    step H as inc Hinc. step H as conn Hconn. step H as geo Hgeo.
    step H as geometry' Hgeometry. step H as count' Hcount.
    step H as dirty' Hdirty. injection H as <-.
    apply put_Ok in Hcount as [_ ->].
    exists ix, cnt, inc. unfold clean, untouched.
    cbn [m_connectivity m_count m_dirty m_index].
    split_and!; try done.
    + by eapply at2_put2_eq.
    + by eapply at2_put2_eq.
    + intros x y Hne. split; by eapply at2_put2_ne.
  - left.
    assert (ix' = ix) as ->.
    { destruct (left_find ke inp ix); [by injection Hins |].
      destruct (right_find cnt ix); by injection Hins. }
    injection H as <-. rewrite list_insert_id by done. apply with_index_id.
Qed.

Lemma polytope_sound (ke : KeyEquality) (t : Polytope.Type_)
    (inp : list nat) (c c' : Connectivity) :
  sound c → polytope ke t inp c = Ok c' → sound c'.
Proof.
  intros Hsound H. apply polytope_Ok in H.
  set (d := Polytope.getGeometryDimension t) in *.
  destruct H as [-> | (ix & cnt & inc & Hd & Hix & Hcnt & Hinc & Hindex
                         & Hcount & Hconn & Hclean & Hu)]; [done |].
  destruct Hsound as (Hsh & Hal & Hem & Hpop & Hcol & Hcl).
  assert (∀ z i v, vertices c z i v → vertices c' z i v) as Hvert.
  { intros z i v (r & Hr & Hi). destruct (decide (z = d)) as [-> | Hne].
    - exists (inc ++ [insert_unique inp []]). split; [done |].
      apply lookup_app_l_Some. congruence.
    - exists r. split; [| done]. rewrite <- Hr. apply Hu. ne_pair. }
  split_and!.
  - by rewrite Hindex, Hcount, !length_insert.
  - intros z Hz. rewrite Hindex, length_insert in Hz.
    destruct (Hal z Hz) as (ix0 & n & r & Hix0 & Hn & Hr & Hlen & Hall).
    destruct (decide (z = d)) as [-> | Hne].
    + assert (ix0 = ix) as -> by congruence.
      assert (n = cnt) as -> by congruence.
      assert (r = inc) as -> by congruence.
      exists (ix ++ [(inp, cnt)]), (cnt + 1), (inc ++ [insert_unique inp []]).
      split_and!.
      * rewrite Hindex. apply list_lookup_insert_eq. by eapply lookup_lt_Some.
      * rewrite Hcount. apply list_lookup_insert_eq. by eapply lookup_lt_Some.
      * done.
      * rewrite length_app. simpl. lia.
      * intros k id [Hin | [[= <- <-] | []]]%in_app_or.
        -- destruct (Hall k id Hin) as (Hid & v & Hv & Hkv).
           split; [lia |]. exists v. split; [| done].
           by apply lookup_app_l_Some.
        -- split; [lia |]. exists (insert_unique inp []). split.
           ++ rewrite <- Hlen. apply list_lookup_middle. reflexivity.
           ++ intros x. rewrite In_insert_unique. simpl. tauto.
    + exists ix0, n, r. split_and!; try done.
      * rewrite Hindex. by rewrite list_lookup_insert_ne.
      * rewrite Hcount. by rewrite list_lookup_insert_ne.
      * rewrite <- Hr. apply Hu. ne_pair.
  - intros x y Hxy. destruct (decide ((x, y) = (d, 0))) as [[= -> ->] | Hne].
    + unfold clean in Hclean. congruence.
    + destruct (Hu x y Hne) as [H1 H2]. rewrite H1. apply Hem. by rewrite <- H2.
  - intros z n Hz Hn Hpos. destruct (decide (z = d)) as [-> | Hne]; [done |].
    rewrite Hcount, list_lookup_insert_ne in Hn by done.
    unfold clean. destruct (Hu z 0) as [_ ->]; [ne_pair |].
    by apply (Hpop z n).
  - intros x y Hy Hxy. destruct (decide (y = d)) as [-> | Hne]; [done |].
    unfold clean in *. destruct (Hu y 0) as [_ ->]; [ne_pair |].
    apply (Hcol x y Hy). rewrite <- Hxy. symmetry. apply Hu. ne_pair.
  - intros x y Hxy. apply (closed_frame c); [| auto | auto | by apply Hcl].
    apply Hu. ne_pair.
Qed.

(** Clearing a pair (d, dp) off the column of the vertices keeps the engine
    sound. *)
Lemma clear_sound (d dp : nat) (c c' : Connectivity) :
  sound c → dp ≠ 0 → clear d dp c = Ok c' → sound c'.
Proof.
  intros (Hsh & Hal & Hem & Hpop & Hcol & Hcl) Hdp H. unfold clear in H.
  check H as Hd. step H as row Hrow. check H as Hlt.
  step H as c1 Hmark. step H as conn Hconn. injection H as <-.
  apply only_pair_mark in Hmark as (Hop & Hconn1 & Hflag).
  destruct Hop as (_ & Hcount & _ & Hindex & _ & Hu).
  rewrite Hconn1 in Hconn.
  assert (∀ x y, (x, y) ≠ (d, dp) →
                 at2 conn x y = at2 (m_connectivity c) x y) as Hne
    by (intros x y; by eapply at2_put2_ne).
  assert (∀ z i v, vertices c z i v → vertices (with_connectivity conn c1) z i v)
    as Hvert.
  { intros z i v (r & Hr & Hi). exists r. split; [| done].
    simpl. rewrite Hne; [done | ne_pair]. }
  unfold sound, clean. cbn [with_connectivity m_index m_count m_dirty
                            m_connectivity].
  split_and!.
  - congruence.
  - intros z Hz. rewrite Hindex in Hz.
    destruct (Hal z Hz) as (ix0 & n & r & Hix0 & Hn & Hr & Hlen & Hall).
    exists ix0, n, r. cbn [with_connectivity m_index m_count m_connectivity].
    split_and!; try done; try congruence.
    rewrite Hne; [done | ne_pair].
  - intros x y Hxy. destruct (decide ((x, y) = (d, dp))) as [[= -> ->] | Hxy'].
    + by eapply at2_put2_eq.
    + rewrite Hne by done. apply Hem. rewrite <- Hxy. symmetry. by apply Hu.
  - intros z n Hz Hn Hpos. destruct (Hu z 0) as [_ ->]; [ne_pair |].
    apply (Hpop z n); [done | congruence | done].
  - intros x y Hy Hxy. destruct (Hu y 0) as [_ ->]; [ne_pair |].
    apply (Hcol x y Hy). unfold clean.
    destruct (decide ((x, y) = (d, dp))) as [[= -> ->] | Hxy'];
      [congruence |].
    rewrite <- Hxy. symmetry. by apply Hu.
  - intros x y Hxy. destruct (decide ((x, y) = (d, dp))) as [[= -> ->] | Hxy'].
    + intros i j (r & Hr & s & Hs & _). simpl in Hr.
      rewrite (at2_put2_eq _ _ _ _ _ Hconn) in Hr. injection Hr as <-.
      discriminate.
    + apply (closed_frame c); [| auto | auto | by apply Hcl].
      simpl. by apply Hne.
Qed.

(** A call that keeps the vertex sets keeps the engine sound. *)
Lemma perform_sound (ke : KeyEquality) (x : call) (c c' : Connectivity) :
  sound c → keeps_vertex_sets x → perform ke c x = Ok c' → sound c'.
Proof.
  intros Hsound Hx H. destruct x as [M | n | t v | fuel d dp | d dp];
    simpl in H.
  - destruct Hx.
  - by eapply nodes_sound.
  - by eapply polytope_sound.
  - by eapply compute_sound.
  - eapply clear_sound; [exact Hsound | | exact H].
    intros ->. exact Hx.
Qed.

Lemma for_each_sound (ke : KeyEquality) (calls : list call)
    (c c' : Connectivity) :
  Forall keeps_vertex_sets calls →
  sound c → for_each (perform ke) calls c = Ok c' → sound c'.
Proof.
  intros Hcalls. revert c.
  induction Hcalls as [| x calls Hx _ IH]; intros c Hsound H; simpl in H.
  - by injection H as <-.
  - step H as c1 Hc1. eapply IH; [| exact H]. by eapply perform_sound.
Qed.

(** C7, as the code has it. In the engine that a run leaves behind, a run
    that initializes a fresh engine and then declares vertices and cells,
    queries relations and clears pairs in any order, but never clears a pair
    (d, 0), every stored relation (d, dp) with [0 < dp < d] is closed: every
    entity [j] in the incidence set of an entity [i] has its (dp, 0) entry
    inside the (d, 0) entry of [i]. *)
Theorem stored_relations_are_closed (ke : KeyEquality)
    (maximalDimension : nat) (calls : list call) (c : Connectivity) :
  Forall keeps_vertex_sets calls →
  execute ke (Initialize maximalDimension :: calls) = Ok c →
  ∀ d dp, 0 < dp < d → closed c d dp.
Proof.
  intros Hcalls H. unfold execute in H.
  change ((c0 <- initialize maximalDimension construct ;;
           for_each (perform ke) calls c0) = Ok c) in H.
  step H as c0 Hinit.
  apply initialize_sound in Hinit.
  pose proof (for_each_sound _ _ _ _ Hcalls Hinit H) as (_ & _ & _ & _ & _ & Hcl).
  exact Hcl.
Qed.

Lemma stored_relations_are_closed_witness :
  execute VertexSet late_cell_rebuilt = Ok late_cell_rebuilt_state
  ∧ related late_cell_rebuilt_state 2 1 1 4
  ∧ closed late_cell_rebuilt_state 2 1.
Proof.
  split_and!.
  - vm_compute. reflexivity.
  - eexists. split; [vm_compute; reflexivity |].
    eexists. split; [reflexivity | simpl; auto].
  - apply (stored_relations_are_closed VertexSet 2 (tail late_cell_rebuilt)).
    + repeat (constructor; [exact I |]). constructor.
    + vm_compute. reflexivity.
    + lia.
Defined.

(** ** The depth of the calls of compute *)

Lemma Ok_returns {A : Type} (a : A) : returns (Ok a).
Proof. discriminate. Qed.

Lemma Abort_returns {A : Type} : returns (@Abort A).
Proof. discriminate. Qed.

Lemma bind_returns {A B : Type} (r : result A) (k : A → result B) :
  returns r → (∀ a, r = Ok a → returns (k a)) → returns (bind r k).
Proof. destruct r; simpl; [auto | discriminate | done]. Qed.

Lemma for_each_returns {St A : Type} (body : St → A → result St)
    (xs : list A) (s : St) :
  (∀ s x, returns (body s x)) → returns (for_each body xs s).
Proof.
  intros Hbody. revert s. induction xs as [| x xs IH]; intros s; simpl.
  - apply Ok_returns.
  - apply bind_returns; auto.
Qed.

Lemma assert_returns (b : bool) : returns (assert b).
Proof. by destruct b. Qed.

Lemma at_returns {A : Type} (v : list A) (i : nat) : returns (at_ v i).
Proof. unfold at_. by destruct (v !! i). Qed.

Lemma put_returns {A : Type} (v : list A) (i : nat) (x : A) :
  returns (put v i x).
Proof. unfold put. by destruct (i <? length v). Qed.

Create HintDb returns.
#[local] Hint Resolve Ok_returns Abort_returns assert_returns at_returns
  put_returns : returns.

(** One step through a sequence of statements none of which recurses. *)
Ltac returns_step :=
  first
    [ solve [auto with returns]
    | apply bind_returns; [| intros ? _]
    | apply for_each_returns; intros ? ?
    | match goal with
      | |- returns (match ?x with _ => _ end) => destruct x
      end ].

Ltac returns_tac := repeat returns_step.

Lemma at2_returns {A : Type} (m : list (list A)) (d dp : nat) :
  returns (at2 m d dp).
Proof. unfold at2. returns_tac. Qed.

Lemma put2_returns {A : Type} (m : list (list A)) (d dp : nat) (x : A) :
  returns (put2 m d dp x).
Proof. unfold put2. returns_tac. Qed.

#[local] Hint Resolve at2_returns put2_returns : returns.

Lemma mark_returns (d dp : nat) (b : bool) (c : Connectivity) :
  returns (mark d dp b c).
Proof. unfold mark. returns_tac. Qed.

Lemma incidence_insert_returns (d dp i j : nat) (c : Connectivity) :
  returns (incidence_insert d dp i j c).
Proof. unfold incidence_insert. returns_tac. Qed.

Lemma incidence_resize_returns (d dp : nat) (c : Connectivity) :
  returns (incidence_resize d dp c).
Proof. unfold incidence_resize. returns_tac. Qed.

Lemma assert_clean_returns (d dp : nat) (c : Connectivity) :
  returns (assert_clean d dp c).
Proof. unfold assert_clean. returns_tac. Qed.

#[local] Hint Resolve mark_returns incidence_insert_returns
  incidence_resize_returns assert_clean_returns : returns.

Lemma transpose_returns (d dp : nat) (c : Connectivity) :
  returns (transpose d dp c).
Proof. unfold transpose, transpose_row. returns_tac. Qed.

Lemma intersection_returns (d dp dpp : nat) (c : Connectivity) :
  returns (intersection d dp dpp c).
Proof.
  unfold intersection, intersection_row, intersection_through,
    intersection_visit.
  returns_tac.
Qed.

Lemma pick_returns (p ks : list nat) : returns (pick p ks).
Proof. induction ks as [| k ks IH]; simpl; returns_tac. Qed.

#[local] Hint Resolve transpose_returns intersection_returns pick_returns
  : returns.

Lemma subs_returns (p : list nat) (table : list (Polytope.Type_ * list nat)) :
  returns (subs p table).
Proof.
  induction table as [| [g ks] table IH]; simpl; returns_tac.
Qed.

Lemma right_at_returns (id : nat) (ix : list (list nat * nat)) :
  returns (right_at id ix).
Proof. unfold right_at. returns_tac. Qed.

#[local] Hint Resolve subs_returns right_at_returns : returns.

Lemma getSubPolytopes_returns (i dim : nat) (c : Connectivity) :
  returns (getSubPolytopes i dim c).
Proof. unfold getSubPolytopes. returns_tac. Qed.

Lemma local_insert_returns (ke : KeyEquality) (d D : nat)
    (acc : Connectivity * list nat) (sp : Polytope.Type_ * list nat) :
  returns (local_insert ke d D acc sp).
Proof. unfold local_insert. returns_tac. Qed.

#[local] Hint Resolve getSubPolytopes_returns local_insert_returns : returns.

Lemma local_returns (ke : KeyEquality) (i d : nat) (c : Connectivity) :
  returns (local ke i d c).
Proof. unfold local. returns_tac. Qed.

#[local] Hint Resolve local_returns : returns.

Lemma build_returns (ke : KeyEquality) (d : nat) (c : Connectivity) :
  returns (build ke d c).
Proof. unfold build. returns_tac. Qed.

Lemma needs_build_returns (D d : nat) (c : Connectivity) :
  returns (needs_build D d c).
Proof. unfold needs_build. returns_tac. Qed.

#[local] Hint Resolve build_returns needs_build_returns : returns.

Lemma prepare_returns (ke : KeyEquality) (D d dp : nat) (c : Connectivity) :
  returns (prepare ke D d dp c).
Proof. unfold prepare. returns_tac. Qed.

#[local] Hint Resolve prepare_returns : returns.

(** One unfolding of [compute]. *)
Lemma compute_S (ke : KeyEquality) (fuel d dp : nat) (c : Connectivity) :
  compute ke (S fuel) d dp c =
    let D := getMeshDimension c in
    if (d =? D) && (dp =? 0) then Ok c
    else
      c <- prepare ke D d dp c ;;
      a <- at2 (m_dirty c) d dp ;;
      c <- (if a then
              if d <? dp then
                c <- compute ke fuel dp d c ;;
                transpose d dp c
              else
                c <- compute ke fuel d (pivot D d dp) c ;;
                c <- compute ke fuel (pivot D d dp) dp c ;;
                intersection d dp (pivot D d dp) c
            else Ok c) ;;
      mark d dp false c.
Proof. reflexivity. Qed.

(** [compute(a, 0)] with [a > 0] calls itself no further. *)
Lemma compute_column_returns (ke : KeyEquality) (fuel a : nat)
    (c : Connectivity) :
  a ≠ 0 → returns (compute ke (S fuel) a 0 c).
Proof.
  intros Ha. rewrite compute_S. cbn zeta.
  destruct (Nat.eqb_spec a (getMeshDimension c)) as [| HaD]; simpl;
    [apply Ok_returns |].
  apply bind_returns; [auto with returns |]. intros c1 Hprep.
  apply prepare_Ok in Hprep as (_ & _ & Hclean & _).
  rewrite (Hclean HaD Ha). cbn [bind]. auto with returns.
Qed.

(** [compute(0, b)] with [b > 0] calls [compute(b, 0)]. *)
Lemma compute_row_returns (ke : KeyEquality) (fuel b : nat)
    (c : Connectivity) :
  b ≠ 0 → returns (compute ke (S (S fuel)) 0 b c).
Proof.
  intros Hb. rewrite compute_S. cbn zeta.
  destruct (Nat.eqb_spec b 0) as [| _]; [done |]. rewrite andb_false_r.
  apply bind_returns; [auto with returns |]. intros c1 _.
  apply bind_returns; [auto with returns |]. intros flag _.
  apply bind_returns; [| auto with returns].
  destruct flag; [| apply Ok_returns].
  destruct (Nat.ltb_spec 0 b); [| lia].
  apply bind_returns; [| auto with returns].
  by apply compute_column_returns.
Qed.

(** [compute(a, b)] with [a >= b > 0] calls [compute(a, 0)] and
    [compute(0, b)]. *)
Lemma compute_lower_returns (ke : KeyEquality) (fuel a b : nat)
    (c : Connectivity) :
  0 < b ≤ a → returns (compute ke (S (S (S fuel))) a b c).
Proof.
  intros Hab. rewrite compute_S. cbn zeta.
  destruct (Nat.eqb_spec b 0) as [| _]; [lia |]. rewrite andb_false_r.
  apply bind_returns; [auto with returns |]. intros c1 _.
  apply bind_returns; [auto with returns |]. intros flag _.
  apply bind_returns; [| auto with returns].
  destruct flag; [| apply Ok_returns].
  destruct (Nat.ltb_spec a b); [lia |].
  unfold pivot. destruct (Nat.eqb_spec a 0) as [| _]; [lia |]. simpl andb.
  cbn iota.
  apply bind_returns; [apply compute_column_returns; lia |]. intros ct _.
  apply bind_returns; [apply compute_row_returns; lia |]. intros cu _.
  auto with returns.
Qed.

(** [compute(0, 0)] calls [compute(0, D)] and [compute(D, 0)]. *)
Lemma compute_vertices_returns (ke : KeyEquality) (fuel : nat)
    (c : Connectivity) :
  returns (compute ke (S (S (S fuel))) 0 0 c).
Proof.
  rewrite compute_S. cbn zeta.
  destruct (Nat.eqb_spec 0 (getMeshDimension c)) as [| HD]; simpl andb;
    cbn iota; [apply Ok_returns |].
  apply bind_returns; [auto with returns |]. intros c1 _.
  apply bind_returns; [auto with returns |]. intros flag _.
  apply bind_returns; [| auto with returns].
  destruct flag; [| apply Ok_returns].
  change (0 <? 0) with false. cbn iota.
  change (pivot (getMeshDimension c) 0 0) with (getMeshDimension c).
  apply bind_returns; [apply compute_row_returns; lia |]. intros ct _.
  apply bind_returns; [apply compute_column_returns; lia |]. intros cu _.
  auto with returns.
Qed.

(** The calls of [compute] are at most four deep: whatever the engine and
    the pair, [compute] comes back, with a result or by a failed
    assertion. *)
Lemma compute_returns (ke : KeyEquality) (fuel a b : nat) (c : Connectivity) :
  returns (compute ke (4 + fuel) a b c).
Proof.
  destruct (Nat.lt_ge_cases a b) as [Hab | Hab].
  - change (4 + fuel) with (S (3 + fuel)). rewrite compute_S. cbn zeta.
    destruct (Nat.eqb_spec b 0) as [| _]; [lia |]. rewrite andb_false_r.
    apply bind_returns; [auto with returns |]. intros c1 _.
    apply bind_returns; [auto with returns |]. intros flag _.
    apply bind_returns; [| auto with returns].
    destruct flag; [| apply Ok_returns].
    destruct (Nat.ltb_spec a b); [| lia].
    apply bind_returns; [| auto with returns].
    destruct (decide (a = 0)) as [-> | Ha].
    + apply compute_column_returns. lia.
    + apply compute_lower_returns. lia.
  - destruct (decide (b = 0)) as [-> | Hb].
    + destruct (decide (a = 0)) as [-> | Ha].
      * apply compute_vertices_returns.
      * by apply compute_column_returns.
    + apply compute_lower_returns. lia.
Qed.

(** More depth than [compute] needs changes nothing. *)
Lemma compute_deeper (ke : KeyEquality) (fuel a b : nat) (c : Connectivity) :
  returns (compute ke fuel a b c) →
  compute ke (S fuel) a b c = compute ke fuel a b c.
Proof.
  revert a b c. induction fuel as [| fuel IH]; intros a b c H; [done |].
  rewrite (compute_S ke (S fuel)). rewrite compute_S in H |- *.
  cbn zeta in *. set (D := getMeshDimension c) in *.
  destruct ((a =? D) && (b =? 0)); [done |].
  destruct (prepare ke D a b c) as [c1 | |]; cbn [bind] in *; [| done | done].
  destruct (at2 (m_dirty c1) a b) as [flag | |]; cbn [bind] in *;
    [| done | done].
  destruct flag; [| done].
  destruct (a <? b).
  - rewrite IH; [done |]. intros E. rewrite E in H. by apply H.
  - rewrite IH; [| intros E; rewrite E in H; by apply H].
    destruct (compute ke fuel a (pivot D a b) c1) as [ct | |]; cbn [bind] in *;
      [| done | done].
    rewrite IH; [done |]. intros E. rewrite E in H. by apply H.
Qed.

(** From depth four on the outcome of [compute] is the same. *)
Lemma compute_depth (ke : KeyEquality) (fuel a b : nat) (c : Connectivity) :
  compute ke (4 + fuel) a b c = compute ke 4 a b c.
Proof.
  induction fuel as [| fuel IH]; [done |].
  rewrite <- IH. replace (4 + S fuel) with (S (4 + fuel)) by lia.
  apply compute_deeper, compute_returns.
Qed.

(** ** Mirrored relations *)

Lemma with_dirty_id (c : Connectivity) : with_dirty (m_dirty c) c = c.
Proof. by destruct c. Qed.

(** Marking a clean pair clean changes nothing. *)
Lemma mark_clean_id (a b : nat) (c c' : Connectivity) :
  clean c a b → mark a b false c = Ok c' → c' = c.
Proof.
  unfold clean, mark. intros (row & Hrow & Hb)%at2_Ok H.
  step H as dirty Hd. injection H as <-.
  apply put2_Ok in Hd as (row' & Hrow' & _ & ->).
  assert (row' = row) as -> by congruence.
  rewrite (list_insert_id row), list_insert_id by done. apply with_dirty_id.
Qed.



(** [transpose(d, dp)] finds a flag for the pair (d, dp). *)
Lemma transpose_flag (d dp : nat) (c c' : Connectivity) :
  transpose d dp c = Ok c' → ∃ b, at2 (m_dirty c) d dp = Ok b.
Proof.
  unfold transpose. intros H.
  check H as Hlt. check H as Hb1. step H as row Hrow. check H as Hb2.
  step H as c1 Hresize. step H as n Hn. step H as c2 Hloop.
  apply incidence_resize_Ok in Hresize as (_ & Hd1 & _).
  assert (m_dirty c2 = m_dirty c1) as Hd2.
  { eapply (for_each_ind (λ s, m_dirty s = m_dirty c1) _ _ c1);
      [| done | exact Hloop].
    intros s j s' _ Hs Hbody. unfold transpose_row in Hbody.
    step Hbody as rel Hrel. step Hbody as is_ His.
    eapply (for_each_ind (λ s, m_dirty s = m_dirty c1) _ _ s);
      [| exact Hs | exact Hbody].
    intros s1 i s2 _ Hs1 (_ & Hs2 & _)%incidence_insert_Ok. congruence. }
  unfold mark in H. step H as dirty Hdirty.
  apply put2_Ok in Hdirty as (r & Hr & Hlen & _).
  rewrite Hd2, Hd1 in Hr.
  destruct (lookup_lt_is_Some_2 r dp Hlen) as [b Hb].
  exists b. apply at2_Ok. eauto.
Qed.






(** *** Runs that declare the mesh before they query it *)


Lemma initialize_unqueried (maximalDimension : nat) (c0 c : Connectivity) :
  initialize maximalDimension c0 = Ok c → unqueried c.
Proof.
  intros ->%initialize_Ok x y Hxy. unfold clean in Hxy.
  cbn [m_dirty] in Hxy.
  apply at2_Ok in Hxy as (row & [-> _]%lookup_replicate
                              & [? _]%lookup_replicate).
  discriminate.
Qed.


Lemma nodes_unqueried (ke : KeyEquality) (count : nat) (c c' : Connectivity) :
  unqueried c → nodes ke count c = Ok c' → unqueried c'.
Proof.
  intros Hc (_ & Hdirty & _)%nodes_frame x y. unfold clean. rewrite Hdirty.
  apply Hc.
Qed.

Lemma polytope_unqueried (ke : KeyEquality) (t : Polytope.Type_)
    (inp : list nat) (c c' : Connectivity) :
  unqueried c → polytope ke t inp c = Ok c' → unqueried c'.
Proof.
  intros Hc H. apply polytope_Ok in H.
  destruct H as [-> | (ix & cnt & inc & Hd & _ & _ & _ & _ & _ & _ & _ & Hu)];
    [done |].
  intros x y Hxy.
  destruct (decide ((x, y) = (Polytope.getGeometryDimension t, 0)))
    as [E | Hne].
  - inversion E. subst. done.
  - apply Hc. unfold clean in *. rewrite <- Hxy. symmetry. by apply Hu.
Qed.

(** What [clear(d, dp)] leaves behind. *)
Lemma clear_Ok (d dp : nat) (c c' : Connectivity) :
  clear d dp c = Ok c' →
  only_pair d dp c c'
  ∧ at2 (m_dirty c') d dp = Ok true
  ∧ at2 (m_connectivity c') d dp = Ok [].
Proof.
  unfold clear. intros H.
  check H as Hd. step H as row Hrow. check H as Hlt.
  step H as c1 Hmark. step H as conn Hconn. injection H as <-.
  apply only_pair_mark in Hmark as (Hop & Hconn1 & Hflag).
  split_and!.
  - eapply only_pair_trans; [exact Hop |]. by eapply only_pair_connectivity.
  - exact Hflag.
  - simpl. by eapply at2_put2_eq.
Qed.


Lemma declares_sound (ke : KeyEquality) (calls : list call)
    (c c' : Connectivity) :
  Forall declares calls →
  sound c → unqueried c →
  for_each (perform ke) calls c = Ok c' →
  sound c' ∧ unqueried c'.
Proof.
  intros Hcalls. revert c.
  induction Hcalls as [| x calls Hx _ IH]; intros c Hsound Hun H; simpl in H.
  - by injection H as <-.
  - step H as c1 Hc1. destruct x as [M | n | t v | fuel d dp | d dp];
      simpl in Hx; try done; simpl in Hc1.
    + eapply IH; [| | exact H]; [by eapply nodes_sound |].
      by eapply nodes_unqueried.
    + eapply IH; [| | exact H]; [by eapply polytope_sound |].
      by eapply polytope_unqueried.
Qed.


(** ** Bounded relations *)




(** [build(a)] appends one entry for each cell to the relation (D, a). *)
Lemma build_rows (ke : KeyEquality) (a : nat) (c c' : Connectivity)
    (r0 : list (list nat)) :
  build ke a c = Ok c' →
  aligned c a →
  at2 (m_connectivity c) (getMeshDimension c) a = Ok r0 →
  ∃ r n, at2 (m_connectivity c') (getMeshDimension c) a = Ok r
         ∧ m_count c !! getMeshDimension c = Some n
         ∧ length r = length r0 + n.
Proof.
  unfold build. intros H Hal Hr0. set (D := getMeshDimension c) in *.
  check H as H0. check H as HD. apply Nat.ltb_lt in H0, HD.
  step H as u1 Hc1. step H as u2 Hc2. step H as n Hn.
  step H as c1 Hloop. step H as c2 Hmark. apply at_Ok in Hn.
  set (I := λ (k : nat) (s : Connectivity),
         aligned s a
         ∧ getMeshDimension s = D
         ∧ ∃ r, at2 (m_connectivity s) D a = Ok r ∧ length r = length r0 + k).
  assert (I (0 + n) c1) as (_ & _ & r1 & Hr1 & Hlen1).
  { eapply (for_each_seq I _ 0 n c); [| | exact Hloop].
    - intros k s s' _ (Hals & HDs & r & Hr & Hlen) Hlocal.
      pose proof (local_grown _ _ _ _ _ Hlocal) as (Ha & Hg & _).
      apply local_listed in Hlocal
        as (p & s0 & r' & _ & Hr' & Hr'' & Hals' & _); [| exact Hals].
      rewrite HDs in *. split_and!.
      + exact Hals'.
      + rewrite <- HDs. eapply grown_getMeshDimension; [exact Hg | lia].
      + exists (r' ++ [s0]). split; [exact Hr'' |].
        rewrite length_app. simpl. assert (r' = r) as -> by congruence. lia.
    - split_and!; [done | done |]. exists r0. split; [done | lia]. }
  apply only_pair_mark in Hmark as (_ & Hconn2 & _).
  apply only_pair_mark in H as (_ & Hconn3 & _).
  exists r1, n. split_and!; [by rewrite Hconn3, Hconn2 | done | done].
Qed.

(** [build(a)] does not lower the count of dimension [a]. *)
Lemma build_count (ke : KeyEquality) (a n n' : nat) (c c' : Connectivity) :
  build ke a c = Ok c' →
  aligned c a →
  m_count c !! a = Some n →
  m_count c' !! a = Some n' →
  n ≤ n'.
Proof.
  intros H Hal Hn Hn'.
  destruct (build_aligned _ _ _ _ H Hal) as [Hal' Hmono].
  destruct Hal as (ix & m & r & _ & Hm & Hr & Hlen & _).
  destruct Hal' as (ix' & m' & r' & _ & Hm' & Hr' & Hlen' & _).
  assert (m = n) as -> by congruence. assert (m' = n') as -> by congruence.
  destruct n as [| j]; [lia |].
  destruct (lookup_lt_is_Some_2 r j) as [v Hv]; [lia |].
  destruct (Hmono j v) as (r'' & Hr'' & Hv'); [by exists r |].
  assert (r'' = r') as -> by congruence.
  apply lookup_lt_Some in Hv'. lia.
Qed.




(** *** Runs and bounded relations *)










(** * Further properties *)

(** ** The mesh dimension *)

Lemma highest_populated_highest (n d m : nat) (l : list nat) :
  d < n → l !! d = Some m → 0 < m → d ≤ highest_populated n l.
Proof.
  induction n as [| n IH]; simpl; [lia |]. intros Hd Hl Hm.
  destruct (decide (d = n)) as [-> | Hne].
  - rewrite Hl. destruct (Nat.ltb_spec 0 m); lia.
  - assert (d ≤ highest_populated n l) by (apply IH; [lia | done | done]).
    destruct (l !! n) as [k |]; [destruct (0 <? k) |]; lia.
Qed.

(** X1. [getMeshDimension] is the highest dimension that counts an entity:
    every populated dimension is at most [D], and [D] is populated unless it
    is 0. It is 0 both for an engine that counts nothing and for one that
    counts vertices only. *)
Theorem getMeshDimension_is_highest_populated (c : Connectivity) :
  (∀ d n, getCount d c = Ok n → 0 < n → d ≤ getMeshDimension c)
  ∧ (0 < getMeshDimension c →
     ∃ n, getCount (getMeshDimension c) c = Ok n ∧ 0 < n)
  ∧ ((∀ d n, getCount d c = Ok n → 0 < n → d = 0) → getMeshDimension c = 0).
Proof.
  assert (0 < getMeshDimension c →
          ∃ n, getCount (getMeshDimension c) c = Ok n ∧ 0 < n) as Hpop.
  { intros HD. destruct (getMeshDimension_populated c HD) as (n & Hn & Hpos).
    exists n. split; [by apply at_Ok | done]. }
  split_and!; [| exact Hpop |].
  - intros d n Hn%at_Ok Hpos. unfold getMeshDimension.
    eapply highest_populated_highest; [by eapply lookup_lt_Some | done | done].
  - intros Hzero. destruct (decide (getMeshDimension c = 0)) as [| Hne];
      [done |].
    destruct Hpop as (n & Hn & Hpos); [lia |]. by eapply Hzero.
Qed.

(** ** Calls out of order *)



Lemma left_find_app (ke : KeyEquality) (key : list nat)
    (ix ix' : list (list nat * nat)) (e : list nat * nat) :
  left_find ke key ix = Some e → left_find ke key (ix ++ ix') = Some e.
Proof. unfold left_find. apply find_app_Some. Qed.

(** One round of the loop of [nodes] adds to the index of dimension 0, at
    its end. *)
Lemma nodes_insert_Ok (ke : KeyEquality) (i : nat) (c c' : Connectivity) :
  nodes_insert ke c i = Ok c' →
  ∃ ix, m_index c !! 0 = Some ix
        ∧ m_index c' !! 0 = Some (ix ++ [([i], i)]).
Proof.
  unfold nodes_insert. intros H. step H as ix Hix. apply at_Ok in Hix.
  unfold left_insert in H.
  destruct (left_find ke [i] ix) as [e |].
  { step H as index' Hindex. check H as Hins. discriminate. }
  destruct (right_find i ix) as [e |].
  { step H as index' Hindex. check H as Hins. discriminate. }
  step H as index' Hindex. check H as Hins. injection H as <-.
  apply put_Ok in Hindex as [Hlt ->]. exists ix. split; [done |].
  simpl. by apply list_lookup_insert_eq.
Qed.

(** X3. [nodes] can declare vertices once: after a call that declared at
    least one vertex, a second call with a positive count fails the
    assertion of its first insertion, the key of vertex 0 being in the
    index already. *)
Theorem nodes_twice_aborts (ke : KeyEquality) (n m : nat)
    (c c1 : Connectivity) :
  0 < n → 0 < m → nodes ke n c = Ok c1 → nodes ke m c1 = Abort.
Proof.
  intros Hn Hm H.
  assert (∃ ix e, m_index c1 !! 0 = Some ix ∧ left_find ke [0] ix = Some e)
    as (ix & e & Hix & He).
  { unfold nodes in H. step H as count' Hcount.
    destruct n as [| n]; [lia |]. cbn [seq for_each] in H.
    step H as c0 Hfirst.
    apply nodes_insert_Ok in Hfirst as (ix0 & Hix0 & Hix0').
    eapply (for_each_ind
              (λ s, ∃ ix e, m_index s !! 0 = Some ix
                            ∧ left_find ke [0] ix = Some e) _ _ c0);
      [| | exact H].
    - intros s i s' _ (ix & e & Hix & He) (ix' & Hix' & Hs')%nodes_insert_Ok.
      assert (ix' = ix) as -> by congruence.
      exists (ix ++ [([i], i)]), e. split; [done | by apply left_find_app].
    - destruct (left_find ke [0] ix0) as [e |] eqn:He.
      + exists (ix0 ++ [([0], 0)]), e. split; [done | by apply left_find_app].
      + exists (ix0 ++ [([0], 0)]), ([0], 0).
        split; [done | by apply left_find_inserted]. }
  assert (0 < length (m_count c1)) as Hlen.
  { unfold nodes in H. step H as count' Hcount.
    apply put_Ok in Hcount as [Hlt ->].
    assert (length (m_count c1) = length (<[0 := n]> (m_count c))) as ->.
    { eapply (for_each_ind (λ s, length (m_count s)
                                 = length (<[0 := n]> (m_count c))));
        [| | exact H]; [| done].
      intros s i s' _ Hs Hbody. unfold nodes_insert in Hbody.
      step Hbody as ix0 Hix0.
      destruct (left_insert ke [i] i ix0) as [[ix' e'] ins].
      step Hbody as index' Hindex. check Hbody as Hins.
      by injection Hbody as <-. }
    by rewrite length_insert. }
  unfold nodes.
  assert (put (m_count c1) 0 m = Ok (<[0 := m]> (m_count c1))) as ->
    by (by apply put_Ok).
  cbn [bind]. destruct m as [| m]; [lia |]. cbn [seq for_each].
  unfold nodes_insert at 1. cbn [with_count with_gcount m_index].
  apply at_Ok in Hix. rewrite Hix. cbn [bind].
  rewrite (left_insert_found _ _ _ _ _ He). destruct e as [k id].
  assert (put (m_index c1) 0 ix = Ok (<[0 := ix]> (m_index c1))) as ->.
  { apply put_Ok. split; [| done]. apply at_Ok in Hix.
    by eapply lookup_lt_Some. }
  reflexivity.
Qed.

Lemma nodes_twice_aborts_witness :
  nodes VertexSet 2 (state_of (run [initialize 2; nodes VertexSet 4])) = Abort.
Proof.
  apply (nodes_twice_aborts VertexSet 4 2
           (state_of (initialize 2 construct))); [lia | lia |].
  vm_compute. reflexivity.
Defined.

(** ** Stored relations set from outside *)

(** X4. [setIncidence((d, dp), inc)] succeeds exactly when
    [getIncidence(d, dp)] does; [getIncidence(d, dp)] then returns [inc],
    every other pair reads as before, and the dirty flags - the flag of
    (d, dp) included -, the counts and the indices are as they were. *)
Theorem setIncidence_then_getIncidence (d dp : nat) (inc : list (list nat))
    (c : Connectivity) :
  ((∃ c', setIncidence (d, dp) inc c = Ok c')
   ↔ ∃ old, getIncidence d dp c = Ok old)
  ∧ ∀ c', setIncidence (d, dp) inc c = Ok c' →
      getIncidence d dp c' = Ok inc
      ∧ (∀ x y, (x, y) ≠ (d, dp) → getIncidence x y c' = getIncidence x y c)
      ∧ m_dirty c' = m_dirty c
      ∧ m_count c' = m_count c
      ∧ m_index c' = m_index c.
Proof.
  assert (∀ m x y, (∃ r : list (list nat),
            (_ <- assert (x <? length m) ;;
             row <- at_ m x ;;
             _ <- assert (y <? length row) ;;
             at_ row y) = Ok r)
          ↔ ∃ r, at2 m x y = Ok r) as Hget.
  { intros m x y. split.
    - intros (r & H). check H as H1. step H as row Hrow. check H as H2.
      exists r. unfold at2. by rewrite Hrow.
    - intros (r & (row & Hrow & Hr)%at2_Ok). exists r.
      rewrite (assert_true (x <? length m))
        by (apply Nat.ltb_lt; by eapply lookup_lt_Some).
      cbn [bind]. apply at_Ok in Hrow. rewrite Hrow. cbn [bind].
      rewrite (assert_true (y <? length row))
        by (apply Nat.ltb_lt; by eapply lookup_lt_Some).
      cbn [bind]. by apply at_Ok. }
  assert (∀ m x y, (_ <- assert (x <? length m) ;;
                    row <- at_ m x ;;
                    _ <- assert (y <? length row) ;;
                    at_ row y) = at2 (A := list (list nat)) m x y) as Heq.
  { intros m x y. unfold at2, at_.
    destruct (m !! x) as [row |] eqn:Hrow.
    - rewrite (assert_true (x <? length m))
        by (apply Nat.ltb_lt; by eapply lookup_lt_Some).
      cbn [bind]. destruct (row !! y) as [r |] eqn:Hr.
      + rewrite (assert_true (y <? length row))
          by (apply Nat.ltb_lt; by eapply lookup_lt_Some).
        done.
      + by destruct (y <? length row).
    - by destruct (x <? length m). }
  split.
  - unfold setIncidence, getIncidence. cbn [fst snd]. rewrite Heq. split.
    + intros (c' & H). check H as H1. step H as row Hrow. check H as H2.
      apply at_Ok in Hrow. apply Nat.ltb_lt in H2.
      destruct (lookup_lt_is_Some_2 row dp H2) as [old Hold].
      exists old. apply at2_Ok. eauto.
    + intros (old & Hold).
      destruct (put2_total _ _ _ _ inc Hold) as (conn & Hconn).
      apply at2_Ok in Hold as (row & Hrow & Hdp).
      rewrite (assert_true (d <? _))
        by (apply Nat.ltb_lt; by eapply lookup_lt_Some).
      cbn [bind]. apply at_Ok in Hrow. rewrite Hrow. cbn [bind].
      rewrite (assert_true (dp <? _))
        by (apply Nat.ltb_lt; by eapply lookup_lt_Some).
      cbn [bind]. rewrite Hconn. eauto.
  - intros c' H. unfold setIncidence in H. cbn [fst snd] in H.
    check H as H1. step H as row Hrow. check H as H2.
    step H as conn Hconn. injection H as <-.
    unfold getIncidence. cbn [with_connectivity m_connectivity m_dirty
                              m_count m_index].
    split_and!; try reflexivity.
    + rewrite Heq. by eapply at2_put2_eq.
    + intros x y Hne. rewrite !Heq. by eapply at2_put2_ne.
Qed.

(** ** Sub-polytopes of dimension 0 *)

(** X5. The sub-polytopes of dimension 0 of a cell that is not a point are
    its vertices, one [Point] for each entry of the key of the cell and in
    the order of the key. For a cell of geometry [Point], whose key must be
    empty, the one sub-polytope is the identifier of the cell. *)
Theorem getSubPolytopes_lists_vertices (i : nat) (c : Connectivity)
    (out : list (Polytope.Type_ * list nat)) :
  getSubPolytopes i 0 c = Ok out →
  ∃ p g,
    getPolytope (getMeshDimension c) i c = Ok p
    ∧ at2 (m_geometry c) (getMeshDimension c) i = Ok g
    ∧ out = match g with
            | Polytope.Point => [(Polytope.Point, [i])]
            | _ => (λ v, (Polytope.Point, [v])) <$> p
            end
    ∧ (g = Polytope.Point → p = []).
Proof.
  unfold getSubPolytopes, getPolytope. intros H.
  step H as ix Hix. step H as p Hp. step H as g Hg.
  exists p, g. rewrite Hix. cbn [bind].
  split_and!; [done | done | |].
  - destruct g; check H as Hdim; check H as Hlen;
      apply Nat.eqb_eq in Hlen;
      repeat (destruct p as [| ? p]; try discriminate Hlen);
      simpl in H; by injection H as <-.
  - intros ->. check H as Hdim. check H as Hlen.
    apply Nat.eqb_eq in Hlen. by destruct p.
Qed.

Lemma getSubPolytopes_lists_vertices_witness :
  ∃ p g,
    getPolytope (getMeshDimension two_triangles_state) 1 two_triangles_state
    = Ok p
    ∧ at2 (m_geometry two_triangles_state)
        (getMeshDimension two_triangles_state) 1 = Ok g
    ∧ [(Polytope.Point, [1]); (Polytope.Point, [2]); (Polytope.Point, [3])]
      = match g with
        | Polytope.Point => [(Polytope.Point, [1])]
        | _ => (λ v, (Polytope.Point, [v])) <$> p
        end
    ∧ (g = Polytope.Point → p = []).
Proof.
  apply (getSubPolytopes_lists_vertices 1 two_triangles_state).
  vm_compute. reflexivity.
Defined.

(** ** Generators *)

(** X6. A bounded generator whose cursor has not passed its end yields the
    indices from the cursor up to the end, in order, and then is at its end;
    every dereference on the way succeeds, and a moved generator yields the
    same indices. *)
Theorem bounded_generator_counts_up (g : BoundedIndexGenerator.t)
    (fuel : nat) :
  BoundedIndexGenerator.m_curr g ≤ BoundedIndexGenerator.m_end g →
  BoundedIndexGenerator.m_end g - BoundedIndexGenerator.m_curr g ≤ fuel →
  let n := BoundedIndexGenerator.m_end g - BoundedIndexGenerator.m_curr g in
  BoundedIndexGenerator.remaining fuel g
  = seq (BoundedIndexGenerator.m_curr g) n
  ∧ BoundedIndexGenerator.remaining fuel (BoundedIndexGenerator.move g)
    = seq (BoundedIndexGenerator.m_curr g) n
  ∧ (∀ k, k < n →
       BoundedIndexGenerator.deref (Nat.iter k BoundedIndexGenerator.next g)
       = Ok (BoundedIndexGenerator.m_curr g + k))
  ∧ BoundedIndexGenerator.end_ (Nat.iter n BoundedIndexGenerator.next g)
    = true.
Proof.
  intros Hle Hfuel n.
  assert (∀ k, Nat.iter k BoundedIndexGenerator.next g
               = BoundedIndexGenerator.mk (BoundedIndexGenerator.m_start g)
                   (BoundedIndexGenerator.m_end g)
                   (BoundedIndexGenerator.m_curr g + k)) as Hiter.
  { induction k as [| k IH]; simpl.
    - destruct g. simpl. by rewrite Nat.add_0_r.
    - rewrite IH. unfold BoundedIndexGenerator.next. simpl. f_equal. lia. }
  assert (BoundedIndexGenerator.remaining fuel g
          = seq (BoundedIndexGenerator.m_curr g) n) as Hrem.
  { subst n. clear Hiter. revert g Hle Hfuel.
    induction fuel as [| fuel IH]; intros g Hle Hfuel.
    - simpl. by replace (_ - _) with 0 by lia.
    - simpl. unfold BoundedIndexGenerator.end_.
      destruct (Nat.eqb_spec (BoundedIndexGenerator.m_curr g)
                  (BoundedIndexGenerator.m_end g)) as [E | Hne].
      + rewrite E, Nat.sub_diag. reflexivity.
      + rewrite IH; simpl; [| lia | lia].
        replace (BoundedIndexGenerator.m_end g
                 - BoundedIndexGenerator.m_curr g)
          with (S (BoundedIndexGenerator.m_end g
                   - (BoundedIndexGenerator.m_curr g + 1))) by lia.
        simpl. by rewrite Nat.add_1_r. }
  split_and!.
  - exact Hrem.
  - unfold BoundedIndexGenerator.move, BoundedIndexGenerator.move_from.
    by destruct g.
  - intros k Hk. rewrite Hiter. unfold BoundedIndexGenerator.deref,
      BoundedIndexGenerator.end_. simpl.
    destruct (Nat.eqb_spec (BoundedIndexGenerator.m_curr g + k)
                (BoundedIndexGenerator.m_end g)); [lia | done].
  - rewrite Hiter. unfold BoundedIndexGenerator.end_. simpl.
    apply Nat.eqb_eq. lia.
Qed.

Lemma bounded_generator_counts_up_witness :
  BoundedIndexGenerator.remaining 5 (BoundedIndexGenerator.make 2 5)
  = [2; 3; 4].
Proof.
  apply (bounded_generator_counts_up (BoundedIndexGenerator.make 2 5) 5);
    simpl; lia.
Defined.

(** X7. A generator over a pair of iterators into a sequence, the first at
    or before the second and both inside the sequence, yields the elements
    between the two, in order; its copy, which copies both iterators, yields
    the same elements. *)
Theorem iterator_generator_walks (xs : list nat)
    (g : IteratorIndexGenerator.t) (fuel : nat) :
  IteratorIndexGenerator.m_it g ≤ IteratorIndexGenerator.m_end g →
  IteratorIndexGenerator.m_end g ≤ length xs →
  IteratorIndexGenerator.m_end g - IteratorIndexGenerator.m_it g ≤ fuel →
  IteratorIndexGenerator.remaining xs fuel g
  = Ok (take (IteratorIndexGenerator.m_end g - IteratorIndexGenerator.m_it g)
          (drop (IteratorIndexGenerator.m_it g) xs))
  ∧ IteratorIndexGenerator.remaining xs fuel (IteratorIndexGenerator.copy g)
    = IteratorIndexGenerator.remaining xs fuel g.
Proof.
  intros Hle Hend Hfuel. split; [| by destruct g].
  revert g Hle Hend Hfuel.
  induction fuel as [| fuel IH]; intros g Hle Hend Hfuel.
  - simpl. by replace (_ - _) with 0 by lia.
  - simpl. unfold IteratorIndexGenerator.end_.
    destruct (Nat.eqb_spec (IteratorIndexGenerator.m_it g)
                (IteratorIndexGenerator.m_end g)) as [E | Hne].
    + rewrite E, Nat.sub_diag. reflexivity.
    + unfold IteratorIndexGenerator.deref, IteratorIndexGenerator.end_.
      destruct (Nat.eqb_spec (IteratorIndexGenerator.m_it g)
                  (IteratorIndexGenerator.m_end g)); [done |].
      cbn [negb assert bind].
      destruct (lookup_lt_is_Some_2 xs (IteratorIndexGenerator.m_it g))
        as [x Hx]; [lia |].
      assert (at_ xs (IteratorIndexGenerator.m_it g) = Ok x) as ->
        by (by apply at_Ok).
      cbn [bind]. rewrite IH; simpl; [| lia | lia | lia]. cbn [bind].
      f_equal.
      replace (IteratorIndexGenerator.m_end g - IteratorIndexGenerator.m_it g)
        with (S (IteratorIndexGenerator.m_end g
                 - (IteratorIndexGenerator.m_it g + 1))) by lia.
      rewrite (drop_S _ _ _ Hx). simpl. by rewrite Nat.add_1_r.
Qed.

Lemma iterator_generator_walks_witness :
  IteratorIndexGenerator.remaining [7; 8; 9; 10] 3
    (IteratorIndexGenerator.make 1 3)
  = Ok [8; 9].
Proof.
  apply (iterator_generator_walks [7; 8; 9; 10]
           (IteratorIndexGenerator.make 1 3) 3); simpl; lia.
Defined.

(** ** The depth of compute *)

(** X8. [compute] calls itself at most four deep: with a depth of four or
    more it comes back, with a result or by a failed assertion, whatever
    the engine and the pair, and more depth does not change the outcome.
    Four is reached: on one tetrahedron [compute(1, 2)] needs all four. *)
Theorem compute_is_four_deep (ke : KeyEquality) (fuel a b : nat)
    (c : Connectivity) :
  returns (compute ke (4 + fuel) a b c)
  ∧ compute ke (4 + fuel) a b c = compute ke 4 a b c
  ∧ compute VertexSet 3 1 2 one_tetrahedron_state = OutOfFuel
  ∧ ∃ c', compute VertexSet 4 1 2 one_tetrahedron_state = Ok c'.
Proof.
  split_and!.
  - apply compute_returns.
  - apply compute_depth.
  - vm_compute. reflexivity.
  - eexists. vm_compute. reflexivity.
Qed.

(** ** Invariants of the tables *)

(** [getIncidence(d, dp)] reads the entry (d, dp) of the table. *)
Lemma getIncidence_at2 (d dp : nat) (c : Connectivity) :
  getIncidence d dp c = at2 (m_connectivity c) d dp.
Proof.
  unfold getIncidence, at2, at_.
  destruct (m_connectivity c !! d) as [row |] eqn:Hrow.
  - rewrite (assert_true (d <? _))
      by (apply Nat.ltb_lt; by eapply lookup_lt_Some).
    cbn [bind]. destruct (row !! dp) as [r |] eqn:Hr.
    + rewrite (assert_true (dp <? length row))
        by (apply Nat.ltb_lt; by eapply lookup_lt_Some).
      done.
    + by destruct (dp <? length row).
  - by destruct (d <? _).
Qed.

(** The engine of a run that keeps the vertex sets is sound. *)
Lemma execute_sound (ke : KeyEquality) (maximalDimension : nat)
    (calls : list call) (c : Connectivity) :
  Forall keeps_vertex_sets calls →
  execute ke (Initialize maximalDimension :: calls) = Ok c →
  sound c.
Proof.
  intros Hcalls H. unfold execute in H.
  change ((c0 <- initialize maximalDimension construct ;;
           for_each (perform ke) calls c0) = Ok c) in H.
  step H as c0 Hinit. apply initialize_sound in Hinit.
  by eapply for_each_sound.
Qed.

(** X9. In the engine that a run leaves behind - [initialize] on a fresh
    engine, then declarations, queries and clears in any order, no pair
    (d, 0) cleared - the tables of every dimension [d > 0] are in step:
    every identifier of the index of dimension [d] is below the count of
    [d], the relation (d, 0) has one entry for each counted entity, and the
    entry of an identifier holds exactly the vertices of its key. *)
Theorem tables_stay_aligned (ke : KeyEquality) (maximalDimension : nat)
    (calls : list call) (c : Connectivity) :
  Forall keeps_vertex_sets calls →
  execute ke (Initialize maximalDimension :: calls) = Ok c →
  ∀ d, 0 < d < length (m_index c) →
    ∃ ix n r,
      m_index c !! d = Some ix
      ∧ getCount d c = Ok n
      ∧ getIncidence d 0 c = Ok r
      ∧ length r = n
      ∧ ∀ k id, In (k, id) ix →
                id < n ∧ ∃ v, r !! id = Some v ∧ ∀ x, In x v ↔ In x k.
Proof.
  intros Hcalls H d Hd.
  pose proof (execute_sound _ _ _ _ Hcalls H) as (_ & Hal & _).
  destruct (Hal d Hd) as (ix & n & r & Hix & Hn & Hr & Hrest).
  exists ix, n, r. rewrite getIncidence_at2.
  split_and!; [done | by apply at_Ok | done | apply Hrest ..].
Qed.

Lemma tables_stay_aligned_witness :
  ∃ ix n r,
    m_index late_cell_rebuilt_state !! 1 = Some ix
    ∧ getCount 1 late_cell_rebuilt_state = Ok n
    ∧ getIncidence 1 0 late_cell_rebuilt_state = Ok r
    ∧ length r = n
    ∧ ∀ k id, In (k, id) ix →
              id < n ∧ ∃ v, r !! id = Some v ∧ ∀ x, In x v ↔ In x k.
Proof.
  apply (tables_stay_aligned VertexSet 2 (tail late_cell_rebuilt)
           late_cell_rebuilt_state).
  - repeat (constructor; [exact I |]). constructor.
  - vm_compute. reflexivity.
  - vm_compute. lia.
Defined.

(** X10. In the engine that such a run leaves behind a pair that is marked
    dirty stores nothing: [getIncidence] returns the empty relation for it.
    No call leaves a partial result behind a dirty flag. *)
Theorem dirty_pairs_are_empty (ke : KeyEquality) (maximalDimension : nat)
    (calls : list call) (c : Connectivity) :
  Forall keeps_vertex_sets calls →
  execute ke (Initialize maximalDimension :: calls) = Ok c →
  ∀ d dp, at2 (m_dirty c) d dp = Ok true → getIncidence d dp c = Ok [].
Proof.
  intros Hcalls H d dp Hdirty.
  pose proof (execute_sound _ _ _ _ Hcalls H) as (_ & _ & Hem & _).
  rewrite getIncidence_at2. by apply Hem.
Qed.

Lemma dirty_pairs_are_empty_witness :
  getIncidence 0 1 late_cell_rebuilt_state = Ok [].
Proof.
  apply (dirty_pairs_are_empty VertexSet 2 (tail late_cell_rebuilt)
           late_cell_rebuilt_state).
  - repeat (constructor; [exact I |]). constructor.
  - vm_compute. reflexivity.
  - vm_compute. reflexivity.
Defined.

(** ** build *)

(** X11. [build(d)] on aligned tables of dimension [d] and an empty relation
    (D, d) succeeds only for [0 < d < D]; it keeps the mesh dimension, gives
    the relation (D, d) one entry for each cell, leaves the tables of
    dimension [d] aligned with a count that is not lower than before, leaves
    the counts of the other dimensions alone, and marks the pairs (D, d) and
    (d, 0) clean. *)
Theorem build_lists_every_cell (ke : KeyEquality) (d : nat)
    (c c' : Connectivity) :
  aligned c d →
  getIncidence (getMeshDimension c) d c = Ok [] →
  build ke d c = Ok c' →
  0 < d < getMeshDimension c
  ∧ getMeshDimension c' = getMeshDimension c
  ∧ (∃ r n, getIncidence (getMeshDimension c) d c' = Ok r
            ∧ getCount (getMeshDimension c) c' = Ok n
            ∧ length r = n)
  ∧ aligned c' d
  ∧ (∀ n n', getCount d c = Ok n → getCount d c' = Ok n' → n ≤ n')
  ∧ (∀ x, x ≠ d → getCount x c' = getCount x c)
  ∧ clean c' (getMeshDimension c) d
  ∧ clean c' d 0.
Proof.
  intros Hal Hempty H. rewrite getIncidence_at2 in Hempty.
  pose proof (build_Ok _ _ _ _ H) as (Hd & Hg & HD & Hf1 & Hf2).
  destruct (build_rows _ _ _ _ _ H Hal Hempty) as (r & n & Hr & Hn & Hlen).
  destruct (build_aligned _ _ _ _ H Hal) as [Hal' _].
  destruct Hg as (_ & [_ Hcount] & _).
  split_and!; [lia | lia | done | | done | | | done | done].
  - exists r, n. rewrite getIncidence_at2. split_and!; [done | | done].
    unfold getCount, at_. rewrite Hcount by lia. by rewrite Hn.
  - intros m m' Hm%at_Ok Hm'%at_Ok. by eapply build_count.
  - intros x Hx. unfold getCount, at_. by rewrite Hcount.
Qed.

Lemma build_lists_every_cell_witness :
  ∃ r n,
    getIncidence (getMeshDimension two_triangles_neighbours) 1
      (state_of (build VertexSet 1 two_triangles_neighbours)) = Ok r
    ∧ getCount (getMeshDimension two_triangles_neighbours)
        (state_of (build VertexSet 1 two_triangles_neighbours)) = Ok n
    ∧ length r = n.
Proof.
  apply (build_lists_every_cell VertexSet 1 two_triangles_neighbours).
  - exists [], 0, []. split_and!; try (vm_compute; reflexivity).
    intros k id [].
  - vm_compute. reflexivity.
  - vm_compute. reflexivity.
Defined.

(** ** The lists of geometries *)

Lemma all_typed_only_pair (x y : nat) (c c' : Connectivity) :
  only_pair x y c c' → all_typed c → all_typed c'.
Proof.
  intros (_ & Hcount & _ & _ & Hgeo & _) Ht d Hd. rewrite Hgeo in Hd.
  destruct (Ht d Hd) as (geo & n & H1 & H2 & H3).
  exists geo, n. split_and!; congruence.
Qed.

Lemma grown_typed (d D x : nat) (c c' : Connectivity) :
  grown d D c c' → x ≠ d → typed c x → typed c' x.
Proof.
  intros (_ & [_ Hcount] & _ & [_ Hgeo] & _) Hx (geo & n & H1 & H2 & H3).
  exists geo, n. rewrite Hcount, Hgeo by done. done.
Qed.

Lemma local_insert_typed (ke : KeyEquality) (d D : nat)
    (c c' : Connectivity) (s s' : list nat) (sp : Polytope.Type_ * list nat) :
  local_insert ke d D (c, s) sp = Ok (c', s') →
  d ≠ D → d ≠ 0 → typed c d → typed c' d.
Proof.
  unfold local_insert. destruct sp as [geometry v].
  intros H HdD Hd0 (geo0 & n0 & Hgeo0 & Hn0 & Hlen0).
  step H as ix Hix. step H as cnt Hcnt. apply at_Ok in Hcnt.
  assert (n0 = cnt) as -> by congruence.
  destruct (left_insert ke v cnt ix) as [[ix' [key idx]] inserted].
  step H as index' Hindex. apply put_Ok in Hindex as [_ ->].
  step H as c1 Hc1. step H as count' Hcount.
  apply put_Ok in Hcount as [Hlt ->]. injection H as <- <-.
  destruct (Nat.eqb_spec d D) as [? | _]; [done |].
  destruct (Nat.eqb_spec d 0) as [? | _]; [done |].
  rewrite andb_true_r in *. unfold typed.
  cbn [with_gcount with_count m_geometry m_count].
  destruct inserted.
  - step Hc1 as geo Hgeo. apply at_Ok in Hgeo. simpl in Hgeo.
    assert (geo = geo0) as -> by congruence.
    step Hc1 as geometry' Hgeometry.
    apply put_Ok in Hgeometry as [Hltg ->].
    step Hc1 as inc Hinc. step Hc1 as conn Hconn. injection Hc1 as <-.
    simpl in *. exists (geo0 ++ [geometry]), (add_bool cnt true).
    split_and!.
    + by apply list_lookup_insert_eq.
    + by apply list_lookup_insert_eq.
    + rewrite length_app. unfold add_bool. simpl. lia.
  - injection Hc1 as <-. simpl in *. exists geo0, (add_bool cnt false).
    split_and!; [done | by apply list_lookup_insert_eq |].
    by rewrite add_bool_false.
Qed.

Lemma local_typed (ke : KeyEquality) (i d : nat) (c c' : Connectivity) :
  local ke i d c = Ok c' → typed c d → typed c' d.
Proof.
  unfold local. intros H Ht. set (D := getMeshDimension c) in *.
  check H as H0. check H as HD. apply Nat.ltb_lt in H0, HD.
  step H as subpolytopes Hsubs. step H as acc Hloop.
  destruct acc as [c1 s]. step H as inc Hinc. step H as conn Hconn.
  injection H as <-.
  assert (typed c1 d) as (geo & n & H1 & H2 & H3).
  { change (typed (fst (c1, s)) d).
    eapply (for_each_ind (λ acc : Connectivity * list nat, typed (fst acc) d)
              _ _ (c, [])); [| exact Ht | exact Hloop].
    intros [c2 s2] sp [c3 s3] _ Ht2 Hstep. simpl in *.
    eapply local_insert_typed; [exact Hstep | lia | lia | exact Ht2]. }
  by exists geo, n.
Qed.

Lemma build_all_typed (ke : KeyEquality) (d : nat) (c c' : Connectivity) :
  build ke d c = Ok c' → all_typed c → all_typed c'.
Proof.
  intros H Ht x Hx.
  pose proof (build_Ok _ _ _ _ H) as (Hd & Hg & _).
  pose proof Hg as (_ & _ & _ & [Hlen _] & _). rewrite Hlen in Hx.
  destruct (decide (x = d)) as [-> | Hne];
    [| eapply grown_typed; [exact Hg | done | by apply Ht]].
  specialize (Ht d Hx). clear Hg Hlen Hd.
  unfold build in H. check H as H0. check H as HD.
  step H as u1 Hc1. step H as u2 Hc2. step H as n Hn.
  step H as c1 Hloop. step H as c2 Hmark.
  apply only_pair_mark in Hmark as ((_ & Hk2 & _ & _ & Hg2 & _) & _).
  apply only_pair_mark in H as ((_ & Hk3 & _ & _ & Hg3 & _) & _).
  assert (typed c1 d) as (geo & m & H1 & H2 & H3).
  { eapply (for_each_ind (λ s, typed s d) _ _ c); [| exact Ht | exact Hloop].
    intros s i s' _ Hs Hlocal. cbv beta in Hlocal. by eapply local_typed. }
  exists geo, m. split_and!; congruence.
Qed.

Lemma prepare_all_typed (ke : KeyEquality) (D a b : nat)
    (c c1 : Connectivity) :
  prepare ke D a b c = Ok c1 → all_typed c → all_typed c1.
Proof.
  intros H Ht. unfold prepare in H.
  step H as a0 Ha0. step H as ca Htop. step H as u1 Hu1.
  step H as b0 Hb0. step H as cb Hbuild. step H as u2 Hu2.
  step H as a1 Ha1. check H as Hclean1.
  step H as b' Hb'. step H as cc Hbuild'. step H as u3 Hu3.
  step H as a2 Ha2. check H as Hclean2. injection H as <-.
  assert (all_typed ca) as Hta.
  { destruct a0; [| by injection Htop as <-].
    step Htop as ct Ht'. apply transpose_Ok in Ht' as (_ & Hop1 & _).
    apply intersection_Ok in Htop as (_ & Hop2 & _).
    eapply all_typed_only_pair; [exact Hop2 |].
    by eapply all_typed_only_pair. }
  assert (all_typed cb) as Htb.
  { destruct b0; [| by injection Hbuild as <-]. by eapply build_all_typed. }
  destruct b'; [| by injection Hbuild' as <-]. by eapply build_all_typed.
Qed.

Lemma compute_all_typed (ke : KeyEquality) (fuel a b : nat)
    (c c' : Connectivity) :
  compute ke fuel a b c = Ok c' → all_typed c → all_typed c'.
Proof.
  revert a b c c'.
  induction fuel as [| fuel IH]; intros a b c c' H Ht; [discriminate |].
  rewrite compute_S in H. cbn zeta in H.
  destruct (_ && _); [by injection H as <- |].
  step H as c1 Hprep. step H as flag Hflag. step H as c2 Hderive.
  apply only_pair_mark in H as (Hop & _).
  eapply all_typed_only_pair; [exact Hop |].
  apply prepare_all_typed in Hprep; [| exact Ht].
  destruct flag; [| by injection Hderive as <-].
  destruct (a <? b).
  - step Hderive as ct Hrec. apply transpose_Ok in Hderive as (_ & Hop1 & _).
    eapply all_typed_only_pair; [exact Hop1 |]. by eapply IH.
  - step Hderive as ct Hrec1. step Hderive as cu Hrec2.
    apply intersection_Ok in Hderive as (_ & Hop1 & _).
    eapply all_typed_only_pair; [exact Hop1 |].
    eapply IH; [exact Hrec2 |]. by eapply IH.
Qed.

Lemma initialize_all_typed (maximalDimension : nat) (c : Connectivity) :
  initialize maximalDimension construct = Ok c → all_typed c.
Proof.
  intros ->%initialize_Ok d. cbn zeta. cbn [m_geometry]. rewrite Nat.add_1_r.
  rewrite length_replicate. intros Hd. exists [], 0.
  cbn [m_geometry m_count]. split_and!; [| | done].
  - apply lookup_replicate_2. lia.
  - simpl. rewrite resize_nil. destruct d as [| d]; [lia |]. simpl.
    apply lookup_replicate_2. lia.
Qed.

Lemma nodes_geometry (ke : KeyEquality) (count : nat) (c c' : Connectivity) :
  nodes ke count c = Ok c' → m_geometry c' = m_geometry c.
Proof.
  unfold nodes. intros H. step H as count' Hcount.
  eapply (for_each_ind (λ s, m_geometry s = m_geometry c));
    [| | exact H]; [| done].
  intros s i s' _ Hs Hbody. unfold nodes_insert in Hbody.
  step Hbody as ix0 Hix0.
  destruct (left_insert ke [i] i ix0) as [[ix' e'] ins].
  step Hbody as index' Hindex. check Hbody as Hins.
  by injection Hbody as <-.
Qed.

Lemma nodes_all_typed (ke : KeyEquality) (count : nat) (c c' : Connectivity) :
  nodes ke count c = Ok c' → all_typed c → all_typed c'.
Proof.
  intros H Ht d Hd. pose proof (nodes_geometry _ _ _ _ H) as Hgeo.
  apply nodes_frame in H as (_ & _ & _ & _ & Hne).
  rewrite Hgeo in Hd. destruct (Ht d Hd) as (geo & n & H1 & H2 & H3).
  destruct (Hne d) as [Hc _]; [lia |].
  exists geo, n. split_and!; congruence.
Qed.

Lemma get_set (t : Polytope.Type_) (n : nat) (m : GeometryIndexed.t) :
  GeometryIndexed.get t (GeometryIndexed.set t n m) = n.
Proof. by destruct t. Qed.

(** What a declaration that enters the index leaves behind. *)
Lemma polytope_inserted (ke : KeyEquality) (t : Polytope.Type_)
    (inp : list nat) (c c' : Connectivity) (ix : list (list nat * nat))
    (cnt : nat) :
  let d := Polytope.getGeometryDimension t in
  m_index c !! d = Some ix →
  m_count c !! d = Some cnt →
  left_find ke inp ix = None →
  right_find cnt ix = None →
  polytope ke t inp c = Ok c' →
  ∃ inc geo,
    at2 (m_connectivity c) d 0 = Ok inc
    ∧ m_geometry c !! d = Some geo
    ∧ m_index c' = <[d := ix ++ [(inp, cnt)]]> (m_index c)
    ∧ m_count c' = <[d := cnt + 1]> (m_count c)
    ∧ m_geometry c' = <[d := geo ++ [t]]> (m_geometry c)
    ∧ m_gcount c'
      = GeometryIndexed.set t (GeometryIndexed.get t (m_gcount c) + 1)
          (m_gcount c)
    ∧ at2 (m_connectivity c') d 0 = Ok (inc ++ [insert_unique inp []])
    ∧ clean c' d 0.
Proof.
  intros d Hix Hcnt Hleft Hright H. unfold polytope in H. fold d in H.
  check H as Hlen. check H as Hd. check H as Hmax.
  apply at_Ok in Hix, Hcnt. rewrite Hix, Hcnt in H. cbn [bind] in H.
  unfold left_insert in H. rewrite Hleft, Hright in H.
  step H as index' Hindex. apply put_Ok in Hindex as [Hlt ->].
  cbn [m_connectivity m_geometry m_count m_dirty m_index m_gcount
       m_maximalDimension with_index] in H.
  step H as inc Hinc. step H as conn Hconn. step H as geo Hgeo.
  step H as geometry' Hgeometry. step H as count' Hcount.
  step H as dirty' Hdirty. injection H as <-.
  apply put_Ok in Hcount as [_ ->]. apply put_Ok in Hgeometry as [_ ->].
  apply at_Ok in Hgeo.
  exists inc, geo. unfold clean.
  cbn [m_connectivity m_geometry m_count m_dirty m_index m_gcount].
  split_and!; try done; by eapply at2_put2_eq.
Qed.

Lemma polytope_all_typed (ke : KeyEquality) (t : Polytope.Type_)
    (inp : list nat) (c c' : Connectivity) :
  polytope ke t inp c = Ok c' → all_typed c → all_typed c'.
Proof.
  intros H Ht. pose proof H as H'. unfold polytope in H'.
  set (d := Polytope.getGeometryDimension t) in *.
  check H' as Hlen. check H' as Hd. check H' as Hmax.
  step H' as ix Hix. step H' as cnt Hcnt. apply at_Ok in Hix, Hcnt.
  destruct (left_find ke inp ix) as [e |] eqn:Hleft.
  { rewrite (polytope_not_inserted ke t inp c ix cnt e) in H;
      [by injection H as <- | by apply Nat.ltb_lt | by apply Nat.ltb_lt
       | by apply Nat.leb_le | done | done | by apply left_insert_found]. }
  destruct (right_find cnt ix) as [e |] eqn:Hright.
  { rewrite (polytope_not_inserted ke t inp c ix cnt e) in H;
      [by injection H as <- | by apply Nat.ltb_lt | by apply Nat.ltb_lt
       | by apply Nat.leb_le | done | done |].
    unfold left_insert. by rewrite Hleft, Hright. }
  destruct (polytope_inserted ke t inp c c' ix cnt Hix Hcnt Hleft Hright H)
    as (inc & geo & _ & Hgeo & _ & Hcount & Hgeo' & _).
  fold d in Hgeo, Hcount, Hgeo'.
  intros x Hx. rewrite Hgeo', length_insert in Hx.
  destruct (Ht x Hx) as (geo0 & n & H1 & H2 & H3).
  destruct (decide (x = d)) as [-> | Hne].
  - exists (geo ++ [t]), (cnt + 1). rewrite Hgeo', Hcount. split_and!.
    + apply list_lookup_insert_eq. by eapply lookup_lt_Some.
    + apply list_lookup_insert_eq. by eapply lookup_lt_Some.
    + rewrite length_app. simpl.
      assert (geo0 = geo) as -> by congruence.
      assert (n = cnt) as -> by congruence. lia.
  - exists geo0, n. rewrite Hgeo', Hcount.
    by rewrite !list_lookup_insert_ne.
Qed.

Lemma clear_all_typed (d dp : nat) (c c' : Connectivity) :
  clear d dp c = Ok c' → all_typed c → all_typed c'.
Proof. intros (Hop & _)%clear_Ok. by eapply all_typed_only_pair. Qed.

(** Whatever the calls of a run, the lists of geometries stay in step with
    the counts. *)
Lemma execute_all_typed (ke : KeyEquality) (maximalDimension : nat)
    (calls : list call) (c : Connectivity) :
  Forall keeps_vertex_sets calls →
  execute ke (Initialize maximalDimension :: calls) = Ok c →
  all_typed c.
Proof.
  intros Hcalls H. unfold execute in H.
  change ((c0 <- initialize maximalDimension construct ;;
           for_each (perform ke) calls c0) = Ok c) in H.
  step H as c0 Hinit. apply initialize_all_typed in Hinit.
  revert c0 Hinit H.
  induction Hcalls as [| x calls Hx _ IH]; intros c0 Ht H; simpl in H.
  - by injection H as <-.
  - step H as c1 Hc1. eapply IH; [| exact H].
    destruct x as [M | n | t v | fuel d dp | d dp]; simpl in Hc1.
    + destruct Hx.
    + by eapply nodes_all_typed.
    + by eapply polytope_all_typed.
    + by eapply compute_all_typed.
    + by eapply clear_all_typed.
Qed.

(** X12. In the engine that a run leaves behind, for every dimension
    [d > 0] of the tables, [getGeometry(d, i)] is defined exactly for the
    identifiers [i] below the count of [d]: every entity counted, declared
    or built, has its geometry recorded, and nothing else has. *)
Theorem getGeometry_is_defined_below_count (ke : KeyEquality)
    (maximalDimension : nat) (calls : list call) (c : Connectivity) :
  Forall keeps_vertex_sets calls →
  execute ke (Initialize maximalDimension :: calls) = Ok c →
  ∀ d, 0 < d < length (m_geometry c) →
    ∃ n, getCount d c = Ok n
         ∧ ∀ i, (∃ g, getGeometry d i c = Ok g) ↔ i < n.
Proof.
  intros Hcalls H d Hd.
  destruct (execute_all_typed _ _ _ _ Hcalls H d Hd)
    as (geo & n & Hgeo & Hn & Hlen).
  exists n. split; [by apply at_Ok |]. intros i. unfold getGeometry.
  destruct (Nat.eqb_spec d 0) as [? | _]; [lia |]. split.
  - intros (g & (row & Hrow & Hi)%at2_Ok).
    assert (row = geo) as -> by congruence.
    apply lookup_lt_Some in Hi. lia.
  - intros Hi. destruct (lookup_lt_is_Some_2 geo i) as [g Hg]; [lia |].
    exists g. apply at2_Ok. eauto.
Qed.

Lemma getGeometry_is_defined_below_count_witness :
  ∃ n, getCount 1 late_cell_rebuilt_state = Ok n
       ∧ ∀ i, (∃ g, getGeometry 1 i late_cell_rebuilt_state = Ok g) ↔ i < n.
Proof.
  apply (getGeometry_is_defined_below_count VertexSet 2
           (tail late_cell_rebuilt) late_cell_rebuilt_state).
  - repeat (constructor; [exact I |]). constructor.
  - vm_compute. reflexivity.
  - vm_compute. lia.
Defined.

Lemma right_find_fresh (cnt : nat) (ix : list (list nat * nat)) :
  (∀ k id, In (k, id) ix → id < cnt) → right_find cnt ix = None.
Proof.
  unfold right_find. induction ix as [| [k id] ix IH]; intros H; [done |].
  simpl. destruct (Nat.eqb_spec id cnt) as [-> | _].
  - specialize (H k cnt (or_introl eq_refl)). lia.
  - apply IH. intros k' id' Hin. apply (H k' id'). by right.
Qed.

(** X13. In the engine that a run leaves behind, a declaration of a key that
    the index does not hold gives the polytope the identifier [count(d)]:
    afterwards the count is one higher, [getIndex] finds the key under that
    identifier, [getPolytope] and [getGeometry] return the key and the
    geometry as declared, the (d, 0) entry of the identifier is the set of
    the vertices of the key, the count of the geometry is one higher, the
    pair (d, 0) is clean, and every key found before is found under the
    identifier it had. *)
Theorem declared_polytope_is_found (ke : KeyEquality)
    (maximalDimension : nat) (calls : list call) (t : Polytope.Type_)
    (inp : list nat) (c c' : Connectivity) :
  let d := Polytope.getGeometryDimension t in
  Forall keeps_vertex_sets calls →
  execute ke (Initialize maximalDimension :: calls) = Ok c →
  getIndex ke d inp c = Ok None →
  polytope ke t inp c = Ok c' →
  ∃ id,
    getCount d c = Ok id
    ∧ getCount d c' = Ok (id + 1)
    ∧ getIndex ke d inp c' = Ok (Some id)
    ∧ getPolytope d id c' = Ok inp
    ∧ getGeometry d id c' = Ok t
    ∧ getIncidenceOf (d, 0) id c' = Ok (insert_unique inp [])
    ∧ getGeometryCount t c' = getGeometryCount t c + 1
    ∧ clean c' d 0
    ∧ ∀ k id', getIndex ke d k c = Ok (Some id') →
               getIndex ke d k c' = Ok (Some id').
Proof.
  intros d Hcalls Hrun Hnew H.
  pose proof (execute_sound _ _ _ _ Hcalls Hrun) as (_ & Hal & _).
  pose proof (execute_all_typed _ _ _ _ Hcalls Hrun) as Ht.
  pose proof H as H'. unfold polytope in H'. fold d in H'.
  check H' as Hlen. check H' as Hd. check H' as Hmax.
  apply Nat.ltb_lt in Hd. step H' as ix Hix. apply at_Ok in Hix.
  clear H'.
  destruct (Hal d) as (ix0 & cnt & r & Hix0 & Hcnt & Hr & Hlenr & Hall).
  { split; [done | by eapply lookup_lt_Some]. }
  assert (ix0 = ix) as -> by congruence.
  assert (left_find ke inp ix = None) as Hleft.
  { unfold getIndex in Hnew. apply at_Ok in Hix. rewrite Hix in Hnew.
    cbn [bind] in Hnew. injection Hnew as Hnew.
    by destruct (left_find ke inp ix). }
  assert (right_find cnt ix = None) as Hright.
  { apply right_find_fresh. intros k id Hin. by apply (Hall k id). }
  destruct (polytope_inserted ke t inp c c' ix cnt Hix Hcnt Hleft Hright H)
    as (inc & geo & Hinc & Hgeo & Hindex' & Hcount' & Hgeo' & Hgcount'
        & Hconn' & Hclean).
  fold d in Hinc, Hgeo, Hindex', Hcount', Hgeo', Hconn', Hclean.
  assert (r = inc) as -> by congruence.
  destruct (Ht d) as (geo0 & n0 & Hgeo0 & Hn0 & Hleng).
  { split; [done | by eapply lookup_lt_Some]. }
  assert (geo0 = geo) as -> by congruence.
  assert (n0 = cnt) as -> by congruence.
  assert (m_index c' !! d = Some (ix ++ [(inp, cnt)])) as Hix'.
  { rewrite Hindex'. apply list_lookup_insert_eq. by eapply lookup_lt_Some. }
  exists cnt. split_and!.
  - by apply at_Ok.
  - apply at_Ok. rewrite Hcount'. apply list_lookup_insert_eq.
    by eapply lookup_lt_Some.
  - unfold getIndex. apply at_Ok in Hix'. rewrite Hix'. cbn [bind].
    by rewrite left_find_inserted.
  - unfold getPolytope. apply at_Ok in Hix'. rewrite Hix'. cbn [bind].
    unfold right_at, right_find in *. rewrite find_app_None by done.
    simpl. by rewrite Nat.eqb_refl.
  - unfold getGeometry. destruct (Nat.eqb_spec d 0) as [? | _]; [lia |].
    apply at2_Ok. exists (geo ++ [t]). split.
    + rewrite Hgeo'. apply list_lookup_insert_eq. by eapply lookup_lt_Some.
    + rewrite <- Hleng. by apply list_lookup_middle.
  - unfold getIncidenceOf. cbn [fst snd]. rewrite getIncidence_at2, Hconn'.
    cbn [bind].
    rewrite (assert_true (cnt <? _))
      by (apply Nat.ltb_lt; rewrite length_app; simpl; lia).
    cbn [bind]. apply at_Ok. rewrite <- Hlenr. by apply list_lookup_middle.
  - unfold getGeometryCount. by rewrite Hgcount', get_set.
  - exact Hclean.
  - intros k id'. unfold getIndex. apply at_Ok in Hix, Hix'.
    rewrite Hix, Hix'. cbn [bind]. intros [= Hk].
    destruct (left_find ke k ix) as [e |] eqn:He; [| discriminate].
    rewrite (left_find_app _ _ _ _ _ He). by rewrite Hk.
Qed.

Lemma declared_polytope_is_found_witness :
  ∃ id,
    getCount 2 late_cell_state = Ok id
    ∧ getCount 2
        (state_of (polytope VertexSet Polytope.Triangle [0; 2; 3]
                     late_cell_state)) = Ok (id + 1).
Proof.
  destruct (declared_polytope_is_found VertexSet 2
              [Nodes 4; Cell Polytope.Triangle [0; 1; 2]; Compute 3 0 2;
               Cell Polytope.Triangle [1; 2; 3]]
              Polytope.Triangle [0; 2; 3] late_cell_state
              (state_of (polytope VertexSet Polytope.Triangle [0; 2; 3]
                           late_cell_state)))
    as (id & H1 & H2 & _).
  - repeat (constructor; [exact I |]). constructor.
  - vm_compute. reflexivity.
  - vm_compute. reflexivity.
  - vm_compute. reflexivity.
  - exists id. by split.
Defined.

(** ** What compute leaves alone *)

Lemma same_declarations_refl (c : Connectivity) : same_declarations c c.
Proof. split_and!; [done | done | done | apply untouched_refl]. Qed.

Lemma same_declarations_trans (c1 c2 c3 : Connectivity) :
  same_declarations c1 c2 → same_declarations c2 c3 →
  same_declarations c1 c3.
Proof.
  intros (HD & Hm & Ht & Hu) (HD' & Hm' & Ht' & Hu'). rewrite HD in *.
  split_and!; [congruence | congruence | | by eapply untouched_trans].
  intros d Hd. destruct (Ht d Hd) as (? & ? & ?), (Ht' d Hd) as (? & ? & ?).
  split_and!; congruence.
Qed.

Lemma only_pair_same_declarations (x y : nat) (c c' : Connectivity) :
  only_pair x y c c' → (x, y) ≠ (getMeshDimension c, 0) →
  same_declarations c c'.
Proof.
  intros Hop Hne. pose proof (only_pair_count _ _ _ _ Hop) as HD.
  destruct Hop as (Hm & Hc & _ & Hi & Hg & Hu).
  split_and!; [done | done | | apply Hu; congruence].
  intros d _. split_and!; congruence.
Qed.

Lemma grown_same_declarations (d : nat) (c c' : Connectivity) :
  grown d (getMeshDimension c) c c' → 0 < d < getMeshDimension c →
  same_declarations c c'.
Proof.
  intros Hg Hd. pose proof (grown_getMeshDimension _ _ _ _ Hg) as HD.
  destruct Hg as (Hm & [_ Hc] & [_ Hi] & [_ Hgeo] & Hu).
  split_and!; [apply HD; lia | done | | apply Hu; ne_pair].
  intros x Hx. rewrite Hc, Hi, Hgeo by lia. done.
Qed.

Lemma prepare_same_declarations (ke : KeyEquality) (a b : nat)
    (c c1 : Connectivity) :
  prepare ke (getMeshDimension c) a b c = Ok c1 → same_declarations c c1.
Proof.
  intros H. set (D := getMeshDimension c) in *. unfold prepare in H.
  step H as a0 Ha0. step H as ca Htop. step H as u1 Hu1.
  step H as b0 Hb0. step H as cb Hbuild. step H as u2 Hu2.
  step H as a1 Ha1. check H as Hclean1.
  step H as b' Hb'. step H as cc Hbuild'. step H as u3 Hu3.
  step H as a2 Ha2. check H as Hclean2. injection H as <-.
  assert (same_declarations c ca) as Hsa.
  { destruct a0; [| injection Htop as <-; apply same_declarations_refl].
    step Htop as ct Ht. apply transpose_Ok in Ht as (Hlt & Hop1 & _).
    apply intersection_Ok in Htop as (_ & Hop2 & _).
    eapply same_declarations_trans.
    - eapply only_pair_same_declarations; [exact Hop1 |]. fold D. ne_pair.
    - eapply only_pair_same_declarations; [exact Hop2 |].
      rewrite (only_pair_count _ _ _ _ Hop1). fold D. ne_pair. }
  assert (same_declarations ca cb) as Hsb.
  { destruct b0; [| injection Hbuild as <-; apply same_declarations_refl].
    apply build_Ok in Hbuild as (Hd & Hg & _).
    by apply (grown_same_declarations a). }
  assert (same_declarations cb cc) as Hsc.
  { destruct b'; [| injection Hbuild' as <-; apply same_declarations_refl].
    apply build_Ok in Hbuild' as (Hd & Hg & _).
    by apply (grown_same_declarations b). }
  eapply same_declarations_trans; [| exact Hsc].
  by eapply same_declarations_trans.
Qed.

Lemma compute_same_declarations (ke : KeyEquality) (fuel a b : nat)
    (c c' : Connectivity) :
  compute ke fuel a b c = Ok c' → same_declarations c c'.
Proof.
  revert a b c c'.
  induction fuel as [| fuel IH]; intros a b c c' H; [discriminate |].
  rewrite compute_S in H. cbn zeta in H. set (D := getMeshDimension c) in *.
  destruct (Nat.eqb_spec a D) as [HaD | HaD];
    [destruct (Nat.eqb_spec b 0) as [Hb0 | Hb0] |]; simpl andb in H;
    cbn iota in H; [injection H as <-; apply same_declarations_refl | |].
  all: step H as c1 Hprep; step H as flag Hflag; step H as c2 Hderive.
  all: apply prepare_same_declarations in Hprep as Hs1.
  all: pose proof Hs1 as (HD1 & _); fold D in HD1.
  all: apply only_pair_mark in H as (Hop3 & _).
  all: assert (same_declarations c1 c2) as Hs2;
    [| eapply same_declarations_trans; [exact Hs1 |];
       eapply same_declarations_trans; [exact Hs2 |];
       destruct Hs2 as (HD2 & _);
       eapply only_pair_same_declarations; [exact Hop3 |];
       rewrite HD2, HD1; ne_pair].
  all: destruct flag; [| injection Hderive as <-; apply same_declarations_refl].
  all: destruct (Nat.ltb_spec a b) as [Hab | Hab].
  all: try (step Hderive as ct Hrec; apply IH in Hrec as Hst;
            apply transpose_Ok in Hderive as (_ & Hop & _);
            eapply same_declarations_trans; [exact Hst |];
            destruct Hst as (HDt & _);
            eapply only_pair_same_declarations; [exact Hop |];
            rewrite HDt, HD1; ne_pair).
  all: step Hderive as ct Hrec1; step Hderive as cu Hrec2;
    apply IH in Hrec1 as Hst; apply IH in Hrec2 as Hsu;
    apply intersection_Ok in Hderive as (_ & Hop & _);
    (eapply same_declarations_trans; [exact Hst |]);
    (eapply same_declarations_trans; [exact Hsu |]);
    destruct Hst as (HDt & _); destruct Hsu as (HDu & _);
    (eapply only_pair_same_declarations; [exact Hop |]);
    rewrite HDu, HDt, HD1; ne_pair.
Qed.

(** X14. [compute] derives relations and never touches what was declared:
    it keeps the mesh dimension [D], and for the vertices and the cells -
    the dimensions 0 and [D] - the counts, the identifiers of all keys, the
    keys and geometries of all identifiers and the vertex sets of the cells,
    the relation (D, 0); and no pair that was clean is dirty afterwards. *)
Theorem compute_keeps_declarations (ke : KeyEquality) (fuel a b : nat)
    (c c' : Connectivity) :
  compute ke fuel a b c = Ok c' →
  getMeshDimension c' = getMeshDimension c
  ∧ (∀ d, d = 0 ∨ d = getMeshDimension c →
       getCount d c' = getCount d c
       ∧ (∀ key, getIndex ke d key c' = getIndex ke d key c)
       ∧ (∀ i, getPolytope d i c' = getPolytope d i c)
       ∧ (∀ i, getGeometry d i c' = getGeometry d i c))
  ∧ getIncidence (getMeshDimension c) 0 c'
    = getIncidence (getMeshDimension c) 0 c
  ∧ ∀ x y, clean c x y → clean c' x y.
Proof.
  intros H.
  pose proof (compute_same_declarations _ _ _ _ _ _ H)
    as (HD & _ & Ht & [Hconn _]).
  split_and!; [done | | by rewrite !getIncidence_at2 |].
  - intros d Hd. destruct (Ht d Hd) as (Hc & Hi & Hg).
    unfold getCount, getIndex, getPolytope, getGeometry, at2, at_.
    rewrite Hc, Hi, Hg. done.
  - intros x y. by eapply compute_keeps_clean.
Qed.

Lemma compute_keeps_declarations_witness :
  getIncidence (getMeshDimension two_triangles_state) 0 two_triangles_by_edge
  = getIncidence (getMeshDimension two_triangles_state) 0 two_triangles_state.
Proof.
  apply (compute_keeps_declarations VertexSet 3 1 2 two_triangles_state
           two_triangles_by_edge).
  vm_compute. reflexivity.
Defined.

(** ** A query asked twice *)

Lemma flags_kept_refl (c : Connectivity) : flags_kept c c.
Proof. intros x y b H. eauto. Qed.

Lemma flags_kept_trans (c1 c2 c3 : Connectivity) :
  flags_kept c1 c2 → flags_kept c2 c3 → flags_kept c1 c3.
Proof.
  intros H12 H23 x y b Hb. destruct (H12 x y b Hb) as (b' & Hb' & H1).
  destruct (H23 x y b' Hb') as (b'' & Hb'' & H2). eauto.
Qed.

Lemma only_pair_flags_kept (a b : nat) (c c' : Connectivity) :
  only_pair a b c c' → clean c' a b → flags_kept c c'.
Proof.
  intros Hop Hab x y f Hf.
  destruct (decide ((x, y) = (a, b))) as [E | Hne].
  - inversion E. subst. by exists false.
  - exists f. split; [| done]. rewrite <- Hf.
    by eapply only_pair_untouched.
Qed.

Lemma grown_flags_kept (d D : nat) (c c' : Connectivity) :
  grown d D c c' → clean c' d 0 → clean c' D d → flags_kept c c'.
Proof.
  intros (_ & _ & _ & _ & Hu) H1 H2 x y f Hf.
  destruct (decide ((x, y) = (d, 0))) as [E | Hne1];
    [inversion E; subst; by exists false |].
  destruct (decide ((x, y) = (D, d))) as [E | Hne2];
    [inversion E; subst; by exists false |].
  exists f. split; [| done]. rewrite <- Hf. by apply Hu.
Qed.

Lemma settled_flags_kept (D a b : nat) (c c' : Connectivity) :
  flags_kept c c' → settled D a b c → settled D a b c'.
Proof.
  intros Hk (H1 & H2 & H3 & (fa & Hfa & Ha) & (fb & Hfb & Hb)).
  assert (∀ x y, clean c x y → clean c' x y) as Hclean.
  { intros x y Hxy. destruct (Hk x y false Hxy) as (f & Hf & Himp).
    unfold clean. by rewrite Hf, Himp. }
  split_and!; auto.
  - destruct (Hk a 0 fa Hfa) as (f & Hf & Himp). exists f. split; [done |].
    destruct Ha as [-> | Ha]; [left; auto | by right].
  - destruct (Hk b 0 fb Hfb) as (f & Hf & Himp). exists f. split; [done |].
    destruct Hb as [-> | Hb]; [left; auto | by right].
Qed.

Lemma prepare_settles (ke : KeyEquality) (a b : nat) (c c1 : Connectivity) :
  prepare ke (getMeshDimension c) a b c = Ok c1 →
  flags_kept c c1 ∧ settled (getMeshDimension c) a b c1.
Proof.
  intros H. set (D := getMeshDimension c) in *. unfold prepare in H.
  step H as a0 Ha0. step H as ca Htop. step H as u1 Hu1.
  step H as b0 Hb0. step H as cb Hbuild. step H as u2 Hu2.
  step H as a1 Ha1. check H as Hclean1.
  step H as b' Hb'. step H as cc Hbuild'. step H as u3 Hu3.
  step H as a2 Ha2. check H as Hclean2. injection H as <-.
  assert (∀ x y s, assert_clean x y s = Ok tt → clean s x y) as Hassert.
  { intros x y s Hs. unfold assert_clean in Hs. step Hs as f Hf.
    apply assert_Ok in Hs. destruct f; [discriminate | exact Hf]. }
  destruct u1, u2, u3.
  apply Hassert in Hu1, Hu2, Hu3.
  assert (flags_kept c ca) as Hka.
  { destruct a0; [| injection Htop as <-; apply flags_kept_refl].
    step Htop as ct Ht. apply transpose_Ok in Ht as (_ & Hop1 & Hf1 & _).
    apply intersection_Ok in Htop as (_ & Hop2 & Hf2 & _).
    eapply flags_kept_trans; by eapply only_pair_flags_kept. }
  assert (flags_kept ca cb) as Hkb.
  { destruct b0; [| injection Hbuild as <-; apply flags_kept_refl].
    apply build_Ok in Hbuild as (_ & Hg & _ & Hf1 & Hf2).
    by eapply grown_flags_kept. }
  assert (flags_kept cb cc) as Hkc.
  { destruct b'; [| injection Hbuild' as <-; apply flags_kept_refl].
    apply build_Ok in Hbuild' as (_ & Hg & _ & Hf1 & Hf2).
    by eapply grown_flags_kept. }
  assert (∀ x y, clean ca x y → clean cc x y) as Hclean.
  { intros x y Hxy.
    destruct (flags_kept_trans _ _ _ Hkb Hkc x y false Hxy)
      as (f & Hf & Himp).
    unfold clean. by rewrite Hf, Himp. }
  split.
  - eapply flags_kept_trans; [exact Hka |]. by eapply flags_kept_trans.
  - split_and!.
    + by apply Hclean.
    + destruct (Hkc D a false Hu2) as (f & Hf & Himp).
      unfold clean. by rewrite Hf, Himp.
    + done.
    + destruct (Hkc a 0 a1 Ha1) as (f & Hf & Himp). exists f.
      split; [done |].
      destruct a1; [| left; auto]. simpl in Hclean1.
      destruct (Nat.eqb_spec a D), (Nat.eqb_spec a 0); auto; discriminate.
    + exists a2. split; [done |].
      destruct a2; [| left; auto]. simpl in Hclean2.
      destruct (Nat.eqb_spec b D), (Nat.eqb_spec b 0); auto; discriminate.
Qed.

Lemma compute_flags_kept (ke : KeyEquality) (fuel a b : nat)
    (c c' : Connectivity) :
  compute ke fuel a b c = Ok c' → flags_kept c c'.
Proof.
  revert a b c c'.
  induction fuel as [| fuel IH]; intros a b c c' H; [discriminate |].
  rewrite compute_S in H. cbn zeta in H.
  destruct (_ && _); [injection H as <-; apply flags_kept_refl |].
  step H as c1 Hprep. step H as flag Hflag. step H as c2 Hderive.
  apply prepare_settles in Hprep as [Hk1 _].
  apply only_pair_mark in H as (Hop3 & _ & Hf3).
  eapply flags_kept_trans; [exact Hk1 |].
  eapply flags_kept_trans; [| exact (only_pair_flags_kept _ _ _ _ Hop3 Hf3)].
  destruct flag; [| injection Hderive as <-; apply flags_kept_refl].
  destruct (a <? b).
  - step Hderive as ct Hrec. apply transpose_Ok in Hderive as (_ & Hop & Hf & _).
    eapply flags_kept_trans; [exact (IH _ _ _ _ Hrec) |].
    exact (only_pair_flags_kept _ _ _ _ Hop Hf).
  - step Hderive as ct Hrec1. step Hderive as cu Hrec2.
    apply intersection_Ok in Hderive as (_ & Hop & Hf & _).
    eapply flags_kept_trans; [exact (IH _ _ _ _ Hrec1) |].
    eapply flags_kept_trans; [exact (IH _ _ _ _ Hrec2) |].
    exact (only_pair_flags_kept _ _ _ _ Hop Hf).
Qed.

(** On an engine where the flags are settled the statements of [compute]
    ahead of its derivation change nothing. *)
Lemma prepare_settled (ke : KeyEquality) (D a b : nat) (c : Connectivity) :
  settled D a b c → prepare ke D a b c = Ok c.
Proof.
  intros (H1 & H2 & H3 & (fa & Hfa & Ha) & (fb & Hfb & Hb)).
  unfold clean in *.
  assert (∀ x, clean c D x → ∀ f, at2 (m_dirty c) x 0 = Ok f →
               f = false ∨ x = D ∨ x = 0 → needs_build D x c = Ok false)
    as Hneeds.
  { intros x Hx f Hf Hor. unfold needs_build, clean in *.
    destruct (Nat.eqb_spec x D), (Nat.eqb_spec x 0); simpl; try done.
    rewrite Hx. cbn [bind]. rewrite Hf. by destruct Hor as [-> | [? | ?]]. }
  assert (∀ x f, f = false ∨ x = D ∨ x = 0 →
                 assert (negb f || (x =? D) || (x =? 0)) = Ok tt) as Hassert.
  { intros x f [-> | [-> | ->]]; [done | |].
    - rewrite Nat.eqb_refl. by destruct f.
    - by destruct f, (0 =? D). }
  pose proof (Hneeds a H2 fa Hfa Ha) as Hna.
  pose proof (Hneeds b H3 fb Hfb Hb) as Hnb.
  pose proof (Hassert a fa Ha) as Haa.
  pose proof (Hassert b fb Hb) as Hab.
  unfold prepare, assert_clean.
  repeat (first [rewrite H1 | rewrite Hna | rewrite Hnb | rewrite H2
                 | rewrite H3 | rewrite Hfa | rewrite Hfb | rewrite Haa
                 | rewrite Hab];
          cbn [bind negb assert]).
  reflexivity.
Qed.

(** X15. A query asked twice is answered once: on the engine that a
    successful [compute(a, b)] leaves behind, [compute(a, b)] succeeds
    again, whatever the depth allowed, and changes nothing. *)
Theorem compute_twice (ke : KeyEquality) (fuel fuel' a b : nat)
    (c c' : Connectivity) :
  compute ke fuel a b c = Ok c' → compute ke (S fuel') a b c' = Ok c'.
Proof.
  intros H. pose proof (compute_frame _ _ _ _ _ _ H) as (HD & _).
  pose proof H as H'. destruct fuel as [| fuel]; [discriminate |].
  rewrite compute_S in H' |- *. cbn zeta in *. rewrite HD.
  destruct ((a =? getMeshDimension c) && (b =? 0)) eqn:Hearly.
  { by injection H' as <-. }
  step H' as c1 Hprep. step H' as flag Hflag. step H' as c2 Hderive.
  apply prepare_settles in Hprep as [_ Hs1].
  assert (flags_kept c1 c') as Hk.
  { pose proof H' as Hmark.
    apply only_pair_mark in Hmark as (Hop3 & _ & Hf3).
    eapply flags_kept_trans;
      [| exact (only_pair_flags_kept _ _ _ _ Hop3 Hf3)].
    destruct flag; [| injection Hderive as <-; apply flags_kept_refl].
    destruct (a <? b).
    - step Hderive as ct Hrec.
      apply transpose_Ok in Hderive as (_ & Hop & Hf & _).
      eapply flags_kept_trans;
        [exact (compute_flags_kept _ _ _ _ _ _ Hrec) |].
      exact (only_pair_flags_kept _ _ _ _ Hop Hf).
    - step Hderive as ct Hrec1. step Hderive as cu Hrec2.
      apply intersection_Ok in Hderive as (_ & Hop & Hf & _).
      eapply flags_kept_trans;
        [exact (compute_flags_kept _ _ _ _ _ _ Hrec1) |].
      eapply flags_kept_trans;
        [exact (compute_flags_kept _ _ _ _ _ _ Hrec2) |].
      exact (only_pair_flags_kept _ _ _ _ Hop Hf). }
  apply only_pair_mark in H' as (_ & _ & Hclean).
  rewrite (prepare_settled ke _ a b c')
    by (by eapply settled_flags_kept). cbn [bind].
  rewrite Hclean. cbn [bind].
  destruct (put2_total _ _ _ _ false Hclean) as (dirty & Hdirty).
  assert (∃ c'', mark a b false c' = Ok c'') as (c'' & Hmark)
    by (unfold mark; rewrite Hdirty; eauto).
  rewrite Hmark. f_equal. by eapply mark_clean_id.
Qed.

Lemma compute_twice_witness :
  compute VertexSet 1 1 2 two_triangles_by_edge = Ok two_triangles_by_edge.
Proof.
  apply (compute_twice VertexSet 3 0 1 2 two_triangles_state).
  vm_compute. reflexivity.
Defined.

(** ** transpose and intersection in full *)

Lemma incident_resize_iff (r : list (list nat)) (n i j : nat) :
  incident (resize n [] r) i j ↔ i < n ∧ incident r i j.
Proof.
  split.
  - intros H. split; [| by eapply incident_resize].
    destruct H as (s & Hs & _). apply lookup_lt_Some in Hs.
    by rewrite length_resize in Hs.
  - intros [Hi (s & Hs & Hin)]. exists s. split; [| done].
    rewrite lookup_resize; [done | done | by eapply lookup_lt_Some].
Qed.

(** What [transpose(d, dp)] stores, entry by entry. *)
Lemma transpose_full (d dp : nat) (c c' : Connectivity) :
  transpose d dp c = Ok c' →
  ∃ nd ndp,
    m_count c !! d = Some nd
    ∧ m_count c !! dp = Some ndp
    ∧ (∀ i j, related c' d dp i j
              ↔ (i < nd ∧ related c d dp i j)
                ∨ (j < ndp ∧ related c dp d j i))
    ∧ (∀ j, j < ndp →
         ∃ rt s, at2 (m_connectivity c) dp d = Ok rt ∧ rt !! j = Some s)
    ∧ (∀ i j, j < ndp → related c dp d j i → i < nd).
Proof.
  unfold transpose. intros H.
  check H as Hlt. apply Nat.ltb_lt in Hlt. check H as Hb1.
  step H as row Hrow. check H as Hb2. step H as c1 Hresize.
  step H as n Hn. step H as c2 Hloop. apply at_Ok in Hn.
  apply incidence_resize_Ok in Hresize
    as (Hop1 & Hd1 & r & nd & Hr & Hnd & Hr1).
  assert (m_count c1 = m_count c) as Hcnt by apply Hop1.
  rewrite Hcnt in Hn.
  set (I := λ (k : nat) (cx : Connectivity),
         only_pair d dp c1 cx
         ∧ (∃ rx, at2 (m_connectivity cx) d dp = Ok rx ∧ length rx = nd)
         ∧ (∀ i j, related cx d dp i j
                   ↔ related c1 d dp i j ∨ (j < k ∧ related c1 dp d j i))
         ∧ (∀ j, j < k →
              ∃ rt s, at2 (m_connectivity c1) dp d = Ok rt ∧ rt !! j = Some s)
         ∧ (∀ i j, j < k → related c1 dp d j i → i < nd)).
  assert (I (0 + n) c2) as (Hop2 & _ & Hrel & Hrows & Hbound).
  { eapply (for_each_seq I); [| | exact Hloop].
    - clear Hrow. intros k c3 c4 Hk (Hop3 & Hlen3 & Hrel3 & Hrows3 & Hb3) Hrow.
      unfold transpose_row in Hrow.
      step Hrow as rt Hrt3. step Hrow as is_ His. apply at_Ok in His.
      assert (at2 (m_connectivity c1) dp d = Ok rt) as Hrt.
      { rewrite <- Hrt3. symmetry. apply Hop3. intros [= ? ?]. lia. }
      set (J := λ (pre : list nat) (cx : Connectivity),
             only_pair d dp c1 cx
             ∧ (∃ rx, at2 (m_connectivity cx) d dp = Ok rx ∧ length rx = nd)
             ∧ (∀ i j, related cx d dp i j
                       ↔ related c1 d dp i j
                         ∨ (j < k ∧ related c1 dp d j i)
                         ∨ (j = k ∧ In i pre))
             ∧ (∀ i, In i pre → i < nd)).
      assert (J is_ c4) as (Hop4 & Hlen4 & Hrel4 & Hb4).
      { eapply (for_each_prefix J); [| | exact Hrow].
        - intros pre i c5 c6 (Hop5 & (r5 & Hr5 & Hlen5) & Hrel5 & Hb5) Hins.
          apply incidence_insert_Ok in Hins
            as (Hop6 & _ & r5' & s & Hr5' & Hs & Hr6).
          assert (r5' = r5) as -> by congruence.
          split_and!.
          + by eapply only_pair_trans.
          + eexists. split; [exact Hr6 |]. by rewrite length_insert.
          + intros i' j'. rewrite (related_at2 _ _ _ _ _ _ Hr6).
            rewrite (incident_insert _ _ _ _ _ _ Hs).
            rewrite <- (related_at2 _ _ _ _ _ _ Hr5), Hrel5, in_app_iff.
            simpl. intuition.
          + intros i' [Hin | [<- | []]]%in_app_iff; [by apply Hb5 |].
            apply lookup_lt_Some in Hs. lia.
        - split_and!; [exact Hop3 | exact Hlen3 | | intros i []].
          intros i j. rewrite Hrel3. simpl. intuition. }
      split_and!; [exact Hop4 | exact Hlen4 | |  |].
      + intros i j. rewrite Hrel4.
        rewrite (related_at2 _ _ _ _ _ _ Hrt). unfold incident. split.
        * intros [? | [[Hj Hin] | [-> Hin]]]; [by left | |].
          -- right. split; [lia | done].
          -- right. split; [lia |]. eauto.
        * intros [? | [Hj (s & Hs & Hin)]]; [by left |].
          destruct (decide (j = k)) as [-> | Hne].
          -- right. right. split; [done |]. congruence.
          -- right. left. split; [lia | eauto].
      + intros j Hj. destruct (decide (j = k)) as [-> | Hne]; [eauto |].
        apply Hrows3. lia.
      + intros i j Hj Hji. destruct (decide (j = k)) as [-> | Hne].
        * apply Hb4. apply (related_at2 _ _ _ _ _ _ Hrt) in Hji.
          destruct Hji as (s & Hs & Hin). congruence.
        * apply (Hb3 i j); [lia | done].
    - split_and!.
      + apply only_pair_refl.
      + exists (resize nd [] r). split; [exact Hr1 | apply length_resize].
      + intros i j. split; [by left |]. intros [? | [? _]]; [done | lia].
      + intros j Hj. lia.
      + intros i j Hj. lia. }
  apply only_pair_mark in H as (Hop3 & Hconn & Hflag).
  assert (∀ i j, related c1 dp d j i ↔ related c dp d j i) as Hsame.
  { intros i j. apply related_untouched. apply Hop1. intros [= ? ?]. lia. }
  exists nd, n. split_and!; [done | done | | |].
  - intros i j. unfold related at 1. rewrite Hconn.
    fold (related c2 d dp i j). rewrite Hrel. simpl.
    rewrite (related_at2 _ _ _ _ _ _ Hr1), incident_resize_iff.
    rewrite <- (related_at2 _ _ _ _ _ _ Hr), Hsame. done.
  - intros j Hj. destruct (Hrows j Hj) as (rt & s & Hrt & Hs).
    exists rt, s. split; [| done].
    rewrite <- Hrt. symmetry. apply Hop1. intros [= ? ?]. lia.
  - intros i j Hj Hji. apply (Hbound i j); [done |]. by apply Hsame.
Qed.

(** X16. [transpose(d, dp)] adds the inverse of the relation (dp, d) to the
    relation (d, dp), cut or filled to the count of [d]: afterwards [j] is in
    the set of [i] exactly when [i] is counted and [j] was in the set of [i],
    or [j] is counted in dimension [dp] and has [i] in its set at (dp, d).
    It succeeds only if [d < dp], every counted entity of dimension [dp] has
    an entry in (dp, d) and these entries hold counted identifiers only; it
    marks the pair (d, dp) clean. *)
Theorem transpose_adds_inverse (d dp : nat) (c c' : Connectivity) :
  transpose d dp c = Ok c' →
  ∃ nd ndp,
    getCount d c = Ok nd
    ∧ getCount dp c = Ok ndp
    ∧ (∀ i j, related c' d dp i j
              ↔ (i < nd ∧ related c d dp i j)
                ∨ (j < ndp ∧ related c dp d j i))
    ∧ (∀ j, j < ndp → ∃ s, getIncidenceOf (dp, d) j c = Ok s)
    ∧ (∀ i j, j < ndp → related c dp d j i → i < nd)
    ∧ clean c' d dp
    ∧ d < dp.
Proof.
  intros H.
  destruct (transpose_full _ _ _ _ H) as (nd & ndp & Hnd & Hndp & Hrel & Hrows
                                           & Hbound).
  apply transpose_Ok in H as (Hlt & _ & Hflag & _).
  exists nd, ndp.
  split_and!; [by apply at_Ok | by apply at_Ok | done | | done | done | done].
  intros j Hj. destruct (Hrows j Hj) as (rt & s & Hrt & Hs).
  exists s. unfold getIncidenceOf. cbn [fst snd].
  rewrite getIncidence_at2, Hrt. cbn [bind].
  rewrite (assert_true (j <? _))
    by (apply Nat.ltb_lt; by eapply lookup_lt_Some).
  cbn [bind]. by apply at_Ok.
Qed.

Lemma transpose_adds_inverse_witness :
  ∃ nd ndp,
    getCount 0 two_triangles_state = Ok nd
    ∧ getCount 2 two_triangles_state = Ok ndp
    ∧ (∀ i j, related (state_of (transpose 0 2 two_triangles_state)) 0 2 i j
              ↔ (i < nd ∧ related two_triangles_state 0 2 i j)
                ∨ (j < ndp ∧ related two_triangles_state 2 0 j i)).
Proof.
  destruct (transpose_adds_inverse 0 2 two_triangles_state
              (state_of (transpose 0 2 two_triangles_state)))
    as (nd & ndp & H1 & H2 & H3 & _).
  - vm_compute. reflexivity.
  - exists nd, ndp. by split_and!.
Defined.

(** The boolean test of [intersection] decides [passes], as long as the
    entries it reads are the entries of [c]. *)
Lemma visit_passes (c cx : Connectivity) (d dp i j : nat)
    (rd0 rdp0 : list (list nat)) (d0i d0j : list nat) :
  dp ≤ d →
  (dp < d →
   at2 (m_connectivity cx) d 0 = at2 (m_connectivity c) d 0
   ∧ at2 (m_connectivity cx) dp 0 = at2 (m_connectivity c) dp 0) →
  at2 (m_connectivity cx) d 0 = Ok rd0 →
  at2 (m_connectivity cx) dp 0 = Ok rdp0 →
  rd0 !! i = Some d0i →
  rdp0 !! j = Some d0j →
  (d =? dp) && negb (i =? j) || (dp <? d) && includes d0i d0j = true
  ↔ passes c d dp i j.
Proof.
  intros Hle Hsame Hrd0 Hrdp0 Hi Hj. unfold passes.
  destruct (Nat.eqb_spec d dp) as [-> | Hne].
  - destruct (Nat.ltb_spec dp dp); [lia |]. rewrite orb_false_r. simpl.
    destruct (Nat.eqb_spec i j); simpl; split; try done.
    + intros [[_ ?] | [? _]]; [done | lia].
    + intros _. by left.
  - destruct (Nat.ltb_spec dp d) as [Hlt | ?]; [| lia]. simpl.
    destruct (Hsame Hlt) as [H1 H2]. split.
    + intros Hinc. right. split; [done |]. exists d0i, d0j.
      split_and!; [| | done].
      * exists rd0. split; [congruence | done].
      * exists rdp0. split; [congruence | done].
    + intros [[? _] | (_ & vi & vj & (r1 & Hr1 & Hvi) & (r2 & Hr2 & Hvj)
                         & Hinc)]; [done |].
      assert (r1 = rd0) as -> by congruence.
      assert (r2 = rdp0) as -> by congruence. congruence.
Qed.

(** What [intersection(d, dp, dpp)] stores, entry by entry. *)
Lemma intersection_full (d dp dpp : nat) (c c' : Connectivity) :
  dpp ≠ d → dpp ≠ dp → (dp < d → 0 < dp) →
  intersection d dp dpp c = Ok c' →
  ∃ nd,
    m_count c !! d = Some nd
    ∧ ∀ i j, related c' d dp i j
             ↔ i < nd
               ∧ (related c d dp i j
                  ∨ ∃ k, related c d dpp i k ∧ related c dpp dp k j
                         ∧ passes c d dp i j).
Proof.
  intros Hpd Hpdp Hcol H. unfold intersection in H.
  check H as Hle. apply Nat.leb_le in Hle. step H as c1 Hresize.
  step H as n Hn. step H as c2 Hloop. apply at_Ok in Hn.
  apply incidence_resize_Ok in Hresize
    as (Hop1 & Hd1 & r & nd & Hr & Hnd & Hr1).
  assert (m_count c1 = m_count c) as Hcnt by apply Hop1.
  rewrite Hcnt in Hn. assert (n = nd) as -> by congruence.
  set (R := λ i j : nat,
         ∃ k, related c1 d dpp i k ∧ related c1 dpp dp k j
              ∧ passes c1 d dp i j).
  assert (∀ cx, only_pair d dp c1 cx →
                at2 (m_connectivity cx) d dpp = at2 (m_connectivity c1) d dpp
                ∧ at2 (m_connectivity cx) dpp dp
                  = at2 (m_connectivity c1) dpp dp
                ∧ (dp < d →
                   at2 (m_connectivity cx) d 0 = at2 (m_connectivity c1) d 0
                   ∧ at2 (m_connectivity cx) dp 0
                     = at2 (m_connectivity c1) dp 0)) as Hreads.
  { intros cx Hop. split_and!.
    - apply Hop. intros E. inversion E. done.
    - apply Hop. intros E. inversion E. done.
    - intros Hlt. specialize (Hcol Hlt). split; apply Hop; ne_pair. }
  set (I := λ (k : nat) (cx : Connectivity),
         only_pair d dp c1 cx
         ∧ ∀ i j, related cx d dp i j
                  ↔ related c1 d dp i j ∨ (i < k ∧ R i j)).
  assert (I (0 + nd) c2) as [Hop2 Hrel].
  { eapply (for_each_seq I); [| | exact Hloop].
    - intros i c3 c4 Hi [Hop3 Hrel3] Hrow. unfold intersection_row in Hrow.
      step Hrow as rel Hrel'. check Hrow as Hb. step Hrow as ks Hks.
      apply at_Ok in Hks.
      destruct (Hreads c3 Hop3) as (Hrd & _).
      rewrite Hrd in Hrel'.
      set (J := λ (pre : list nat) (cx : Connectivity),
             only_pair d dp c1 cx
             ∧ ∀ i' j, related cx d dp i' j
                       ↔ related c1 d dp i' j
                         ∨ (i' < i ∧ R i' j)
                         ∨ (i' = i
                            ∧ ∃ k, In k pre ∧ related c1 dpp dp k j
                                   ∧ passes c1 d dp i j)).
      assert (J ks c4) as [Hop4 Hrel4].
      { eapply (for_each_prefix J); [| | exact Hrow].
        - intros pre k c5 c6 [Hop5 Hrel5] Hthrough.
          unfold intersection_through in Hthrough.
          step Hthrough as rel2 Hrel2. check Hthrough as Hb'.
          step Hthrough as js Hjs. apply at_Ok in Hjs.
          destruct (Hreads c5 Hop5) as (_ & Hrp & _).
          rewrite Hrp in Hrel2.
          set (K := λ (pre' : list nat) (cx : Connectivity),
                 only_pair d dp c1 cx
                 ∧ ∀ i' j, related cx d dp i' j
                           ↔ related c1 d dp i' j
                             ∨ (i' < i ∧ R i' j)
                             ∨ (i' = i
                                ∧ ((∃ k0, In k0 pre ∧ related c1 dpp dp k0 j
                                          ∧ passes c1 d dp i j)
                                   ∨ (In j pre' ∧ passes c1 d dp i j)))).
          assert (K js c6) as [Hop6 Hrel6].
          { eapply (for_each_prefix K); [| | exact Hthrough].
            - intros pre' j c7 c8 [Hop7 Hrel7] Hvisit.
              unfold intersection_visit in Hvisit.
              step Hvisit as rd0 Hrd0. check Hvisit as Hb1.
              step Hvisit as rdp0 Hrdp0. check Hvisit as Hb2.
              step Hvisit as d0i Hd0i. step Hvisit as d0j Hd0j.
              apply at_Ok in Hd0i, Hd0j.
              destruct (Hreads c7 Hop7) as (_ & _ & Hv).
              pose proof (visit_passes c1 c7 d dp i j rd0 rdp0 d0i d0j
                            Hle Hv Hrd0 Hrdp0 Hd0i Hd0j) as Htest.
              destruct ((d =? dp) && negb (i =? j)
                        || (dp <? d) && includes d0i d0j).
              + apply incidence_insert_Ok in Hvisit
                  as (Hop8 & _ & r7 & s & Hr7 & Hs & Hr8).
                split; [by eapply only_pair_trans |].
                intros i' j'. rewrite (related_at2 _ _ _ _ _ _ Hr8).
                rewrite (incident_insert _ _ _ _ _ _ Hs).
                rewrite <- (related_at2 _ _ _ _ _ _ Hr7), Hrel7, in_app_iff.
                simpl. destruct Htest as [Hpass _].
                specialize (Hpass eq_refl). split.
                * intros [[? | [? | [-> [? | [? ?]]]]] | [-> ->]]; auto 10.
                * intros [? | [? | [-> [? | [[? | [<- | []]] ?]]]]];
                    auto 10.
              + injection Hvisit as <-. split; [done |].
                intros i' j'. rewrite Hrel7, in_app_iff. simpl.
                destruct Htest as [_ Hpass]. split.
                * intros [? | [? | [-> [? | [? ?]]]]]; auto 10.
                * intros [? | [? | [-> [? | [[? | [<- | []]] ?]]]]];
                    auto 10.
                  discriminate (Hpass ltac:(done)).
            - split; [exact Hop5 |]. intros i' j. rewrite Hrel5. simpl.
              split.
              + intros [? | [? | [-> ?]]]; auto 10.
              + intros [? | [? | [-> [? | [[] _]]]]]; auto 10. }
          split; [exact Hop6 |]. intros i' j. rewrite Hrel6.
          assert (In j js ↔ related c1 dpp dp k j) as Hjs'.
          { rewrite (related_at2 _ _ _ _ _ _ Hrel2). unfold incident. split.
            - eauto.
            - intros (s & Hs & Hin). congruence. }
          split.
          * intros [? | [? | [-> [(k0 & Hk0 & Hrest) | [Hin Hp]]]]];
              [by left | by right; left | |].
            -- right. right. split; [done |]. exists k0.
               split; [apply in_app_iff; by left | done].
            -- right. right. split; [done |]. exists k.
               split; [apply in_app_iff; right; by left |].
               split; [by apply Hjs' | done].
          * intros [? | [? | [-> (k0 & [Hk0 | [<- | []]]%in_app_iff
                                     & Hk0j & Hp)]]];
              [by left | by right; left | |].
            -- right. right. split; [done |]. left. eauto.
            -- right. right. split; [done |]. right.
               split; [by apply Hjs' | done].
        - split; [exact Hop3 |]. intros i' j. rewrite Hrel3. split.
          + intros [? | [? ?]]; [by left | right; left; split; [lia | done]].
          + intros [? | [[? ?] | [_ (k & [] & _)]]];
              [by left | right; split; [lia | done]]. }
      split; [exact Hop4 |]. intros i' j. rewrite Hrel4.
      assert (∀ k, In k ks ↔ related c1 d dpp i k) as Hks'.
      { intros k. rewrite (related_at2 _ _ _ _ _ _ Hrel'). unfold incident.
        split.
        - eauto.
        - intros (s & Hs & Hin). congruence. }
      split.
      + intros [? | [[? ?] | [-> (k & Hk & Hkj & Hp)]]];
          [by left | right; split; [lia | done] |].
        right. split; [lia |]. exists k. split; [by apply Hks' | done].
      + intros [? | [Hlt (k & Hik & Hkj & Hp)]]; [by left |].
        destruct (decide (i' = i)) as [-> | Hne].
        * right. right. split; [done |]. exists k.
          split; [by apply Hks' | done].
        * right. left. split; [lia |]. by exists k.
    - split; [apply only_pair_refl |]. intros i j. split; [by left |].
      intros [? | [? _]]; [done | lia]. }
  apply only_pair_mark in H as (Hop3 & Hconn & Hflag).
  assert (∀ x y, (x, y) ≠ (d, dp) →
                 at2 (m_connectivity c1) x y = at2 (m_connectivity c) x y)
    as Hsame by (intros x y Hne; by apply Hop1).
  assert (∀ i j, passes c1 d dp i j ↔ passes c d dp i j) as Hpass.
  { intros i j. unfold passes, vertices.
    destruct (decide (dp < d)) as [Hlt | Hge].
    - specialize (Hcol Hlt).
      rewrite (Hsame d 0), (Hsame dp 0) by ne_pair. done.
    - split; (intros [? | [? _]]; [by left | lia]). }
  exists nd. split; [done |].
  intros i j. unfold related at 1. rewrite Hconn.
  fold (related c2 d dp i j). rewrite Hrel. simpl.
  rewrite (related_at2 _ _ _ _ _ _ Hr1), incident_resize_iff.
  rewrite <- (related_at2 _ _ _ _ _ _ Hr). unfold R.
  split.
  - intros [[? ?] | [? (k & Hik & Hkj & Hp)]]; [by auto |].
    split; [done |]. right. exists k. unfold related in *.
    rewrite (Hsame d dpp), (Hsame dpp dp) in * by congruence.
    split_and!; [done | done | by apply Hpass].
  - intros [Hi [? | (k & Hik & Hkj & Hp)]]; [by left |].
    right. split; [done |]. exists k. unfold related in *.
    rewrite (Hsame d dpp), (Hsame dpp dp) by congruence.
    split_and!; [done | done | by apply Hpass].
Qed.

(** X17. [intersection(d, dp, dpp)] through a pivot dimension other than [d]
    and [dp], and for [d > dp] off the column of the vertices, adds the
    composition of the relations (d, dpp) and (dpp, dp), filtered by its
    test, to the relation (d, dp) cut or filled to the count of [d]:
    afterwards [j] is in the set of [i] exactly when [i] is counted and
    either [j] was in the set of [i], or some [k] of the set of [i] at
    (d, dpp) has [j] in its set at (dpp, dp) and the pair passes the test -
    the two differ for [d = dp], the vertices of [j] are among those of [i]
    for [d > dp]. It marks the pair (d, dp) clean. *)
Theorem intersection_adds_composition (d dp dpp : nat)
    (c c' : Connectivity) :
  dpp ≠ d → dpp ≠ dp → (dp < d → 0 < dp) →
  intersection d dp dpp c = Ok c' →
  ∃ nd,
    getCount d c = Ok nd
    ∧ (∀ i j, related c' d dp i j
              ↔ i < nd
                ∧ (related c d dp i j
                   ∨ ∃ k, related c d dpp i k ∧ related c dpp dp k j
                          ∧ passes c d dp i j))
    ∧ clean c' d dp
    ∧ dp ≤ d.
Proof.
  intros Hpd Hpdp Hcol H.
  destruct (intersection_full _ _ _ _ _ Hpd Hpdp Hcol H) as (nd & Hnd & Hrel).
  apply intersection_Ok in H as (Hle & _ & Hflag & _).
  exists nd. split_and!; [by apply at_Ok | done | done | done].
Qed.

Lemma intersection_adds_composition_witness :
  ∃ nd,
    getCount 2 two_triangles_transposed = Ok nd
    ∧ ∀ i j,
        related (state_of (intersection 2 2 0 two_triangles_transposed)) 2 2 i j
        ↔ i < nd
          ∧ (related two_triangles_transposed 2 2 i j
             ∨ ∃ k, related two_triangles_transposed 2 0 i k
                    ∧ related two_triangles_transposed 0 2 k j
                    ∧ passes two_triangles_transposed 2 2 i j).
Proof.
  destruct (intersection_adds_composition 2 2 0 two_triangles_transposed
              (state_of (intersection 2 2 0 two_triangles_transposed)))
    as (nd & H1 & H2 & _); [lia | lia | lia | |].
  - vm_compute. reflexivity.
  - by exists nd.
Defined.

(** ** The neighbours of a cell *)

(** X18. On a mesh that has been declared and not queried yet, of dimension
    [D > 0], [compute(D, D)] relates every cell to its neighbours: the cell
    [j] is in the set of the cell [i] at (D, D) exactly when the two differ
    and some vertex is in the (D, 0) entries of both. *)
Theorem compute_cell_neighbours (ke : KeyEquality)
    (maximalDimension fuel : nat) (declarations : list call)
    (c c' : Connectivity) :
  Forall declares declarations →
  execute ke (Initialize maximalDimension :: declarations) = Ok c →
  0 < getMeshDimension c →
  compute ke (S fuel) (getMeshDimension c) (getMeshDimension c) c = Ok c' →
  ∀ i j, related c' (getMeshDimension c) (getMeshDimension c) i j
         ↔ i ≠ j
           ∧ ∃ v, related c (getMeshDimension c) 0 i v
                  ∧ related c (getMeshDimension c) 0 j v.
Proof.
  intros Hdecl Hrun HD H. set (D := getMeshDimension c) in *.
  assert (sound c ∧ unqueried c) as [Hsound Hun].
  { unfold execute in Hrun.
    change ((c0 <- initialize maximalDimension construct ;;
             for_each (perform ke) declarations c0) = Ok c) in Hrun.
    step Hrun as c0 Hinit.
    eapply declares_sound; [exact Hdecl | | | exact Hrun].
    - by eapply initialize_sound.
    - by eapply initialize_unqueried. }
  pose proof Hsound as (Hsh & Hal & Hem & _).
  rewrite compute_S in H. cbn zeta in H. fold D in H.
  destruct (Nat.eqb_spec D 0) as [? | _]; [lia |].
  rewrite andb_false_r in H.
  step H as c1 Hprep. step H as flag Hflag. step H as c2 Hderive.
  unfold prepare in Hprep.
  step Hprep as a0 Ha0. step Hprep as ca Htop. step Hprep as u1 Hu1.
  step Hprep as b0 Hb0. step Hprep as cb Hbuild. step Hprep as u2 Hu2.
  step Hprep as a1 Ha1. check Hprep as Hclean1.
  step Hprep as b' Hb'. step Hprep as cc Hbuild'. step Hprep as u3 Hu3.
  step Hprep as a2 Ha2. check Hprep as Hclean2. injection Hprep as <-.
  assert (a0 = true) as ->.
  { destruct a0; [done |]. destruct (Hun D D Ha0). lia. }
  step Htop as ct Ht.
  destruct (transpose_flag _ _ _ _ Ht) as (f & Hf).
  assert (f = true) as ->.
  { destruct f; [done |]. destruct (Hun 0 D Hf). lia. }
  pose proof (transpose_Ok _ _ _ _ Ht) as (_ & Hop1 & _).
  destruct (transpose_full _ _ _ _ Ht) as (n0 & nD & Hn0 & HnD & Hrelt & _).
  destruct (intersection_full D D 0 ct ca) as (nD' & HnD' & Hreli);
    [lia | lia | lia | exact Htop |].
  apply intersection_Ok in Htop as (_ & Hop2 & Hf2 & _).
  assert (nD' = nD) as ->.
  { destruct Hop1 as (_ & Hc & _). congruence. }
  assert (b0 = false) as ->.
  { unfold needs_build in Hb0. rewrite Nat.eqb_refl in Hb0. by injection Hb0. }
  injection Hbuild as <-.
  assert (b' = false) as ->.
  { unfold needs_build in Hb'. rewrite Nat.eqb_refl in Hb'. by injection Hb'. }
  injection Hbuild' as <-.
  rewrite Hf2 in Hflag. injection Hflag as <-. injection Hderive as <-.
  apply only_pair_mark in H as (_ & Hconn & _).
  assert (∀ i j, ¬ related c 0 D i j) as Hempty1.
  { intros i j (r & Hr & s & Hs & _). rewrite (Hem 0 D Hf) in Hr.
    injection Hr as <-. discriminate. }
  assert (∀ i j, ¬ related c D D i j) as Hempty2.
  { intros i j (r & Hr & s & Hs & _). rewrite (Hem D D Ha0) in Hr.
    injection Hr as <-. discriminate. }
  assert (∀ x y i j, (x, y) ≠ (0, D) →
                     related ct x y i j ↔ related c x y i j) as Hsame.
  { intros x y i j Hne. apply related_untouched.
    by eapply only_pair_untouched. }
  assert (∀ i v, related c D 0 i v → i < nD) as Hbound.
  { intros i v (r & Hr & s & Hs & _).
    apply lookup_lt_Some in HnD as HDlt.
    destruct (Hal D) as (ix & m & r' & _ & Hm & Hr' & Hlen & _); [lia |].
    assert (r' = r) as -> by congruence. assert (m = nD) by congruence.
    apply lookup_lt_Some in Hs. lia. }
  intros i j. unfold related at 1. rewrite Hconn.
  fold (related ca D D i j). rewrite Hreli. split.
  - intros [Hi [Hij | (k & Hik & Hkj & Hp)]].
    { apply Hsame in Hij; [| ne_pair]. by apply Hempty2 in Hij. }
    apply Hsame in Hik; [| ne_pair]. apply Hrelt in Hkj.
    destruct Hkj as [[_ Hkj] | [_ Hjk]]; [by apply Hempty1 in Hkj |].
    destruct Hp as [[_ Hne] | [? _]]; [| lia]. split; [done |]. eauto.
  - intros [Hne (v & Hiv & Hjv)]. split; [by eapply Hbound |]. right.
    exists v. split_and!.
    + apply Hsame; [ne_pair | done].
    + apply Hrelt. right. split; [by eapply Hbound | done].
    + left. by split.
Qed.

Lemma compute_cell_neighbours_witness :
  related two_triangles_neighbours 2 2 0 1
  ↔ 0 ≠ 1
    ∧ ∃ v, related two_triangles_state 2 0 0 v
           ∧ related two_triangles_state 2 0 1 v.
Proof.
  apply (compute_cell_neighbours VertexSet 2 3
           [Nodes 4; Cell Polytope.Triangle [0; 1; 2];
            Cell Polytope.Triangle [1; 2; 3]]
           two_triangles_state two_triangles_neighbours).
  - repeat (constructor; [exact I |]). constructor.
  - vm_compute. reflexivity.
  - vm_compute. lia.
  - vm_compute. reflexivity.
Defined.

(** ** Vertices *)



(** ** Sub-polytopes above dimension 0 *)

(** X20. The sub-polytopes of dimension [dim > 0] of a cell are made of
    vertices of the key of the cell, none of them is empty, and when the
    vertices of the cell are pairwise distinct so are the vertices of every
    sub-polytope. *)
Theorem getSubPolytopes_are_faces (i dim : nat) (c : Connectivity)
    (out : list (Polytope.Type_ * list nat)) :
  getSubPolytopes i dim c = Ok out →
  0 < dim →
  ∃ p, getPolytope (getMeshDimension c) i c = Ok p
       ∧ ∀ g v, In (g, v) out →
                subset v p ∧ v ≠ [] ∧ (NoDup p → NoDup v).
Proof.
  unfold getSubPolytopes, getPolytope. intros H Hdim.
  step H as ix Hix. step H as p Hp. step H as g Hg.
  exists p. rewrite Hix. cbn [bind]. split; [done |].
  destruct g; check H as Hd; check H as Hlen; apply Nat.eqb_eq in Hlen;
    repeat (destruct p as [| ? p]; try discriminate Hlen);
    destruct dim as [| [| [| [| dim]]]]; try lia; try discriminate;
    simpl in H; injection H as <-;
    intros g v Hin; simpl in Hin;
    repeat (destruct Hin as [E | Hin]; [inversion E; subst; clear E |]);
    try destruct Hin;
    (split_and!;
     [ intros x Hx; simpl in *; tauto
     | discriminate
     | intros Hnd;
       repeat (apply NoDup_cons in Hnd as [? Hnd]);
       rewrite ?not_elem_of_cons in *;
       repeat (apply NoDup_cons; split;
               [rewrite ?not_elem_of_cons; intuition (eauto using not_elem_of_nil) |]);
       apply NoDup_nil; done ]).
Qed.

Lemma getSubPolytopes_are_faces_witness :
  ∃ p, getPolytope (getMeshDimension two_triangles_state) 0
         two_triangles_state = Ok p
       ∧ ∀ g v, In (g, v) [(Polytope.Segment, [0; 1]);
                           (Polytope.Segment, [1; 2]);
                           (Polytope.Segment, [2; 0])] →
                subset v p ∧ v ≠ [] ∧ (NoDup p → NoDup v).
Proof.
  apply (getSubPolytopes_are_faces 0 1 two_triangles_state); [| lia].
  vm_compute. reflexivity.
Defined.
